(** * Chinese-Style-Metrics: the isometric contribution calendar

    A shallow embedding of [scripts/generate-cny-metrics.ts] (the dragon-dance
    revision of the script) and the properties of its classifier, statistics,
    grid projection, path walk and command-line front end.

    Conventions of the embedding.
    - A JavaScript [number] that only ever holds an integer (counts, week and
      day indices, epoch milliseconds) is a [Z].  Every other [number] is a
      rational [Q].  The index of a quantile ([pick]), the average of the
      panel ([toFixed2]) and the channels of a shaded colour ([dim],
      [highlight]) are computed in binary64 as the script computes them:
      their products, quotients and sums are rounded by [b64] before
      [Math.floor], [toFixed] or [Math.round] is taken.  Coordinates, bar
      heights, scores, delays and the index drawn for the walk are kept as
      exact rationals.
    - An ISO date string ["YYYY-MM-DD"] is represented by its epoch day
      number (days since 1970-01-01); a [Date] object by its epoch
      milliseconds.  Calendar arithmetic of [Date] then is integer arithmetic.
    - [Map<string, _>] is a [gmap string _]; arrays are lists; template
      strings of integers are built with [pretty].
    - [Math.random] is an oracle [nat -> Q]: its [n]-th call returns the
      [n]-th value, and the code that draws threads the call counter. *)

From Stdlib Require Import QArith Qround Qpower Lia Lqa Ascii.
From stdpp Require Import gmap strings list pretty sorting.

Open Scope Z_scope.

(** ** Numbers and arrays *)

(** [Math.round]: the nearest integer, halves upwards. *)
Definition mathRound (x : Q) : Z := Qfloor (x + (1 # 2)).

(** [Math.floor]. *)
Definition mathFloor (x : Q) : Z := Qfloor x.

(** The integer nearest to [x], a half going to the even neighbour. *)
Definition roundHalfEven (x : Q) : Z :=
  let f := Qfloor x in
  match (x - inject_Z f ?= 1 # 2)%Q with
  | Lt => f
  | Gt => f + 1
  | Eq => if Z.even f then f else f + 1
  end.

(** The binary exponent of a positive [x]: [2 ^ e <= x < 2 ^ (e + 1)]. *)
Definition exponent (x : Q) : Z :=
  let e := Z.log2 (Qnum x) - Z.log2 (Zpos (Qden x)) in
  if Qle_bool (2 ^ e) x then e else e - 1.

(** A positive [x] rounded to 53 significant bits. *)
Definition round53 (x : Q) : Q :=
  let ulp := (2 ^ (exponent x - 52))%Q in
  (inject_Z (roundHalfEven (x / ulp)) * ulp)%Q.

(** The binary64 number nearest to [x], a tie going to the even
    significand: the value of a literal, of a product or of a quotient of
    binary64 numbers.  The exponent is not bounded: overflow and denormal
    numbers are left out. *)
Definition b64 (x : Q) : Q :=
  match (x ?= 0)%Q with
  | Eq => 0%Q
  | Gt => round53 x
  | Lt => (- round53 (- x))%Q
  end.

(** [Number(x.toFixed(2))], [x] being rounded to binary64 first: the
    multiple of 1/100 nearest to that number, halves away from zero, as the
    number of hundredths over 100. *)
Definition toFixed2 (x : Q) : Q :=
  let x := b64 x in
  if Qle_bool 0 x then (Qfloor (x * 100 + (1 # 2)) # 100)%Q
  else (- Qfloor (- x * 100 + (1 # 2)) # 100)%Q.

(** [a[i]] for a number [i]: [None] stands for [undefined]. *)
Definition index {A : Type} (l : list A) (i : Z) : option A :=
  if i <? 0 then None else l !! Z.to_nat i.

Section Sort.
Context {A : Type} (cmp : A -> A -> Q).

(** [Array.prototype.sort] with a comparator is a stable sort; [x] goes in
    front of the first element it does not compare greater than. *)
Fixpoint insertSorted (x : A) (l : list A) : list A :=
  match l with
  | [] => [x]
  | y :: l' => if Qle_bool (cmp x y) 0 then x :: l else y :: insertSorted x l'
  end.

Definition jsSort (l : list A) : list A := foldr insertSorted [] l.
End Sort.

(** ** Dates *)

Record Day := { date : Z; count : Z }.

Definition msPerDay : Z := 86400000.

(** [toDate(isoDate)]: midnight UTC of that day, in epoch milliseconds. *)
Definition toDate (isoDate : Z) : Z := isoDate * msPerDay.

(** [iso(d)]: the day that contains the instant [d]. *)
Definition iso (d : Z) : Z := d / msPerDay.

(** [d.getUTCDay()]: 0 is Sunday; 1970-01-01 was a Thursday. *)
Definition getUTCDay (d : Z) : Z := (d / msPerDay + 4) mod 7.

(** [d.setUTCDate(d.getUTCDate() + n)]: the same time of day, [n] days on. *)
Definition shiftUTCDate (d n : Z) : Z := d + n * msPerDay.

Definition addDays (isoDate days : Z) : Z := iso (shiftUTCDate (toDate isoDate) days).

Fixpoint dateRangeLoop (n : nat) (cur e : Z) : list Z :=
  match n with
  | O => []
  | S n' => if cur <=? e then iso cur :: dateRangeLoop n' (shiftUTCDate cur 1) e else []
  end.

(** The [while (cur <= e)] loop runs [end - start + 1] times at most. *)
Definition dateRange (start end_ : Z) : list Z :=
  dateRangeLoop (Z.to_nat (end_ - start + 1)) (toDate start) (toDate end_).

Definition alignSunday (isoDate : Z) : Z :=
  let d := toDate isoDate in
  if negb (getUTCDay d =? 0) then iso (shiftUTCDate d (- getUTCDay d)) else iso d.

Definition diffDays (a b : Z) : Z :=
  mathRound (inject_Z (toDate a - toDate b) / inject_Z msPerDay).

(** ** Colour levels and statistics *)

Definition colors : list string :=
  ["#5a2020"; "#b82e2e"; "#d94040"; "#e8823a"; "#f5c842"].

Definition color (i : nat) : string := default "" (colors !! i).

Record Levels := { q_max : Z; levelColor : Z -> string }.

(** [vals]: the positive counts, ascending. *)
Definition positiveVals (days : list Day) : list Z :=
  jsSort (fun a b => inject_Z (a - b))
         (List.filter (fun v => 0 <? v) (map count days)).

(** [Math.max(0, ...days.map(d => d.count))]. *)
Definition maxCount (days : list Day) : Z :=
  foldr Z.max 0 (map count days).

(** [pick(q)]: [vals[Math.floor((vals.length - 1) * q)]], the product
    being that of binary64 numbers. *)
Definition pick (vals : list Z) (q : Q) : option Z :=
  index vals (mathFloor (b64 (inject_Z (Z.of_nat (length vals) - 1) * b64 q))).

(** The thresholds [q1], [q2], [q3]. *)
Definition quantiles (vals : list Z) : option Z * option Z * option Z :=
  (pick vals (35 # 100), pick vals (65 # 100), pick vals (88 # 100)).

(** [count <= q]; a comparison with [undefined] is false. *)
Definition leThreshold (c : Z) (q : option Z) : bool :=
  match q with Some v => c <=? v | None => false end.

Definition quantileLevels (days : list Day) : Levels :=
  let vals := positiveVals days in
  let max := maxCount days in
  match vals with
  | [] => {| q_max := max; levelColor := fun _ => color 0 |}
  | _ =>
    let '(q1, q2, q3) := quantiles vals in
    {| q_max := max;
       levelColor := fun count =>
         if count <=? 0 then color 0
         else if leThreshold count q1 then color 1
         else if leThreshold count q2 then color 2
         else if leThreshold count q3 then color 3
         else color 4 |}
  end.

Record Stats := {
  s_total : Z; s_max : Z; s_average : Q; s_current : Z; s_best : Z
}.

(** One iteration of the streak loop on the pair [(current, best)]. *)
Definition streakStep (cb : Z * Z) (d : Day) : Z * Z :=
  let '(current, best) := cb in
  if 0 <? count d then (current + 1, Z.max best (current + 1))
  else (0, best).

Definition stats (days : list Day) : Stats :=
  let total := foldl (fun a d => a + count d) 0 days in
  let max := foldl (fun a d => Z.max a (count d)) 0 days in
  let average :=
    toFixed2 (inject_Z total / inject_Z (Z.max 1 (Z.of_nat (length days)))) in
  let '(current, best) := foldl streakStep (0, 0) days in
  {| s_total := total; s_max := max; s_average := average;
     s_current := current; s_best := best |}.

(** The 366-day scenario window: day [i] has date [start + i]; every count
    is 0 except days 100 and 101, which have 5. *)
Definition scenarioDays (start : Z) : list Day :=
  map (fun i => let z := Z.of_nat i in
                {| date := start + z;
                   count := if (z =? 100) || (z =? 101) then 5 else 0 |})
      (seq 0 366).


(** ** Isometric grid *)

Definition width : Q := 950.
Definition height : Q := 440.
Definition cellW : Q := 13.
Definition cellH : Q := 13 # 2.
Definition maxBarH : Q := 40.
Definition gridCX : Q := (width * (1 # 4))%Q.
Definition gridTopY : Q := 50.

Definition isoX (week dow : Z) : Q := (gridCX + inject_Z (week - dow) * cellW)%Q.
Definition isoY (week dow : Z) : Q := (gridTopY + inject_Z (week + dow) * cellH)%Q.

(** [gridStart] and [totalWeeks] as [render] computes them from [days[0]]
    and the last day; reading [days[0].date] of an empty array throws. *)
Definition gridStartOf (days : list Day) : option Z :=
  d0 ← head days; Some (alignSunday (date d0)).

Definition totalWeeksOf (days : list Day) : option Z :=
  gridStart ← gridStartOf days;
  dn ← last days;
  Some (mathFloor (inject_Z (diffDays (date dn) gridStart) / 7)%Q).

(** The grid cell of a day: [dow] and [week] as every loop of [render]
    computes them. *)
Definition dowOf (d : Day) : Z := getUTCDay (toDate (date d)).

Definition weekOf (totalWeeks gridStart : Z) (d : Day) : Z :=
  totalWeeks - mathFloor (inject_Z (diffDays (date d) gridStart) / 7)%Q.

(** The key [`${w},${d}`] of a cell in [barHeightMap] and [recentHistory]. *)
Definition key (w d : Z) : string := pretty w +:+ "," +:+ pretty d.

(** [ratio * maxBarH] of a day. *)
Definition barHeight (max : Z) (d : Day) : Q :=
  let ratio := if 0 <? max then (inject_Z (count d) / inject_Z max)%Q else 0%Q in
  (ratio * maxBarH)%Q.

(** The loop that fills [barHeightMap]: later days overwrite earlier ones. *)
Definition barHeightMapOf (max totalWeeks gridStart : Z) (days : list Day)
  : gmap string Q :=
  foldl (fun m d =>
           if count d <=? 0 then m
           else <[key (weekOf totalWeeks gridStart d) (dowOf d) := barHeight max d]> m)
        ∅ days.

(** ** The dragon walk *)

Record Waypoint := { wp_x : Q; wp_y : Q; wp_w : Z; wp_d : Z }.

Record Move := { dw : Z; dd : Z }.

Record Candidate := { c_w : Z; c_d : Z; score : Q; move : Move }.

Definition moves : list Move :=
  [ {| dw := 1; dd := 0 |}; {| dw := -1; dd := 0 |};
    {| dw := 0; dd := 1 |}; {| dw := 0; dd := -1 |};
    {| dw := 1; dd := 1 |}; {| dw := 1; dd := -1 |};
    {| dw := -1; dd := 1 |}; {| dw := -1; dd := -1 |} ].

Definition historyLen : nat := 32.
Definition steps : nat := 80.

(** The variables of the walk that change from step to step; [draws] is the
    number of [Math.random()] calls made so far. *)
Record WalkState := {
  currW : Z; currD : Z;
  lastDw : Z; lastDd : Z;
  recentHistory : list string;
  waypoints : list Waypoint;
  draws : nat
}.

Inductive StepResult :=
| Committed (s : WalkState)   (* a candidate was chosen *)
| Trapped (s : WalkState)     (* [valid] is empty: [break] *)
| Crashed.                    (* [choice] is [undefined] *)

Section Walk.
Variable totalWeeks : Z.
Variable barHeightMap : gmap string Q.
Variable random : nat -> Q.

Definition has (k : string) : bool := bool_decide (is_Some (barHeightMap !! k)).

Definition includes (l : list string) (k : string) : bool := bool_decide (k ∈ l).

Definition getPt (w d : Z) : Waypoint :=
  let cx := isoX w d in
  let cy := isoY w d in
  let h := default 0%Q (barHeightMap !! key w d) in
  {| wp_x := cx; wp_y := (cy - h)%Q; wp_w := w; wp_d := d |}.

(** The score of the in-bounds candidate reached by move [m], with [r] the
    value [Math.random()] returned for it. *)
Definition scoreOf (s : WalkState) (m : Move) (r : Q) : Q :=
  let nw := currW s + dw m in
  let nd := currD s + dd m in
  let score := (r * 5)%Q in
  let isFlat := negb (has (key nw nd)) in
  let wasFlat := negb (has (key (currW s) (currD s))) in
  let score := if nw <=? 8 then (score + 2)%Q else score in
  let score := if nw <=? 4 then (score + 1)%Q else score in
  let score := if has (key nw nd) then (score + 15)%Q else score in
  let score := if includes (recentHistory s) (key nw nd) then (score - 1000)%Q else score in
  let score :=
    if (dw m =? lastDw s) && (dd m =? lastDd s) then
      let score := (score + 50)%Q in
      if isFlat && wasFlat then (score + 30)%Q else score
    else if (dw m =? lastDw s) || (dd m =? lastDd s) then (score + 5)%Q
    else score in
  let score := if dw m - dd m <? 0 then (score - 5000)%Q else score in
  score.

Definition outOfBounds (nw nd : Z) : bool :=
  (nw <? 0) || (totalWeeks <=? nw) || (nd <? 0) || (6 <? nd).

(** The loop over [moves]: the candidates in the order pushed, and the
    number of draws after it. *)
Fixpoint gather (s : WalkState) (ms : list Move) (n : nat) : list Candidate * nat :=
  match ms with
  | [] => ([], n)
  | m :: ms' =>
    let nw := currW s + dw m in
    let nd := currD s + dd m in
    if outOfBounds nw nd then gather s ms' n
    else
      let c := {| c_w := nw; c_d := nd; score := scoreOf s m (random n); move := m |} in
      let '(cs, n') := gather s ms' (S n) in
      (c :: cs, n')
  end.

(** [recentHistory.push(key); if (recentHistory.length > historyLen)
    recentHistory.shift()]. *)
Definition pushHistory (h : list string) (k : string) : list string :=
  let h' := h ++ [k] in
  if (historyLen <? length h')%nat then tail h' else h'.

(** One iteration of the [for (let i = 0; i < steps; i++)] loop. *)
Definition step (s : WalkState) : StepResult :=
  let '(candidates, n) := gather s moves (draws s) in
  let candidates := jsSort (fun a b => score b - score a)%Q candidates in
  let valid := List.filter (fun c => negb (Qle_bool (score c) (-500))) candidates in
  match valid with
  | [] => Trapped {| currW := currW s; currD := currD s;
                     lastDw := lastDw s; lastDd := lastDd s;
                     recentHistory := recentHistory s;
                     waypoints := waypoints s; draws := n |}
  | _ =>
    let topK := take 3 valid in
    match index topK (mathFloor (random n * inject_Z (Z.of_nat (length topK)))%Q) with
    | None => Crashed
    | Some choice =>
      Committed {| currW := c_w choice; currD := c_d choice;
                   lastDw := dw (move choice); lastDd := dd (move choice);
                   recentHistory :=
                     pushHistory (recentHistory s) (key (c_w choice) (c_d choice));
                   waypoints := waypoints s ++ [getPt (c_w choice) (c_d choice)];
                   draws := S n |}
    end
  end.

Fixpoint walkLoop (i : nat) (s : WalkState) : option WalkState :=
  match i with
  | O => Some s
  | S i' =>
    match step s with
    | Committed s' => walkLoop i' s'
    | Trapped s' => Some s'
    | Crashed => None
    end
  end.

(** The state before the loop: the walk starts at week 20, day 5, and its
    first waypoint is not entered into [recentHistory]. *)
Definition walkStart : WalkState :=
  {| currW := 20; currD := 5; lastDw := 0; lastDd := 0;
     recentHistory := []; waypoints := [getPt 20 5]; draws := 0 |}.

Definition walk : option WalkState := walkLoop steps walkStart.
End Walk.

(** The walk [render] runs for a day series: its final state, or [None]
    when [render] throws on the way. *)
Definition walkOf (random : nat -> Q) (days : list Day) : option WalkState :=
  gridStart ← gridStartOf days;
  totalWeeks ← totalWeeksOf days;
  let bh := barHeightMapOf (q_max (quantileLevels days)) totalWeeks gridStart days in
  walk totalWeeks bh random.

(** The array [waypoints] after the loop. *)
Definition waypointsOf (random : nat -> Q) (days : list Day) : option (list Waypoint) :=
  waypoints <$> walkOf random days.

(** ** The document *)

(** One cubic segment [C cpx1,cpy1 cpx2,cpy2 x,y] of the motion path. *)
Record Curve := { cp1 : Q * Q; cp2 : Q * Q; target : Q * Q }.

(** The pieces pushed onto [parts], in order.  Numbers are kept as numbers
    rather than as their decimal text; the markup of a fixed ornament is
    kept as its name only, and the five shapes of one bar are one [Bar].  A
    cloud is kept with what [svgCloud] computes for it: its arguments, its
    drift and the seconds of its animation. *)
Inductive Part :=
| Static (name : string)
| FloorTile (cx cy : Q)
| Bar (cx cy h : Q) (c : string) (shimmerDelay : Q)
| DragonPath (start : Q * Q) (curves : list Curve)
| DragonTail (begin : Q)
| DragonSegment (begin : Q) (isGold : bool) (rx ry opacity : Q)
| DragonHead
| PanelStreak (best current : Z)
| PanelDaily (max : Z) (average : Q)
| PanelTotal (total : Z)
| LegendSwatch (c : string)
| Footer (year : Z)
| Cloud (cx cy scale opacity : Q) (drift dur : Z).

Definition isDragon (p : Part) : bool :=
  match p with
  | DragonPath _ _ | DragonTail _ | DragonSegment _ _ _ _ _ | DragonHead => true
  | _ => false
  end.

(** The body of the loop that extends [pathD], from [waypoints[1]] on. *)
Fixpoint curvesFrom (prev : Waypoint) (rest : list Waypoint) : list Curve :=
  match rest with
  | [] => []
  | curr :: rest' =>
    {| cp1 := (wp_x prev + (wp_x curr - wp_x prev) * (4 # 10), wp_y prev)%Q;
       cp2 := (wp_x prev + (wp_x curr - wp_x prev) * (6 # 10), wp_y curr)%Q;
       target := (wp_x curr, wp_y curr) |} :: curvesFrom curr rest'
  end.

Definition segCount : nat := 24.
Definition segDelay : Q := 1 # 4.

Definition dragonSegment (i : nat) : Part :=
  let t := (inject_Z (Z.of_nat i) / inject_Z (Z.of_nat segCount))%Q in
  DragonSegment (inject_Z (Z.of_nat i + 1) * segDelay)%Q
                (Nat.eqb (i mod 3) 1)
                (6 - t * (5 # 2))%Q
                ((9 # 2) - t * (3 # 2))%Q
                ((88 # 100) - t * (3 # 10))%Q.

(** The block guarded by [if (waypoints.length >= 4)]. *)
Definition dragonLayer (waypoints : list Waypoint) : list Part :=
  if (4 <=? length waypoints)%nat then
    match waypoints with
    | [] => []
    | p0 :: rest =>
      [DragonPath (wp_x p0, wp_y p0) (curvesFrom p0 rest);
       DragonTail (inject_Z (Z.of_nat segCount + 1) * segDelay)%Q]
      ++ map dragonSegment (seq 0 segCount)
      ++ [DragonHead]
    end
  else [].

Definition floorTile (totalWeeks gridStart : Z) (d : Day) : Part :=
  let dow := dowOf d in
  let week := weekOf totalWeeks gridStart d in
  FloorTile (isoX week dow) (isoY week dow).

(** The comparator of the painting order: week first, then day of week. *)
Definition paintOrder (totalWeeks gridStart : Z) (a b : Day) : Q :=
  let wa := weekOf totalWeeks gridStart a in
  let wb := weekOf totalWeeks gridStart b in
  if negb (wa =? wb) then inject_Z (wa - wb)
  else inject_Z (dowOf a - dowOf b).

Definition bars (levels : Levels) (totalWeeks gridStart : Z) (days : list Day)
  : list Part :=
  let sorted := jsSort (paintOrder totalWeeks gridStart) days in
  flat_map (fun d =>
    if count d <=? 0 then []
    else
      let dow := dowOf d in
      let week := weekOf totalWeeks gridStart d in
      [Bar (isoX week dow) (isoY week dow) (barHeight (q_max levels) d)
           (levelColor levels (count d))
           (inject_Z (week * 7 + dow) * (8 # 100))%Q]) sorted.

Definition ornamentsTop : list Part :=
  map Static ["svg"; "defs"; "background"; "border-glow"; "border";
              "corner"; "corner"; "corner"; "corner";
              "cloud"; "cloud"; "cloud"; "lantern"; "lantern";
              "firecracker"; "firecracker"].

Definition panel (s : Stats) : list Part :=
  [Static "panel"; Static "streak-title"; PanelStreak (s_best s) (s_current s);
   Static "divider"; Static "daily-title"; PanelDaily (s_max s) (s_average s);
   Static "divider"; Static "total-title"; PanelTotal (s_total s);
   Static "total-unit"; Static "legend-low"]
  ++ map LegendSwatch colors
  ++ [Static "legend-high"].

Definition ornamentsBottom (year : Z) : list Part :=
  [Static "plum"; Static "plum"; Footer year;
   Static "cloud"; Static "cloud"; Static "cloud"; Static "svg-close"].

(** The document of [render(days, username, duration)] with each cloud
    kept as its name only; neither [username] nor [duration] is read.
    [random] is [Math.random] from the first call of [render] on, and
    [year] is [new Date().getFullYear()].  [None] when the call throws.
    The call with the clouds as [svgCloud] draws them, in a process whose
    state it reads and changes, is [renderCall] below. *)
Definition render (random : nat -> Q) (year : Z) (days : list Day)
  : option (list Part) :=
  let levels := quantileLevels days in
  let s := stats days in
  gridStart ← gridStartOf days;
  totalWeeks ← totalWeeksOf days;
  wps ← waypointsOf random days;
  Some (ornamentsTop
        ++ map (floorTile totalWeeks gridStart) days
        ++ bars levels totalWeeks gridStart days
        ++ dragonLayer wps
        ++ panel s
        ++ ornamentsBottom year).

(** ** A call of [render] in its process *)

Inductive Duration := HalfYear | FullYear.

(** What a call of [render] reads besides its arguments: the values
    [Math.random] returns, in order, and how many of them have been
    returned so far; the module's counter [cloudId]; and the year of
    [new Date()].  ([lanternId] is set to 0 before each use.) *)
Record Process := {
  randomValues : nat -> Q;
  randomCalls : nat;
  cloudId : nat;
  thisYear : Z
}.

(** [svgCloud(cx, cy, scale, opacity)] with [id] the value of [cloudId]
    it reads; the counter is one more afterwards. *)
Definition svgCloud (cx cy scale opacity : Q) (id : nat) : Part :=
  Cloud cx cy scale opacity (12 + Z.of_nat id * 4) (40 + Z.of_nat id * 12).

Definition ornamentsTopAt (id : nat) : list Part :=
  map Static ["svg"; "defs"; "background"; "border-glow"; "border";
              "corner"; "corner"; "corner"; "corner"]
  ++ [svgCloud 60 20 (45 # 100) (8 # 100) id;
      svgCloud 880 18 (4 # 10) (6 # 100) (id + 1);
      svgCloud 420 22 (3 # 10) (5 # 100) (id + 2)]
  ++ map Static ["lantern"; "lantern"; "firecracker"; "firecracker"].

Definition ornamentsBottomAt (year : Z) (id : nat) : list Part :=
  [Static "plum"; Static "plum"; Footer year;
   svgCloud 80 (height - 30) (4 # 10) (4 # 100) id;
   svgCloud 550 (height - 25) (5 # 10) (4 # 100) (id + 1);
   svgCloud 950 (height - 35) (35 # 100) (3 # 100) (id + 2);
   Static "svg-close"].

(** The draws a call makes are the next values of [Math.random]. *)
Definition drawsOf (p : Process) : nat -> Q :=
  fun n => randomValues p (randomCalls p + n).

(** [render(days, username, duration)] called in the process [p]: the
    document and the process afterwards, or [None] when the call throws
    (what a throwing call leaves behind is not kept).  The three clouds of
    the top are drawn before the walk and the three of the bottom after
    it; [cloudId] is never set back. *)
Definition renderCall (days : list Day) (username : string) (duration : Duration)
           (p : Process) : option (list Part * Process) :=
  let levels := quantileLevels days in
  let s := stats days in
  gridStart ← gridStartOf days;
  totalWeeks ← totalWeeksOf days;
  w ← walkOf (drawsOf p) days;
  Some (ornamentsTopAt (cloudId p)
        ++ map (floorTile totalWeeks gridStart) days
        ++ bars levels totalWeeks gridStart days
        ++ dragonLayer (waypoints w)
        ++ panel s
        ++ ornamentsBottomAt (thisYear p) (cloudId p + 3),
        {| randomValues := randomValues p;
           randomCalls := randomCalls p + draws w;
           cloudId := cloudId p + 6;
           thisYear := thisYear p |}).

(** The document a call returns, and the waypoints it walks. *)
Definition documentOf (days : list Day) (username : string) (duration : Duration)
           (p : Process) : option (list Part) :=
  fst <$> renderCall days username duration p.


(** ** Command line, ingestion and [main] *)

Record Args := { username : string; output : string; duration : Duration }.

(** The outcome of a call that may [throw new Error(message)]. *)
Inductive Result (A : Type) :=
| Ok (a : A)
| Throw (message : string).
Arguments Ok {A} a.
Arguments Throw {A} message.

(** The [for] loop of [parseArgs] from index [i] on, [args] being the
    arguments from [i]: [val] is the next one, and a consumed value is
    skipped. *)
Fixpoint parseLoop (args : list string) (parsed : Args) : Args :=
  match args with
  | [] => parsed
  | key :: rest =>
    match rest with
    | [] => parsed
    | val :: rest' =>
      if String.eqb val "" then parseLoop rest parsed
      else if String.eqb key "--username" then
        parseLoop rest' {| username := val; output := output parsed;
                           duration := duration parsed |}
      else if String.eqb key "--output" then
        parseLoop rest' {| username := username parsed; output := val;
                           duration := duration parsed |}
      else if String.eqb key "--duration" && String.eqb val "half-year" then
        parseLoop rest' {| username := username parsed; output := output parsed;
                           duration := HalfYear |}
      else if String.eqb key "--duration" && String.eqb val "full-year" then
        parseLoop rest' {| username := username parsed; output := output parsed;
                           duration := FullYear |}
      else parseLoop rest parsed
    end
  end.

(** [parseArgs()] on [process.argv.slice(2)]. *)
Definition parseArgs (args : list string) : Result Args :=
  let parsed :=
    parseLoop args {| username := ""; output := "assets/cny_metrics.svg";
                      duration := FullYear |} in
  if String.eqb (username parsed) "" then Throw "Missing --username"
  else Ok parsed.

(** A response: [text] is what [resp.text()] resolves to, unless
    [textError] is the error it rejects with. *)
Record Response := {
  ok : bool; status : Z; text : string; textError : option string
}.

(** [hay.includes(needle)]. *)
Fixpoint stringIncludes (hay needle : string) : bool :=
  String.prefix needle hay ||
  match hay with
  | EmptyString => false
  | String _ hay' => stringIncludes hay' needle
  end.

(** The calls the program makes on its surroundings, in order. *)
Inductive Event :=
| EvFetch (url : string)
| EvMkdir (dir : string)
| EvWriteFile (path : string) (svg : list Part)
| EvLog (message : string)
| EvError (message : string)
| EvExit (code : Z).

Record World := {
  argv : list string;                 (* process.argv.slice(2) *)
  now : Z;                            (* new Date(), epoch milliseconds *)
  fetch : string -> Result Response;  (* the answer to a request, or the
                                         error [fetch] rejects with *)
  mathRandom : nat -> Q;
  mkdir : string -> option string;    (* the error [mkdir] rejects with *)
  writeFile : string -> list Part -> option string
                                      (* the error [writeFile] rejects with *)
}.

Section Main.
(** Built-ins of the host: the text of a day number
    ([toISOString().slice(0, 10)]), [encodeURIComponent], the year of an
    instant, the matches of the four regular expressions, [path.resolve]
    and [path.dirname]. *)
Variable isoText : Z -> string.
Variable encodeURIComponent : string -> string.
Variable getFullYear : Z -> Z.
Variable matchTd : string -> list string.
Variable matchAttr : string -> list (string * string).
Variable matchTooltip : string -> list (string * string).
Variable execCount : string -> option Z.
Variable resolve : string -> string.
Variable dirname : string -> string.

Definition contributionsUrl (username : string) (from to : Z) : string :=
  "https://github.com/users/" +:+ encodeURIComponent username
  +:+ "/contributions?from=" +:+ isoText from +:+ "&to=" +:+ isoText to.

(** A string is truthy when it is defined and not empty. *)
Definition truthy (o : option string) : bool :=
  match o with Some s => negb (String.eqb s "") | None => false end.

Definition dateByCellOf (html : string) : gmap string string :=
  foldl (fun m td =>
           let attrs : gmap string string :=
             foldl (fun a kv => <[kv.1 := kv.2]> a) ∅ (matchAttr td) in
           match attrs !! "id", attrs !! "data-date" with
           | Some id, Some date =>
             if truthy (Some id) && truthy (Some date) then <[id := date]> m else m
           | _, _ => m
           end)
        ∅ (matchTd html).

(** The map [result] before its size is tested. *)
Definition parsedContributions (html : string) : gmap string Z :=
  let dateByCell := dateByCellOf html in
  foldl (fun result m =>
           let '(id, tip) := m in
           match dateByCell !! id with
           | Some date =>
             if negb (truthy (Some date)) then result
             else if stringIncludes tip "No contributions" then <[date := 0]> result
             else match execCount tip with
                  | Some c => <[date := c]> result
                  | None => result
                  end
           | None => result
           end)
        ∅ (matchTooltip html).

(** [fetchContributions] once the response has arrived. *)
Definition fetchContributions (resp : Response) : Result (gmap string Z) :=
  if negb (ok resp) then Throw ("GitHub request failed: " +:+ pretty (status resp))
  else
    match textError resp with
    | Some e => Throw e
    | None =>
      let result := parsedContributions (text resp) in
      if (size result =? 0)%nat then Throw "No contribution data parsed"
      else Ok result
    end.

(** The window [start], [end] that [main] asks for. *)
Definition windowOf (world : World) (args : Args) : Z * Z :=
  let end_ := iso (now world) in
  let lookback := match duration args with FullYear => 365 | HalfYear => 180 end in
  let start := addDays end_ (- lookback) in
  let start := alignSunday start in
  (start, end_).

(** The process at the start of a run: no value of [Math.random] has been
    returned and [cloudId] is 0. *)
Definition processOf (world : World) : Process :=
  {| randomValues := mathRandom world; randomCalls := 0; cloudId := 0;
     thisYear := getFullYear (now world) |}.

(** [main()]: the calls it makes up to its return or throw, and the error
    thrown.  A call that rejects is recorded, and its error is thrown. *)
Definition main (world : World) : list Event * option string :=
  match parseArgs (argv world) with
  | Throw e => ([], Some e)
  | Ok args =>
    let '(start, end_) := windowOf world args in
    let url := contributionsUrl (username args) start end_ in
    match fetch world url with
    | Throw e => ([EvFetch url], Some e)
    | Ok resp =>
      match fetchContributions resp with
      | Throw e => ([EvFetch url], Some e)
      | Ok map =>
        let days :=
          List.map (fun date => {| date := date;
                                   count := default 0 (map !! isoText date) |})
                   (dateRange start end_) in
        match renderCall days (username args) (duration args) (processOf world) with
        | None => ([EvFetch url], Some "TypeError")
        | Some (svg, _) =>
          let outPath := resolve (output args) in
          match mkdir world (dirname outPath) with
          | Some e => ([EvFetch url; EvMkdir (dirname outPath)], Some e)
          | None =>
            match writeFile world outPath svg with
            | Some e =>
              ([EvFetch url; EvMkdir (dirname outPath); EvWriteFile outPath svg],
               Some e)
            | None =>
              ([EvFetch url; EvMkdir (dirname outPath); EvWriteFile outPath svg;
                EvLog ("Generated: " +:+ output args)], None)
            end
          end
        end
      end
    end
  end.

(** [main().catch((e) => { console.error(e); process.exit(1) })]. *)
Definition program (world : World) : list Event :=
  match main world with
  | (events, Some e) => events ++ [EvError e; EvExit 1]
  | (events, None) => events
  end.
End Main.

(** The exit status of a run: that of [process.exit], or 0. *)
Definition exitCode (events : list Event) : Z :=
  foldl (fun c e => match e with EvExit n => n | _ => c end) 0 events.

Definition fetchCount (events : list Event) : nat :=
  length (List.filter (fun e => match e with EvFetch _ => true | _ => false end) events).

Definition zeroDays (start : Z) (n : nat) : list Day :=
  map (fun i => {| date := start + Z.of_nat i; count := 0 |}) (seq 0 n).

(** A window whose day [i] has the count [i + 1]. *)
Definition rampDays (start : Z) (n : nat) : list Day :=
  map (fun i => {| date := start + Z.of_nat i; count := Z.of_nat i + 1 |}) (seq 0 n).


(** ** Vocabulary of the properties *)

(** [Math.random] returns values in [0, 1). *)
Definition inUnit (random : nat -> Q) : Prop :=
  forall n : nat, (0 <= random n < 1)%Q.

(** Sample oracles. *)
Definition constantly (q : Q) : nat -> Q := fun _ => q.
Definition alternating : nat -> Q := fun n => if Nat.even n then 0%Q else (1 # 2)%Q.


(** The forward progress [week - dayOfWeek] of a waypoint, and its cell. *)
Definition progress (p : Waypoint) : Z := wp_w p - wp_d p.
Definition cell (p : Waypoint) : Z * Z := (wp_w p, wp_d p).
Definition keyOf (p : Waypoint) : string := key (wp_w p) (wp_d p).

Definition forwardOnly (wps : list Waypoint) : Prop :=
  forall (i : nat) (a b : Waypoint),
    wps !! i = Some a -> wps !! S i = Some b -> progress a <= progress b.

(** The last [n] elements of an array. *)
Definition lastN {A : Type} (n : nat) (l : list A) : list A :=
  drop (length l - n) l.

(** No waypoint shares its cell with one of the [historyLen] waypoints
    committed before it; the start point, index 0, is never in the buffer. *)
Definition noRecentRepeat (wps : list Waypoint) : Prop :=
  forall (i j : nat) (a b : Waypoint),
    (1 <= j)%nat -> (j < i)%nat -> (i <= j + historyLen)%nat ->
    wps !! i = Some a -> wps !! j = Some b -> cell a <> cell b.

(** Sample runs of the program: one without a user name, one whose page
    holds nothing to match; the host's text of a day is taken to be its
    number. *)
Definition emptyPage : Response :=
  {| ok := true; status := 200; text := "<html></html>"; textError := None |}.

(** The flag [--username] is there, but as the value of [--output]. *)
Definition worldNoUser : World :=
  {| argv := ["--output"; "--username"; "octocat"]; now := 1767225600000;
     fetch := fun _ => Ok emptyPage; mathRandom := alternating;
     mkdir := fun _ => None; writeFile := fun _ _ => None |}.

Definition worldEmptyPage : World :=
  {| argv := ["--username"; "octocat"]; now := 1767225600000;
     fetch := fun _ => Ok emptyPage; mathRandom := alternating;
     mkdir := fun _ => None; writeFile := fun _ _ => None |}.

(** The same surroundings with a disk that cannot be written. *)
Definition worldDiskFull : World :=
  {| argv := ["--username"; "octocat"]; now := 1767225600000;
     fetch := fun _ => Ok emptyPage; mathRandom := alternating;
     mkdir := fun _ => None; writeFile := fun _ _ => Some "ENOSPC" |}.

Definition octocat : Args :=
  {| username := "octocat"; output := "assets/cny_metrics.svg"; duration := FullYear |}.

Definition noMatch {A : Type} : string -> list A := fun _ => [].

(** Argument [i] is followed by a value that the loop of [parseArgs]
    takes for it: the value is not empty and the argument is a flag that
    accepts it. *)
Definition takesValue (args : list string) (i : nat) : bool :=
  match args !! i, args !! S i with
  | Some key, Some val =>
    negb (String.eqb val "") &&
    (String.eqb key "--username" || String.eqb key "--output" ||
     (String.eqb key "--duration" &&
      (String.eqb val "half-year" || String.eqb val "full-year")))
  | _, _ => false
  end.

(** Argument [i] is read as a key: it is the first one, or the argument
    before it was not a key that took it as its value. *)
Fixpoint readAsKey (args : list string) (i : nat) : bool :=
  match i with
  | O => true
  | S j => negb (readAsKey args j && takesValue args j)
  end.

(** Argument [i] gives a user name: it is read as a key, it is
    [--username], and a value that is not empty follows it. *)
Definition givesUsername (args : list string) (i : nat) : Prop :=
  readAsKey args i = true /\ args !! i = Some "--username" /\
  exists val : string, args !! S i = Some val /\ val <> "".

(** A part with what depends on [cloudId] left out. *)
Definition plain (p : Part) : Part :=
  match p with
  | Cloud _ _ _ _ _ _ => Static "cloud"
  | _ => p
  end.

Definition isCloud (p : Part) : bool :=
  match p with Cloud _ _ _ _ _ _ => true | _ => false end.




(** What the loop maintains: the last waypoint is the current cell and
    the waypoints only move forward. *)
Definition forwardInv (s : WalkState) : Prop :=
  exists (l : list Waypoint) (p : Waypoint),
    waypoints s = l ++ [p] /\ cell p = (currW s, currD s) /\
    forwardOnly (waypoints s).

(** What the loop maintains: the buffer is the keys of the last
    [historyLen] waypoints after the start point. *)
Definition historyInv (s : WalkState) : Prop :=
  exists (p0 : Waypoint) (t : list Waypoint),
    waypoints s = p0 :: t /\
    recentHistory s = keyOf <$> lastN historyLen t /\
    noRecentRepeat (p0 :: t).

(** A well-formed window: each day is the day after the one before it. *)
Fixpoint contiguousFrom (prev : Z) (days : list Day) : bool :=
  match days with
  | [] => true
  | d :: days' => (date d =? prev + 1) && contiguousFrom (date d) days'
  end.

Definition contiguous (days : list Day) : bool :=
  match days with
  | [] => true
  | d :: days' => contiguousFrom (date d) days'
  end.

(** ** Further vocabulary *)

(** The day series [main] builds from a window and the counts of its
    dates. *)
Definition windowDays (counts : Z -> Z) (start end_ : Z) : list Day :=
  (fun date => {| date := date; count := counts date |}) <$> dateRange start end_.

(** The look-back of a duration, in days. *)
Definition lookbackOf (duration : Duration) : Z :=
  match duration with FullYear => 365 | HalfYear => 180 end.

(** A text without a comma. *)
Fixpoint commaFree (s : string) : bool :=
  match s with
  | EmptyString => true
  | String c s' => negb (Ascii.eqb c ","%char) && commaFree s'
  end.

(** The grid distance of two waypoints: the larger of their week gap and
    their day gap. *)
Definition chebyshev (a b : Waypoint) : Z :=
  Z.max (Z.abs (wp_w b - wp_w a)) (Z.abs (wp_d b - wp_d a)).

(** Every waypoint stands in relation [R] to the next one. *)
Definition linked (R : Waypoint -> Waypoint -> Prop) (wps : list Waypoint) : Prop :=
  forall (i : nat) (a b : Waypoint),
    wps !! i = Some a -> wps !! S i = Some b -> R a b.

(** A waypoint inside the bounds the walk checks. *)
Definition inGrid (totalWeeks : Z) (a : Waypoint) : Prop :=
  0 <= wp_w a < totalWeeks /\ 0 <= wp_d a <= 6.

(** What the loop maintains about the path: the last waypoint is the
    current cell; neighbours in the list are neighbours on the grid; all
    waypoints after the first are in bounds; each waypoint is the point
    [getPt] gives for its cell; the current day is in range and the current
    week has moved by one per step at most; the buffer only holds keys of
    cells that are not ahead of the current one. *)
Definition pathInv (totalWeeks : Z) (barHeightMap : gmap string Q)
           (s : WalkState) : Prop :=
  exists (l : list Waypoint) (p : Waypoint),
    waypoints s = l ++ [p] /\ cell p = (currW s, currD s) /\
    linked (fun a b => chebyshev a b = 1) (waypoints s) /\
    (forall (i : nat) (a : Waypoint),
       (1 <= i)%nat -> waypoints s !! i = Some a -> inGrid totalWeeks a) /\
    (forall a : Waypoint,
       a ∈ waypoints s -> a = getPt barHeightMap (wp_w a) (wp_d a)) /\
    0 <= currD s <= 6 /\
    20 - Z.of_nat (length l) <= currW s <= 20 + Z.of_nat (length l) /\
    0 <= currW s /\
    forall k : string, k ∈ recentHistory s ->
      exists w d : Z, k = key w d /\ w - d <= currW s - currD s.

(** The position of a colour in a palette (its length when absent). *)
Fixpoint indexOf (c : string) (l : list string) : nat :=
  match l with
  | [] => 0
  | x :: l' => if String.eqb x c then 0 else S (indexOf c l')
  end.

(** The intensity level of a count: the position in [colors] of the colour
    [levelColor] returns for it. *)
Definition levelOf (days : list Day) (count : Z) : nat :=
  indexOf (levelColor (quantileLevels days) count) colors.

(** A run of [days]: a stretch of consecutive days that all have a
    positive count; a trailing run is one that ends with the last day. *)
Definition isRun (days run : list Day) : Prop :=
  exists pre post : list Day,
    days = pre ++ run ++ post /\ Forall (fun d => 0 < count d) run.

Definition isTrailingRun (days run : list Day) : Prop :=
  exists pre : list Day,
    days = pre ++ run /\ Forall (fun d => 0 < count d) run.

(** The attributes of one [<td>] tag: a later attribute of the same name
    replaces an earlier one. *)
Definition attrsOf (matchAttr : string -> list (string * string)) (td : string)
  : gmap string string :=
  foldl (fun a kv => <[kv.1 := kv.2]> a) ∅ (matchAttr td).

Definition isWrite (e : Event) : bool :=
  match e with EvWriteFile _ _ => true | _ => false end.

(** A page with one cell and one tool-tip, as the matchers would find
    them. *)
Definition oneTd : string -> list string := fun _ => ["<td>"].
Definition oneAttr : string -> list (string * string) :=
  fun _ => [("id", "day-1"); ("data-date", "2026-01-01")].
Definition oneTooltip : string -> list (string * string) :=
  fun _ => [("day-1", "3 contributions on January 1st.")].
Definition countThree : string -> option Z := fun _ => Some 3.

(** The bar of a day, as the loop over [sorted] pushes it. *)
Definition barOf (levels : Levels) (totalWeeks gridStart : Z) (d : Day) : Part :=
  let dow := dowOf d in
  let week := weekOf totalWeeks gridStart d in
  Bar (isoX week dow) (isoY week dow) (barHeight (q_max levels) d)
      (levelColor levels (count d))
      (inject_Z (week * 7 + dow) * (8 # 100))%Q.

(** The painting order: an earlier week first, and within a week an
    earlier day of the week first. *)
Definition paintsBefore (totalWeeks gridStart : Z) (a b : Day) : Prop :=
  weekOf totalWeeks gridStart a < weekOf totalWeeks gridStart b \/
  (weekOf totalWeeks gridStart a = weekOf totalWeeks gridStart b /\
   dowOf a <= dowOf b).

Definition hasCount (d : Day) : bool := 0 <? count d.

Definition isFloor (p : Part) : bool :=
  match p with FloorTile _ _ => true | _ => false end.

Definition isBar (p : Part) : bool :=
  match p with Bar _ _ _ _ _ => true | _ => false end.

(** ** Colour arithmetic *)

(** Texts are taken to be made of one-byte characters. *)

(** The value of a digit in base 16, in either case. *)
Definition hexDigit (c : ascii) : option Z :=
  let n := Z.of_nat (nat_of_ascii c) in
  if (48 <=? n) && (n <=? 57) then Some (n - 48)
  else if (97 <=? n) && (n <=? 102) then Some (n - 87)
  else if (65 <=? n) && (n <=? 70) then Some (n - 55)
  else None.

(** White space that [parseInt] skips: tab, line feed, vertical tab, form
    feed, carriage return, space and no-break space. *)
Definition isWhite (c : ascii) : bool :=
  let n := Z.of_nat (nat_of_ascii c) in
  ((9 <=? n) && (n <=? 13)) || (n =? 32) || (n =? 160).

Fixpoint trimStart (s : string) : string :=
  match s with
  | EmptyString => EmptyString
  | String c s' => if isWhite c then trimStart s' else s
  end.

(** The value of the longest run of digits at the start of a text. *)
Fixpoint digitsValue (acc : Z) (s : string) : Z :=
  match s with
  | EmptyString => acc
  | String c s' =>
    match hexDigit c with
    | Some v => digitsValue (acc * 16 + v) s'
    | None => acc
    end
  end.

Definition startsWith (c : ascii) (s : string) : bool :=
  match s with String c' _ => Ascii.eqb c' c | EmptyString => false end.

Definition dropFirst (s : string) : string :=
  match s with String _ s' => s' | EmptyString => EmptyString end.

(** [Number.parseInt(s, 16)]: white space, a sign and a prefix [0x] are
    skipped, then the digits are read as far as they go; [None] is [NaN],
    returned when there is no digit.  The number read is kept exact, as it
    is for the texts of up to thirteen digits. *)
Definition parseInt16 (s : string) : option Z :=
  let s := trimStart s in
  let sign := if startsWith "-" s then -1 else 1 in
  let s := if startsWith "-" s || startsWith "+" s then dropFirst s else s in
  let s :=
    if startsWith "0" s && (startsWith "x" (dropFirst s) || startsWith "X" (dropFirst s))
    then dropFirst (dropFirst s) else s in
  match s with
  | EmptyString => None
  | String c _ =>
    match hexDigit c with
    | Some _ => Some (sign * digitsValue 0 s)
    | None => None
    end
  end.

(** [(n >> shift) & 255]; the bit operations read [NaN] as 0. *)
Definition channel (n : option Z) (shift : Z) : Z :=
  match n with
  | Some v => Z.land (Z.shiftr v shift) 255
  | None => 0
  end.

Definition hexChar (d : Z) : ascii :=
  ascii_of_nat (Z.to_nat (if d <? 10 then d + 48 else d + 87)).

(** The digits of a number of at most [fuel] digits, in front of [acc]. *)
Fixpoint hexDigitsOf (fuel : nat) (v : Z) (acc : string) : string :=
  match fuel with
  | O => acc
  | S fuel' =>
    let acc' := String (hexChar (v mod 16)) acc in
    if v <? 16 then acc' else hexDigitsOf fuel' (v / 16) acc'
  end.

(** [v.toString(16)] for an integer [v]: it has no more digits than [v] has
    bits. *)
Definition toString16 (v : Z) : string :=
  if v <? 0 then String "-" (hexDigitsOf (S (Z.to_nat (Z.log2 (- v)))) (- v) "")
  else hexDigitsOf (S (Z.to_nat (Z.log2 v))) v "".

(** [s.padStart(2, "0")]. *)
Definition padStart2 (s : string) : string :=
  match s with
  | EmptyString => "00"
  | String c EmptyString => String "0" s
  | _ => s
  end.

(** The text [`#${[r, g, b].map(...).join("")}`]. *)
Definition colourText (r g b : Z) : string :=
  "#" +:+ padStart2 (toString16 r) +:+ padStart2 (toString16 g)
      +:+ padStart2 (toString16 b).

(** [Math.max(0, Math.min(255, Math.round(ch * slope)))], the product being
    that of binary64 numbers. *)
Definition scale (slope : Q) (ch : Z) : Z :=
  Z.max 0 (Z.min 255 (mathRound (b64 (inject_Z ch * b64 slope)))).

Definition dim (hex : string) (slope : Q) : string :=
  let n := parseInt16 (dropFirst hex) in
  let r := scale slope (channel n 16) in
  let g := scale slope (channel n 8) in
  let b := scale slope (channel n 0) in
  colourText r g b.

(** [Math.min(255, Math.round(ch + (255 - ch) * amount))], product and sum
    being those of binary64 numbers. *)
Definition blend (amount : Q) (ch : Z) : Z :=
  Z.min 255 (mathRound (b64 (inject_Z ch + b64 (inject_Z (255 - ch) * b64 amount)))).

Definition highlight (hex : string) (amount : Q) : string :=
  let n := parseInt16 (dropFirst hex) in
  let r := blend amount (channel n 16) in
  let g := blend amount (channel n 8) in
  let b := blend amount (channel n 0) in
  colourText r g b.

(** The three channels [dim] and [highlight] read from a colour. *)
Definition channelsOf (hex : string) : Z * Z * Z :=
  let n := parseInt16 (dropFirst hex) in
  (channel n 16, channel n 8, channel n 0).

Definition isLowerHex (c : ascii) : bool :=
  let n := Z.of_nat (nat_of_ascii c) in
  ((48 <=? n) && (n <=? 57)) || ((97 <=? n) && (n <=? 102)).

Fixpoint allLowerHex (s : string) : bool :=
  match s with
  | EmptyString => true
  | String c s' => isLowerHex c && allLowerHex s'
  end.

(** A colour as the palette writes it: [#] and six digits in lower case. *)
Definition wellFormedColour (s : string) : bool :=
  startsWith "#" s && (String.length (dropFirst s) =? 6)%nat
  && allLowerHex (dropFirst s).

(** ** The faces of a bar *)

(** The colours of the shapes of a bar of colour [c]: the fill of the top
    face, of the left (lit) face and of the right (shadow) face, the
    colour of the top edges, and the strokes of the right and left
    faces. *)
Record Faces := {
  cTop : string;
  cLeft : string;
  cRight : string;
  cTopEdge : string;
  rightStroke : string;
  leftStroke : string
}.

Definition facesOf (c : string) : Faces :=
  {| cTop := highlight c (25 # 100);
     cLeft := dim c (7 # 10);
     cRight := dim c (4 # 10);
     cTopEdge := highlight c (45 # 100);
     rightStroke := dim c (25 # 100);
     leftStroke := dim c (5 # 10) |}.

(** No channel read from [a] is above the same channel read from [b]. *)
Definition noBrighter (a b : string) : Prop :=
  match channelsOf a, channelsOf b with
  | (r, g, b0), (r', g', b0') => r <= r' /\ g <= g' /\ b0 <= b0'
  end.

(** * Properties *)

(** ** Binary64 rounding *)

Lemma pow2_pos (e : Z) : (0 < 2 ^ e)%Q.
Proof. apply Qpower_0_lt. reflexivity. Qed.

Lemma pow2_add (a b : Z) : (2 ^ (a + b) == 2 ^ a * 2 ^ b)%Q.
Proof. apply Qpower_plus. discriminate. Qed.

Lemma pow2_le (a b : Z) : a <= b -> (2 ^ a <= 2 ^ b)%Q.
Proof. intros H. apply Qpower_le_compat_l; [exact H | discriminate]. Qed.

Lemma pow2_lt (a b : Z) : a < b -> (2 ^ a < 2 ^ b)%Q.
Proof. intros H. apply Qpower_lt_compat_l; [exact H | reflexivity]. Qed.

Lemma pow2_Z (n : Z) : 0 <= n -> (2 ^ n == inject_Z (2 ^ n))%Q.
Proof. intros H. rewrite Zpower_Qpower by exact H. reflexivity. Qed.

Lemma pow2_succ (e : Z) : (2 ^ (e + 1) == 2 * 2 ^ e)%Q.
Proof. rewrite pow2_add. change (2 ^ 1)%Q with 2%Q. ring. Qed.

Lemma roundHalfEven_comp (x y : Q) : (x == y)%Q -> roundHalfEven x = roundHalfEven y.
Proof.
  intros H. unfold roundHalfEven. rewrite (Qfloor_comp _ _ H).
  assert (E : (x - inject_Z (Qfloor y) ?= 1 # 2)%Q = (y - inject_Z (Qfloor y) ?= 1 # 2)%Q)
    by (rewrite H; reflexivity).
  rewrite E. reflexivity.
Qed.

Lemma roundHalfEven_bounds (x : Q) :
  (x - (1 # 2) <= inject_Z (roundHalfEven x) <= x + (1 # 2))%Q.
Proof.
  unfold roundHalfEven.
  pose proof (Qfloor_le x) as Hl. pose proof (Qlt_floor x) as Hu.
  rewrite inject_Z_plus in Hu. change (inject_Z 1) with 1%Q in Hu.
  destruct (x - inject_Z (Qfloor x) ?= 1 # 2)%Q eqn:E.
  - apply (proj2 (Qeq_alt _ _)) in E.
    destruct (Z.even (Qfloor x)); [| rewrite inject_Z_plus; change (inject_Z 1) with 1%Q]; lra.
  - apply (proj2 (Qlt_alt _ _)) in E. lra.
  - apply (proj2 (Qgt_alt _ _)) in E. rewrite inject_Z_plus. change (inject_Z 1) with 1%Q. lra.
Qed.

Lemma roundHalfEven_Z (n : Z) : roundHalfEven (inject_Z n) = n.
Proof.
  unfold roundHalfEven. rewrite Qfloor_Z.
  assert (E : (inject_Z n - inject_Z n ?= 1 # 2)%Q = Lt).
  { apply (proj1 (Qlt_alt _ _)). generalize (inject_Z n). intros q. lra. }
  rewrite E. reflexivity.
Qed.

Lemma roundHalfEven_mono (x y : Q) : (x <= y)%Q -> roundHalfEven x <= roundHalfEven y.
Proof.
  intros H.
  destruct (Z.le_gt_cases (roundHalfEven x) (roundHalfEven y)) as [Hle | Hgt]; [exact Hle |].
  exfalso.
  pose proof (roundHalfEven_bounds x) as [_ Hx]. pose proof (roundHalfEven_bounds y) as [Hy _].
  assert (Hz : (inject_Z (roundHalfEven y) + 1 <= inject_Z (roundHalfEven x))%Q).
  { change 1%Q with (inject_Z 1). rewrite <- inject_Z_plus, <- Zle_Qle. lia. }
  assert (Exy : (x == y)%Q) by lra.
  rewrite (roundHalfEven_comp _ _ Exy) in Hgt. lia.
Qed.

Lemma exponent_spec (x : Q) :
  (0 < x)%Q -> (2 ^ exponent x <= x < 2 ^ (exponent x + 1))%Q.
Proof.
  intros Hx. unfold exponent.
  destruct x as [p q]. cbn [Qnum Qden].
  assert (Hp : 0 < p) by (unfold Qlt in Hx; simpl in Hx; lia).
  set (lp := Z.log2 p). set (lq := Z.log2 (Zpos q)).
  pose proof (Z.log2_spec p Hp) as [Hp1 Hp2]. fold lp in Hp1, Hp2.
  pose proof (Z.log2_spec (Zpos q) ltac:(lia)) as [Hq1 Hq2]. fold lq in Hq1, Hq2.
  pose proof (Z.log2_nonneg p) as Hlp. fold lp in Hlp.
  pose proof (Z.log2_nonneg (Zpos q)) as Hlq. fold lq in Hlq.
  assert (Ex : (p # q == inject_Z p / inject_Z (Zpos q))%Q) by (apply Qmake_Qdiv).
  assert (Qq : (0 < inject_Z (Zpos q))%Q) by reflexivity.
  assert (Bp : (2 ^ lp <= inject_Z p)%Q /\ (inject_Z p < 2 * 2 ^ lp)%Q).
  { rewrite (pow2_Z lp Hlp). split.
    - rewrite <- Zle_Qle. exact Hp1.
    - change 2%Q with (inject_Z 2). rewrite <- inject_Z_mult, <- Zlt_Qlt.
      replace (Z.succ lp) with (lp + 1) in Hp2 by lia.
      rewrite Z.pow_add_r in Hp2 by lia. lia. }
  assert (Bq : (2 ^ lq <= inject_Z (Zpos q))%Q /\ (inject_Z (Zpos q) < 2 * 2 ^ lq)%Q).
  { rewrite (pow2_Z lq Hlq). split.
    - rewrite <- Zle_Qle. exact Hq1.
    - change 2%Q with (inject_Z 2). rewrite <- inject_Z_mult, <- Zlt_Qlt.
      replace (Z.succ lq) with (lq + 1) in Hq2 by lia.
      rewrite Z.pow_add_r in Hq2 by lia. lia. }
  pose proof (pow2_pos lp) as Plp. pose proof (pow2_pos lq) as Plq.
  pose proof (pow2_pos (lp - lq)) as Pe.
  assert (Ee : (2 ^ (lp - lq) * 2 ^ lq == 2 ^ lp)%Q).
  { rewrite <- pow2_add. replace (lp - lq + lq) with lp by lia. reflexivity. }
  (* x * q = p *)
  assert (Exq : ((p # q) * inject_Z (Zpos q) == inject_Z p)%Q).
  { rewrite Ex. field. discriminate. }
  set (x := (p # q)%Q) in *. set (dq := inject_Z (Zpos q)) in *. set (np := inject_Z p) in *.
  set (E := (2 ^ (lp - lq))%Q) in *. set (A := (2 ^ lp)%Q) in *. set (B := (2 ^ lq)%Q) in *.
  destruct Bp as [Bp1 Bp2]. destruct Bq as [Bq1 Bq2].
  assert (Hup : (x < 2 * E)%Q).
  { apply Qnot_le_lt. intros Hc. nra. }
  assert (Hlo : (E < 2 * x)%Q).
  { apply Qnot_le_lt. intros Hc. nra. }
  destruct (Qle_bool E x) eqn:Eb.
  - apply Qle_bool_iff in Eb. split; [exact Eb |].
    rewrite pow2_succ. fold E. exact Hup.
  - assert (Hlt : (x < E)%Q).
    { apply Qnot_le_lt. intros Hc. apply Qle_bool_iff in Hc. congruence. }
    replace (lp - lq - 1 + 1) with (lp - lq) by lia. fold E.
    assert (Eh : (2 * 2 ^ (lp - lq - 1) == E)%Q).
    { rewrite <- pow2_succ. replace (lp - lq - 1 + 1) with (lp - lq) by lia. reflexivity. }
    split; [| exact Hlt]. lra.
Qed.

Lemma exponent_unique (x : Q) (e : Z) :
  (2 ^ e <= x < 2 ^ (e + 1))%Q -> exponent x = e.
Proof.
  intros [Hl Hu].
  assert (Hx : (0 < x)%Q) by (pose proof (pow2_pos e); lra).
  pose proof (exponent_spec x Hx) as [Hl' Hu'].
  destruct (Z.lt_trichotomy (exponent x) e) as [H | [H | H]]; [| exact H |]; exfalso.
  - pose proof (pow2_le (exponent x + 1) e ltac:(lia)). lra.
  - pose proof (pow2_le (e + 1) (exponent x) ltac:(lia)). lra.
Qed.

Lemma exponent_comp (x y : Q) : (0 < x)%Q -> (x == y)%Q -> exponent x = exponent y.
Proof.
  intros Hx E. symmetry. apply exponent_unique. rewrite <- E. apply exponent_spec. exact Hx.
Qed.

Lemma exponent_mono (x y : Q) : (0 < x)%Q -> (x <= y)%Q -> exponent x <= exponent y.
Proof.
  intros Hx Hxy.
  pose proof (exponent_spec x Hx) as [Hl _].
  pose proof (exponent_spec y ltac:(lra)) as [_ Hu].
  destruct (Z.le_gt_cases (exponent x) (exponent y)) as [H | H]; [exact H | exfalso].
  pose proof (pow2_le (exponent y + 1) (exponent x) ltac:(lia)). lra.
Qed.

(** The significand of a positive number lies between [2 ^ 52] and [2 ^ 53]. *)
Lemma significand_range (x : Q) :
  (0 < x)%Q ->
  (inject_Z (2 ^ 52) <= x / 2 ^ (exponent x - 52) < inject_Z (2 ^ 53))%Q.
Proof.
  intros Hx. pose proof (exponent_spec x Hx) as [Hl Hu].
  pose proof (pow2_pos (exponent x - 52)) as Pu.
  rewrite <- !pow2_Z by lia.
  assert (E1 : (2 ^ exponent x == 2 ^ 52 * 2 ^ (exponent x - 52))%Q).
  { rewrite <- pow2_add. replace (52 + (exponent x - 52)) with (exponent x) by lia. reflexivity. }
  assert (E2 : (2 ^ (exponent x + 1) == 2 ^ 53 * 2 ^ (exponent x - 52))%Q).
  { rewrite <- pow2_add. replace (53 + (exponent x - 52)) with (exponent x + 1) by lia.
    reflexivity. }
  split.
  - apply Qle_shift_div_l; [exact Pu |]. rewrite <- E1. exact Hl.
  - apply Qlt_shift_div_r; [exact Pu |]. rewrite <- E2. exact Hu.
Qed.

Lemma round53_range (x : Q) :
  (0 < x)%Q -> (2 ^ exponent x <= round53 x <= 2 ^ (exponent x + 1))%Q.
Proof.
  intros Hx. unfold round53.
  pose proof (significand_range x Hx) as [Hl Hu].
  pose proof (pow2_pos (exponent x - 52)) as Pu.
  set (m := (x / 2 ^ (exponent x - 52))%Q) in *.
  assert (R1 : 2 ^ 52 <= roundHalfEven m).
  { rewrite <- (roundHalfEven_Z (2 ^ 52)). apply roundHalfEven_mono. exact Hl. }
  assert (R2 : roundHalfEven m <= 2 ^ 53).
  { rewrite <- (roundHalfEven_Z (2 ^ 53)). apply roundHalfEven_mono. lra. }
  assert (E1 : (2 ^ exponent x == inject_Z (2 ^ 52) * 2 ^ (exponent x - 52))%Q).
  { rewrite <- pow2_Z by lia. rewrite <- pow2_add.
    replace (52 + (exponent x - 52)) with (exponent x) by lia. reflexivity. }
  assert (E2 : (2 ^ (exponent x + 1) == inject_Z (2 ^ 53) * 2 ^ (exponent x - 52))%Q).
  { rewrite <- pow2_Z by lia. rewrite <- pow2_add.
    replace (53 + (exponent x - 52)) with (exponent x + 1) by lia. reflexivity. }
  rewrite E1, E2. rewrite Zle_Qle in R1, R2.
  split; apply Qmult_le_compat_r; lra.
Qed.

Lemma round53_mono (x y : Q) : (0 < x)%Q -> (x <= y)%Q -> (round53 x <= round53 y)%Q.
Proof.
  intros Hx Hxy. assert (Hy : (0 < y)%Q) by lra.
  pose proof (exponent_mono x y Hx Hxy) as He.
  destruct (Z.eq_dec (exponent x) (exponent y)) as [E | Hne].
  - unfold round53. rewrite E.
    pose proof (pow2_pos (exponent y - 52)) as Pu.
    apply Qmult_le_compat_r; [| lra].
    rewrite <- Zle_Qle. apply roundHalfEven_mono.
    apply Qmult_le_compat_r; [exact Hxy |]. apply Qlt_le_weak, Qinv_lt_0_compat. exact Pu.
  - pose proof (round53_range x Hx) as [_ Hu]. pose proof (round53_range y Hy) as [Hl _].
    pose proof (pow2_le (exponent x + 1) (exponent y) ltac:(lia)). lra.
Qed.

Lemma round53_pos (x : Q) : (0 < x)%Q -> (0 < round53 x)%Q.
Proof.
  intros Hx. pose proof (round53_range x Hx) as [Hl _].
  pose proof (pow2_pos (exponent x)). lra.
Qed.

Lemma round53_comp (x y : Q) : (0 < x)%Q -> (x == y)%Q -> round53 x = round53 y.
Proof.
  intros Hx E. unfold round53. rewrite (exponent_comp x y Hx E).
  rewrite (roundHalfEven_comp (x / 2 ^ (exponent y - 52)) (y / 2 ^ (exponent y - 52))).
  - reflexivity.
  - rewrite E. reflexivity.
Qed.

(** The distance to the rounded number is half a unit in the last place at
    most. *)
Lemma round53_error (x : Q) :
  (0 < x)%Q ->
  (x - 2 ^ (exponent x - 53) <= round53 x <= x + 2 ^ (exponent x - 53))%Q.
Proof.
  intros Hx. unfold round53.
  pose proof (pow2_pos (exponent x - 52)) as Pu.
  pose proof (roundHalfEven_bounds (x / 2 ^ (exponent x - 52))) as [Hl Hu].
  assert (Eh : (2 * 2 ^ (exponent x - 53) == 2 ^ (exponent x - 52))%Q).
  { rewrite <- pow2_succ. replace (exponent x - 53 + 1) with (exponent x - 52) by lia.
    reflexivity. }
  set (u := (2 ^ (exponent x - 52))%Q) in *. set (h := (2 ^ (exponent x - 53))%Q) in *.
  set (r := inject_Z (roundHalfEven (x / u))) in *.
  assert (Em : (x / u * u == x)%Q) by (field; lra).
  split.
  - assert ((x / u - (1 # 2)) * u <= r * u)%Q by (apply Qmult_le_compat_r; lra). lra.
  - assert (r * u <= (x / u + (1 # 2)) * u)%Q by (apply Qmult_le_compat_r; lra). lra.
Qed.

Lemma b64_comp (x y : Q) : (x == y)%Q -> b64 x = b64 y.
Proof.
  intros E. unfold b64.
  assert (Ec : (x ?= 0)%Q = (y ?= 0)%Q) by (rewrite E; reflexivity).
  rewrite <- Ec. destruct (x ?= 0)%Q eqn:C; [reflexivity | |].
  - apply (proj2 (Qlt_alt _ _)) in C. f_equal. apply round53_comp; [lra | rewrite E; reflexivity].
  - apply (proj2 (Qgt_alt _ _)) in C. apply round53_comp; [lra | exact E].
Qed.

Lemma b64_sign (x : Q) :
  ((0 < x)%Q -> (0 < b64 x)%Q) /\ ((x < 0)%Q -> (b64 x < 0)%Q) /\
  ((x == 0)%Q -> b64 x = 0%Q).
Proof.
  unfold b64. destruct (x ?= 0)%Q eqn:C.
  - apply (proj2 (Qeq_alt _ _)) in C. repeat split; intros; try lra; reflexivity.
  - apply (proj2 (Qlt_alt _ _)) in C. pose proof (round53_pos (- x) ltac:(lra)).
    repeat split; intros; lra.
  - apply (proj2 (Qgt_alt _ _)) in C. pose proof (round53_pos x ltac:(lra)).
    repeat split; intros; lra.
Qed.

(** Rounding keeps the order. *)
Lemma b64_mono (x y : Q) : (x <= y)%Q -> (b64 x <= b64 y)%Q.
Proof.
  intros H.
  destruct (b64_sign x) as (Px & Nx & Zx). destruct (b64_sign y) as (Py & Ny & Zy).
  destruct (Qlt_le_dec 0 x) as [Hx | Hx].
  - assert (Hy : (0 < y)%Q) by lra.
    unfold b64.
    assert (Cx : (x ?= 0)%Q = Gt) by (apply (proj1 (Qgt_alt _ _)); exact Hx).
    assert (Cy : (y ?= 0)%Q = Gt) by (apply (proj1 (Qgt_alt _ _)); exact Hy).
    rewrite Cx, Cy. apply round53_mono; assumption.
  - destruct (Qlt_le_dec y 0) as [Hy | Hy].
    + assert (Hx' : (x < 0)%Q) by lra.
      unfold b64.
      assert (Cx : (x ?= 0)%Q = Lt) by (apply (proj1 (Qlt_alt _ _)); exact Hx').
      assert (Cy : (y ?= 0)%Q = Lt) by (apply (proj1 (Qlt_alt _ _)); exact Hy).
      rewrite Cx, Cy.
      pose proof (round53_mono (- y) (- x) ltac:(lra) ltac:(lra)). lra.
    + assert (Bx : (b64 x <= 0)%Q).
      { destruct (Qlt_le_dec x 0) as [Hn | Hn]; [specialize (Nx Hn); lra |].
        rewrite Zx by lra. lra. }
      assert (By : (0 <= b64 y)%Q).
      { destruct (Qlt_le_dec 0 y) as [Hp | Hp]; [specialize (Py Hp); lra |].
        rewrite Zy by lra. lra. }
      lra.
Qed.

Lemma round53_exact (x : Q) (k : Z) :
  (0 < x)%Q -> (x / 2 ^ (exponent x - 52) == inject_Z k)%Q -> (round53 x == x)%Q.
Proof.
  intros Hx E. unfold round53.
  pose proof (pow2_pos (exponent x - 52)) as Pu.
  rewrite (roundHalfEven_comp _ _ E), roundHalfEven_Z, <- E. field. lra.
Qed.

(** The integers up to [2 ^ 53] are binary64 numbers. *)
Lemma round53_Z (n : Z) : 0 < n <= 2 ^ 53 -> (round53 (inject_Z n) == inject_Z n)%Q.
Proof.
  intros Hn.
  assert (Hx : (0 < inject_Z n)%Q) by (change 0%Q with (inject_Z 0); rewrite <- Zlt_Qlt; lia).
  pose proof (exponent_spec _ Hx) as [Hl Hu].
  set (e := exponent (inject_Z n)) in *.
  assert (Hn' : (inject_Z n <= 2 ^ 53)%Q) by (rewrite pow2_Z by lia; rewrite <- Zle_Qle; lia).
  assert (He : e <= 53).
  { destruct (Z.le_gt_cases e 53) as [H | H]; [exact H | exfalso].
    pose proof (pow2_le 54 e ltac:(lia)) as Hp.
    pose proof (pow2_lt 53 54 ltac:(lia)). lra. }
  pose proof (pow2_pos (e - 52)) as Pu.
  destruct (Z.le_gt_cases e 52) as [H52 | H53].
  - apply (round53_exact _ (n * 2 ^ (52 - e)) Hx). fold e.
    rewrite inject_Z_mult, <- pow2_Z by lia.
    assert (Eu : (2 ^ (52 - e) * 2 ^ (e - 52) == 1)%Q).
    { rewrite <- pow2_add. replace (52 - e + (e - 52)) with 0 by lia. reflexivity. }
    apply Qmult_inj_r with (z := (2 ^ (e - 52))%Q); [lra |].
    rewrite <- Qmult_assoc, Eu. field. lra.
  - assert (E53 : e = 53) by lia.
    assert (En : (inject_Z n == 2 ^ 53)%Q).
    { rewrite E53 in Hl. lra. }
    apply (round53_exact _ (2 ^ 52) Hx). fold e. rewrite E53.
    rewrite En. rewrite <- pow2_Z by lia.
    change (2 ^ (53 - 52))%Q with 2%Q.
    assert (E2 : (2 ^ 53 == 2 * 2 ^ 52)%Q) by (rewrite <- pow2_succ; reflexivity).
    rewrite E2. field.
Qed.

Lemma b64_Z (n : Z) : - 2 ^ 53 <= n <= 2 ^ 53 -> (b64 (inject_Z n) == inject_Z n)%Q.
Proof.
  intros Hn. unfold b64.
  destruct (inject_Z n ?= 0)%Q eqn:C.
  - apply (proj2 (Qeq_alt _ _)) in C. rewrite C. reflexivity.
  - apply (proj2 (Qlt_alt _ _)) in C. change 0%Q with (inject_Z 0) in C. rewrite <- Zlt_Qlt in C.
    rewrite <- inject_Z_opp, round53_Z by lia. rewrite inject_Z_opp. ring.
  - apply (proj2 (Qgt_alt _ _)) in C. change 0%Q with (inject_Z 0) in C. rewrite <- Zlt_Qlt in C.
    apply round53_Z. lia.
Qed.

Lemma b64_0 : b64 0 = 0%Q.
Proof. reflexivity. Qed.

Lemma b64_nonneg (x : Q) : (0 <= x)%Q -> (0 <= b64 x)%Q.
Proof. intros H. pose proof (b64_mono 0 x H) as M. rewrite b64_0 in M. exact M. Qed.

Lemma b64_nonpos (x : Q) : (x <= 0)%Q -> (b64 x <= 0)%Q.
Proof. intros H. pose proof (b64_mono x 0 H) as M. rewrite b64_0 in M. exact M. Qed.

(** Rounding changes a positive number by one part in [2 ^ 53] at most. *)
Lemma b64_error (x : Q) :
  (0 <= x)%Q -> (x * (1 - 2 ^ (-53)) <= b64 x <= x * (1 + 2 ^ (-53)))%Q.
Proof.
  intros Hx. destruct (Qlt_le_dec 0 x) as [Hp | Hz].
  - unfold b64. assert (C : (x ?= 0)%Q = Gt) by (apply (proj1 (Qgt_alt _ _)); exact Hp). rewrite C.
    pose proof (round53_error x Hp) as [Hl Hu].
    pose proof (exponent_spec x Hp) as [He _].
    assert (E : (2 ^ (exponent x - 53) == 2 ^ exponent x * 2 ^ (-53))%Q).
    { rewrite <- pow2_add. replace (exponent x + -53) with (exponent x - 53) by lia.
      reflexivity. }
    pose proof (pow2_pos (-53)) as P53.
    set (h := (2 ^ (exponent x - 53))%Q) in *. set (a := (2 ^ exponent x)%Q) in *.
    set (c := (2 ^ (-53))%Q) in *.
    assert (h <= x * c)%Q by (rewrite E; apply Qmult_le_compat_r; lra).
    lra.
  - assert (E0 : (x == 0)%Q) by lra. rewrite (b64_comp _ _ E0), b64_0. rewrite E0. lra.
Qed.

Example b64_values :
  (b64 (7 # 10) == 6305039478318694 # 9007199254740992)%Q /\
  Qfloor (b64 (180 * b64 (35 # 100))) = 62 /\
  Qfloor (b64 (45 * b64 (7 # 10)) + (1 # 2)) = 31 /\
  Qfloor (b64 (3 # 40) * 100 + (1 # 2)) = 7.
Proof. vm_compute. repeat split; reflexivity. Qed.

(** ** The definitions at work *)

Example key_of_cell : key 20 5 = "20,5" /\ key (-1) 6 = "-1,6".
Proof. split; reflexivity. Qed.

Example align_to_sunday : alignSunday 19725 = 19722 /\ alignSunday 19722 = 19722.
Proof. split; reflexivity. Qed.

Example range_of_a_week : dateRange 19722 19728 = [19722; 19723; 19724; 19725; 19726; 19727; 19728].
Proof. reflexivity. Qed.

Example scenario_totalWeeks : totalWeeksOf (scenarioDays 19722) = Some 52.
Proof. vm_compute. reflexivity. Qed.

(** A flag taken as the value of the flag before it is not read as a flag. *)
Example flag_taken_as_value :
  parseArgs ["--output"; "--username"; "octocat"] = Throw "Missing --username".
Proof. reflexivity. Qed.

Example flag_without_value : parseArgs ["--username"] = Throw "Missing --username".
Proof. reflexivity. Qed.

Example half_year_run :
  parseArgs ["--username"; "octocat"; "--duration"; "half-year"]
  = Ok {| username := "octocat"; output := "assets/cny_metrics.svg";
          duration := HalfYear |}.
Proof. reflexivity. Qed.

(** With every draw 0 the first step from (20, 5) goes one week on. *)
Example first_step_at_zero :
  (take 2 <$> waypointsOf (constantly 0) (scenarioDays 19722))
  = Some [ {| wp_x := 1730 # 4; wp_y := 425 # 2; wp_w := 20; wp_d := 5 |};
           {| wp_x := 1782 # 4; wp_y := 438 # 2; wp_w := 21; wp_d := 5 |} ].
Proof. vm_compute. reflexivity. Qed.

(** Products and quotients are those of binary64 numbers: [180 * 0.35]
    is just below 63, [3 / 40] just below 0.075 and [45 * 0.7] just below
    31.5. *)
Example binary64_at_work :
  quantiles (positiveVals (rampDays 19722 181)) = (Some 63, Some 118, Some 159) /\
  s_average (stats ({| date := 19722; count := 3 |} :: zeroDays 19723 39)) = (7 # 100)%Q /\
  Qfloor (b64 (45 * b64 (7 # 10)) + (1 # 2)) = 31.
Proof. vm_compute. repeat split; reflexivity. Qed.

(** ** Arithmetic of the helpers *)

Lemma Qfloor_half (n : Z) : Qfloor (inject_Z n + (1 # 2)) = n.
Proof.
  unfold Qfloor, inject_Z, Qplus; simpl.
  rewrite Z.mul_1_r.
  replace (n * 2 + 1) with (1 + n * 2) by lia.
  rewrite Z.div_add by lia. reflexivity.
Qed.

Lemma mathFloor_div (n m : Z) : mathFloor (inject_Z n / inject_Z m) = n / m.
Proof. unfold mathFloor. symmetry. apply Zdiv_Qdiv. Qed.

Lemma diffDays_sub (a b : Z) : diffDays a b = a - b.
Proof.
  unfold diffDays, mathRound, toDate.
  rewrite <- (Qfloor_half (a - b)).
  apply Qfloor_comp.
  apply Qplus_comp; [| reflexivity].
  replace (a * msPerDay - b * msPerDay) with ((a - b) * msPerDay) by lia.
  rewrite inject_Z_mult. unfold msPerDay. field.
Qed.

Lemma getUTCDay_toDate (n : Z) : getUTCDay (toDate n) = (n + 4) mod 7.
Proof.
  unfold getUTCDay, toDate, msPerDay. rewrite Z.div_mul by lia. reflexivity.
Qed.

Lemma iso_toDate (n : Z) : iso (toDate n) = n.
Proof. unfold iso, toDate, msPerDay. apply Z.div_mul. lia. Qed.

Lemma alignSunday_sub (n : Z) : alignSunday n = n - (n + 4) mod 7.
Proof.
  unfold alignSunday. rewrite getUTCDay_toDate, iso_toDate.
  destruct ((n + 4) mod 7 =? 0) eqn:E; simpl.
  - apply Z.eqb_eq in E. lia.
  - unfold shiftUTCDate, iso, toDate.
    replace (n * msPerDay + - ((n + 4) mod 7) * msPerDay)
      with ((n - (n + 4) mod 7) * msPerDay) by lia.
    unfold msPerDay. apply Z.div_mul. lia.
Qed.

Lemma weekOf_div (totalWeeks gridStart : Z) (d : Day) :
  weekOf totalWeeks gridStart d = totalWeeks - (date d - gridStart) / 7.
Proof.
  unfold weekOf. rewrite diffDays_sub.
  change 7%Q with (inject_Z 7). rewrite mathFloor_div. reflexivity.
Qed.

Lemma dowOf_mod (d : Day) : dowOf d = (date d + 4) mod 7.
Proof. apply getUTCDay_toDate. Qed.

Lemma totalWeeksOf_div (days : list Day) (d0 dn : Day) :
  head days = Some d0 -> last days = Some dn ->
  totalWeeksOf days = Some ((date dn - alignSunday (date d0)) / 7).
Proof.
  intros H0 Hn. unfold totalWeeksOf, gridStartOf. rewrite H0, Hn.
  cbn [mbind option_bind]. rewrite diffDays_sub.
  change 7%Q with (inject_Z 7). rewrite mathFloor_div. reflexivity.
Qed.

(** ** The classifier on the scenario window *)

(** C2, as the code has it: on the 366-day window whose only positive days
    are day 100 and day 101 with count 5, the three thresholds all equal 5,
    and a count of 5 is classified by the first test [count <= q1]: both
    days get the level-1 colour [colors[1]]. *)
Theorem scenario_levelColor (start : Z) :
  quantiles (positiveVals (scenarioDays start)) = (Some 5, Some 5, Some 5) /\
  levelColor (quantileLevels (scenarioDays start)) 5 = color 1 /\
  forall d : Day, d ∈ scenarioDays start -> 0 < count d ->
    levelColor (quantileLevels (scenarioDays start)) (count d) = color 1.
Proof.
  split; [vm_compute; reflexivity |].
  split; [vm_compute; reflexivity |].
  intros d Hd Hpos.
  assert (Hc : count d = 0 \/ count d = 5).
  { unfold scenarioDays in Hd. apply list_elem_of_fmap in Hd as (i & -> & _).
    simpl. destruct ((_ =? 100) || (_ =? 101)); auto. }
  destruct Hc as [Hc | Hc]; [lia |]. rewrite Hc. vm_compute. reflexivity.
Qed.

(** C2, as stated, fails: on that window a count of 5 does not get the top
    colour [colors[4]]. *)
Lemma scenario_levelColor_not_top :
  levelColor (quantileLevels (scenarioDays 19722)) 5 <> color 4.
Proof. vm_compute. discriminate. Qed.

(** ** Statistics *)

(** C6, as the code has it: on the scenario window the panel shows total 10,
    maximum 5, average 0.03 (10/366 to two decimals), best streak 2, and a
    current streak of 0, the streak being reset by every zero day after day
    101. *)
Theorem scenario_stats (start : Z) :
  stats (scenarioDays start) =
    {| s_total := 10; s_max := 5; s_average := 3 # 100;
       s_current := 0; s_best := 2 |} /\
  PanelStreak 2 0 ∈ panel (stats (scenarioDays start)) /\
  PanelDaily 5 (3 # 100) ∈ panel (stats (scenarioDays start)) /\
  PanelTotal 10 ∈ panel (stats (scenarioDays start)).
Proof.
  assert (H : stats (scenarioDays start) =
    {| s_total := 10; s_max := 5; s_average := 3 # 100;
       s_current := 0; s_best := 2 |}) by (vm_compute; reflexivity).
  rewrite H. split; [reflexivity |].
  rewrite !list_elem_of_In. unfold panel; simpl. tauto.
Qed.

(** C6, as stated, fails: the current streak on the scenario window is not
    2. *)
Lemma scenario_stats_current_not_2 :
  s_current (stats (scenarioDays 19722)) <> 2.
Proof. vm_compute. discriminate. Qed.

Lemma streak_invariant (days : list Day) (current best : Z) :
  0 <= current <= best ->
  0 <= (foldl streakStep (current, best) days).1
    <= (foldl streakStep (current, best) days).2.
Proof.
  revert current best. induction days as [| d days IH]; intros current best H.
  - exact H.
  - simpl. destruct (0 <? count d); apply IH; lia.
Qed.

Lemma stats_streaks (days : list Day) :
  (s_current (stats days), s_best (stats days)) = foldl streakStep (0, 0) days.
Proof. unfold stats. destruct (foldl streakStep (0, 0) days). reflexivity. Qed.

(** C10: for every day list the streaks returned by [stats] satisfy
    [best >= current >= 0]. *)
Theorem stats_best_ge_current (days : list Day) :
  0 <= s_current (stats days) <= s_best (stats days).
Proof.
  pose proof (streak_invariant days 0 0 ltac:(lia)) as H.
  rewrite <- stats_streaks in H. exact H.
Qed.

(** ** The projection *)

Lemma isoX_eq (w1 d1 w2 d2 : Z) :
  (isoX w1 d1 == isoX w2 d2)%Q -> w1 - d1 = w2 - d2.
Proof.
  unfold isoX, gridCX, width, cellW, Qeq, Qplus, Qmult, inject_Z. simpl. lia.
Qed.

Lemma isoY_eq (w1 d1 w2 d2 : Z) :
  (isoY w1 d1 == isoY w2 d2)%Q -> w1 + d1 = w2 + d2.
Proof.
  unfold isoY, gridTopY, cellH, Qeq, Qplus, Qmult, inject_Z. simpl. lia.
Qed.

(** C7: the projection is injective on the grid: two distinct cells with
    week in [0, totalWeeks] and day of week in [0, 6] have distinct screen
    points. *)
Theorem iso_injective (totalWeeks w1 d1 w2 d2 : Z) :
  0 <= w1 <= totalWeeks -> 0 <= d1 <= 6 ->
  0 <= w2 <= totalWeeks -> 0 <= d2 <= 6 ->
  (w1, d1) <> (w2, d2) ->
  ~ ((isoX w1 d1 == isoX w2 d2)%Q /\ (isoY w1 d1 == isoY w2 d2)%Q).
Proof.
  intros _ _ _ _ Hne [Hx Hy].
  apply isoX_eq in Hx. apply isoY_eq in Hy.
  apply Hne. f_equal; lia.
Qed.

Lemma iso_injective_witness :
  (20, 5) <> (21, 6) /\
  ~ ((isoX 20 5 == isoX 21 6)%Q /\ (isoY 20 5 == isoY 21 6)%Q).
Proof.
  assert (Hne : (20, 5) <> (21, 6)) by discriminate.
  split; [exact Hne |].
  apply (iso_injective 52 20 5 21 6); try lia. exact Hne.
Defined.

(** ** Grid cells of a window *)

Lemma contiguousFrom_bounds (prev : Z) (days : list Day) :
  contiguousFrom prev days = true ->
  forall d dn : Day, d ∈ days -> last days = Some dn ->
    prev < date d <= date dn.
Proof.
  revert prev. induction days as [| a days IH]; intros prev Hc d dn Hd Hl.
  - inversion Hd.
  - simpl in Hc. apply andb_true_iff in Hc as [Ha Hc]. apply Z.eqb_eq in Ha.
    destruct days as [| b days].
    + apply list_elem_of_singleton in Hd. subst d.
      simpl in Hl. injection Hl as <-. lia.
    + change (last (a :: b :: days)) with (last (b :: days)) in Hl.
      apply elem_of_cons in Hd as [-> | Hd].
      * pose proof (IH _ Hc b dn ltac:(left) Hl). lia.
      * pose proof (IH _ Hc d dn Hd Hl). lia.
Qed.

Lemma contiguous_bounds (days : list Day) (d0 dn d : Day) :
  contiguous days = true -> head days = Some d0 -> last days = Some dn ->
  d ∈ days -> date d0 <= date d <= date dn.
Proof.
  destruct days as [| a days]; [discriminate |].
  simpl. intros Hc [= <-] Hl Hd.
  destruct days as [| b days].
  - apply list_elem_of_singleton in Hd. subst d. injection Hl as <-. lia.
  - change (last (a :: b :: days)) with (last (b :: days)) in Hl.
    apply elem_of_cons in Hd as [-> | Hd].
    + pose proof (contiguousFrom_bounds _ _ Hc b dn ltac:(left) Hl). lia.
    + pose proof (contiguousFrom_bounds _ _ Hc d dn Hd Hl). lia.
Qed.

(** C5, as the code has it: in a contiguous window every day's cell has
    its week in [0, totalWeeks] and its day of week in [0, 6]; the upper end
    is reached, the first day of the window being in week [totalWeeks]. *)
Theorem grid_cells_within (days : list Day) (gridStart totalWeeks : Z) :
  contiguous days = true ->
  gridStartOf days = Some gridStart ->
  totalWeeksOf days = Some totalWeeks ->
  (forall d : Day, d ∈ days ->
     0 <= weekOf totalWeeks gridStart d <= totalWeeks /\ 0 <= dowOf d <= 6) /\
  (forall d0 : Day, head days = Some d0 ->
     weekOf totalWeeks gridStart d0 = totalWeeks).
Proof.
  intros Hc Hg Ht.
  destruct (head days) as [d0 |] eqn:H0;
    [| unfold gridStartOf in Hg; rewrite H0 in Hg; discriminate].
  destruct (last days) as [dn |] eqn:Hn;
    [| destruct days; [discriminate H0 | rewrite last_cons in Hn;
         destruct (last days); discriminate Hn]].
  rewrite (totalWeeksOf_div days d0 dn H0 Hn) in Ht. injection Ht as <-.
  unfold gridStartOf in Hg. rewrite H0 in Hg. injection Hg as <-.
  rewrite alignSunday_sub.
  pose proof (Z.mod_pos_bound (date d0 + 4) 7 ltac:(lia)) as Hm.
  split.
  - intros d Hd.
    pose proof (contiguous_bounds days d0 dn d Hc H0 Hn Hd) as Hb.
    rewrite weekOf_div, dowOf_mod.
    pose proof (Z.mod_pos_bound (date d + 4) 7 ltac:(lia)).
    assert (0 <= (date d - (date d0 - (date d0 + 4) mod 7)) / 7)
      by (apply Z.div_pos; lia).
    assert ((date d - (date d0 - (date d0 + 4) mod 7)) / 7
            <= (date dn - (date d0 - (date d0 + 4) mod 7)) / 7)
      by (apply Z.div_le_mono; lia).
    lia.
  - intros d0' [= <-]. rewrite weekOf_div.
    replace (date d0 - (date d0 - (date d0 + 4) mod 7)) with ((date d0 + 4) mod 7) by lia.
    rewrite (Z.div_small ((date d0 + 4) mod 7) 7) by lia. lia.
Qed.

Lemma grid_cells_within_witness :
  contiguous (scenarioDays 19722) = true /\
  (forall d : Day, d ∈ scenarioDays 19722 ->
     0 <= weekOf 52 19722 d <= 52 /\ 0 <= dowOf d <= 6) /\
  (forall d0 : Day, head (scenarioDays 19722) = Some d0 -> weekOf 52 19722 d0 = 52).
Proof.
  split; [vm_compute; reflexivity |].
  apply (grid_cells_within (scenarioDays 19722) 19722 52);
    vm_compute; reflexivity.
Defined.

(** C5, as stated, fails: the first day of the scenario window lies in week
    [totalWeeks], outside [0, totalWeeks). *)
Lemma grid_cell_week_not_below_totalWeeks :
  exists (gridStart totalWeeks : Z) (d : Day),
    gridStartOf (scenarioDays 19722) = Some gridStart /\
    totalWeeksOf (scenarioDays 19722) = Some totalWeeks /\
    d ∈ scenarioDays 19722 /\
    ~ (0 <= weekOf totalWeeks gridStart d < totalWeeks).
Proof.
  exists 19722, 52, {| date := 19722; count := 0 |}.
  split; [vm_compute; reflexivity |].
  split; [vm_compute; reflexivity |].
  split; [left |].
  vm_compute. intros [_ H]. discriminate H.
Qed.

(** ** Sorting and selection *)

Lemma insertSorted_elem {A : Type} (cmp : A -> A -> Q) (x y : A) (l : list A) :
  y ∈ insertSorted cmp x l <-> y = x \/ y ∈ l.
Proof.
  induction l as [| z l IH]; simpl.
  - rewrite list_elem_of_singleton.
    split; [auto | intros [H | H]; [exact H | inversion H]].
  - destruct (Qle_bool (cmp x z) 0).
    + rewrite elem_of_cons. reflexivity.
    + rewrite !elem_of_cons, IH. tauto.
Qed.

Lemma jsSort_elem {A : Type} (cmp : A -> A -> Q) (y : A) (l : list A) :
  y ∈ jsSort cmp l <-> y ∈ l.
Proof.
  induction l as [| x l IH]; simpl; [reflexivity |].
  rewrite insertSorted_elem, elem_of_cons, IH. reflexivity.
Qed.

Lemma index_elem {A : Type} (l : list A) (i : Z) (x : A) :
  index l i = Some x -> x ∈ l.
Proof.
  unfold index. destruct (i <? 0); [discriminate |].
  intros H. eapply list_elem_of_lookup_2. exact H.
Qed.

Lemma index_in_range {A : Type} (l : list A) (i : Z) :
  0 <= i < Z.of_nat (length l) -> is_Some (index l i).
Proof.
  intros H. unfold index.
  destruct (i <? 0) eqn:E; [apply Z.ltb_lt in E; lia |].
  apply lookup_lt_is_Some. lia.
Qed.

(** [Math.floor(Math.random() * n)] is an index below [n]. *)
Lemma floor_random_range (r : Q) (n : nat) :
  (0 <= r < 1)%Q -> (0 < n)%nat ->
  0 <= mathFloor (r * inject_Z (Z.of_nat n)) < Z.of_nat n.
Proof.
  intros [H0 H1] Hn. unfold mathFloor.
  assert (Hq : (0 < inject_Z (Z.of_nat n))%Q).
  { change 0%Q with (inject_Z 0). rewrite <- Zlt_Qlt. lia. }
  split.
  - assert (Hx : (0 <= r * inject_Z (Z.of_nat n))%Q)
      by (apply Qmult_le_0_compat; [exact H0 | apply Qlt_le_weak, Hq]).
    apply Qfloor_resp_le in Hx. exact Hx.
  - apply Z.lt_nge. intros Hge.
    pose proof (Qfloor_le (r * inject_Z (Z.of_nat n))) as Hf.
    rewrite Zle_Qle in Hge.
    assert (Hlt : (r * inject_Z (Z.of_nat n) < 1 * inject_Z (Z.of_nat n))%Q)
      by (apply Qmult_lt_compat_r; assumption).
    lra.
Qed.

(** ** One step of the walk *)

Section WalkProperties.
Variable totalWeeks : Z.
Variable barHeightMap : gmap string Q.
Variable random : nat -> Q.
Hypothesis random_unit : inUnit random.

(** The bonuses of a candidate add up to less than 103, so either penalty
    alone puts its score under the cutoff. *)
Lemma scoreOf_backward (s : WalkState) (m : Move) (r : Q) :
  (0 <= r < 1)%Q -> dw m - dd m < 0 ->
  (scoreOf barHeightMap s m r <= -500)%Q.
Proof.
  intros [H0 H1] Hb. apply Z.ltb_lt in Hb.
  unfold scoreOf. rewrite Hb. cbv zeta.
  repeat case_match; lra.
Qed.

Lemma scoreOf_history (s : WalkState) (m : Move) (r : Q) :
  (0 <= r < 1)%Q ->
  includes (recentHistory s) (key (currW s + dw m) (currD s + dd m)) = true ->
  (scoreOf barHeightMap s m r <= -500)%Q.
Proof.
  intros [H0 H1] Hh.
  unfold scoreOf. rewrite Hh. cbv zeta.
  repeat case_match; lra.
Qed.

Lemma gather_elem (s : WalkState) (ms : list Move) (n : nat) (c : Candidate) :
  c ∈ (gather totalWeeks barHeightMap random s ms n).1 ->
  exists (m : Move) (k : nat),
    m ∈ ms /\
    outOfBounds totalWeeks (currW s + dw m) (currD s + dd m) = false /\
    c = {| c_w := currW s + dw m; c_d := currD s + dd m;
           score := scoreOf barHeightMap s m (random k); move := m |}.
Proof.
  revert n. induction ms as [| m ms IH]; intros n Hc; simpl in Hc.
  - inversion Hc.
  - destruct (outOfBounds totalWeeks (currW s + dw m) (currD s + dd m)) eqn:Hb.
    + destruct (IH n Hc) as (m' & k & Hm & Ho & ->).
      exists m', k. split; [right; exact Hm | auto].
    + destruct (gather totalWeeks barHeightMap random s ms (S n)) as [cs n'] eqn:Hg.
      simpl in Hc. apply elem_of_cons in Hc as [-> | Hc].
      * exists m, n. split; [left | auto].
      * specialize (IH (S n)). rewrite Hg in IH.
        destruct (IH Hc) as (m' & k & Hm & Ho & ->).
        exists m', k. split; [right; exact Hm | auto].
  Qed.

(** What a committed step does to the state: it moves by one of the eight
    moves, never backwards, to an in-bounds cell that is not in the
    history buffer, and records it. *)
Lemma step_committed (s s' : WalkState) :
  step totalWeeks barHeightMap random s = Committed s' ->
  exists m : Move,
    m ∈ moves /\ 0 <= dw m - dd m /\
    outOfBounds totalWeeks (currW s') (currD s') = false /\
    (key (currW s') (currD s') ∉ recentHistory s) /\
    currW s' = currW s + dw m /\ currD s' = currD s + dd m /\
    lastDw s' = dw m /\ lastDd s' = dd m /\
    recentHistory s' = pushHistory (recentHistory s) (key (currW s') (currD s')) /\
    waypoints s' = waypoints s ++ [getPt barHeightMap (currW s') (currD s')].
Proof.
  unfold step.
  destruct (gather totalWeeks barHeightMap random s moves (draws s))
    as [cands n] eqn:Hg.
  set (valid := List.filter _ _).
  destruct valid as [| v valid'] eqn:Hv; [discriminate |].
  destruct (index _ _) as [choice |] eqn:Hi; [| discriminate].
  intros [= <-]. simpl.
  apply index_elem, elem_of_take in Hi as (i & Hi & _).
  apply list_elem_of_lookup_2 in Hi. rewrite <- Hv in Hi. subst valid.
  apply list_elem_of_In, filter_In in Hi as [Hin Hs].
  apply list_elem_of_In, jsSort_elem in Hin.
  pose proof (gather_elem s moves (draws s) choice) as He.
  rewrite Hg in He. destruct (He Hin) as (m & k & Hm & Ho & ->).
  simpl in *.
  apply negb_true_iff in Hs.
  assert (Hgt : ~ (scoreOf barHeightMap s m (random k) <= -500)%Q).
  { intros Hle. apply Qle_bool_iff in Hle. congruence. }
  exists m. split; [exact Hm |]. split.
  - apply Z.le_ngt. intros Hlt. apply Hgt.
    apply scoreOf_backward; [apply random_unit | exact Hlt].
  - split; [exact Ho |]. split; [| repeat split; reflexivity].
    intros Hin'. apply Hgt.
    apply scoreOf_history; [apply random_unit |].
    unfold includes. apply bool_decide_eq_true. exact Hin'.
Qed.

(** With draws in [0, 1) the choice among the top candidates is always
    defined. *)
Lemma step_defined (s : WalkState) :
  step totalWeeks barHeightMap random s <> Crashed.
Proof.
  unfold step.
  destruct (gather totalWeeks barHeightMap random s moves (draws s))
    as [cands n].
  destruct (List.filter _ _) as [| v valid]; [discriminate |].
  set (topK := take 3 (v :: valid)).
  destruct (index_in_range topK
              (mathFloor (random n * inject_Z (Z.of_nat (length topK)))))
    as [choice Hc].
  - apply floor_random_range; [apply random_unit | simpl; lia].
  - rewrite Hc. discriminate.
Qed.

Lemma step_trapped (s s' : WalkState) :
  step totalWeeks barHeightMap random s = Trapped s' ->
  currW s' = currW s /\ currD s' = currD s /\
  recentHistory s' = recentHistory s /\ waypoints s' = waypoints s.
Proof.
  unfold step.
  destruct (gather totalWeeks barHeightMap random s moves (draws s))
    as [cands n].
  destruct (List.filter _ _) as [| v valid].
  - intros [= <-]. simpl. auto.
  - destruct (index _ _); discriminate.
Qed.

(** ** The loop *)

(** A property of the walk's cells, history and waypoints that every
    committed step preserves holds when the loop ends. *)
Lemma walkLoop_invariant (P : WalkState -> Prop) :
  (forall s s', P s -> step totalWeeks barHeightMap random s = Committed s' -> P s') ->
  (forall s s', P s -> step totalWeeks barHeightMap random s = Trapped s' -> P s') ->
  forall (i : nat) (s s' : WalkState),
    P s -> walkLoop totalWeeks barHeightMap random i s = Some s' -> P s'.
Proof.
  intros Hcommit Htrap. induction i as [| i IH]; intros s s' Hs Hw; simpl in Hw.
  - injection Hw as <-. exact Hs.
  - destruct (step totalWeeks barHeightMap random s) as [s1 | s1 |] eqn:E.
    + eapply IH; [eapply Hcommit; eassumption | exact Hw].
    + injection Hw as <-. eapply Htrap; eassumption.
    + discriminate.
Qed.

Lemma walkLoop_defined (i : nat) (s : WalkState) :
  is_Some (walkLoop totalWeeks barHeightMap random i s).
Proof.
  revert s. induction i as [| i IH]; intros s; simpl; [eauto |].
  pose proof (step_defined s) as Hd.
  destruct (step totalWeeks barHeightMap random s); [apply IH | eauto | congruence].
Qed.

(** ** Forward progress *)

Lemma forwardOnly_snoc (l : list Waypoint) (p q : Waypoint) :
  forwardOnly (l ++ [p]) -> progress p <= progress q ->
  forwardOnly ((l ++ [p]) ++ [q]).
Proof.
  intros Hf Hpq i a b Ha Hb.
  assert (Hi : (S i < length ((l ++ [p]) ++ [q]))%nat)
    by (eapply lookup_lt_Some; exact Hb).
  rewrite length_app in Hi. simpl in Hi.
  destruct (decide (S i < length (l ++ [p]))%nat) as [Hlt | Hge].
  - rewrite lookup_app_l in Ha by lia. rewrite lookup_app_l in Hb by lia.
    eapply Hf; eassumption.
  - assert (Hi' : S i = length (l ++ [p])) by lia.
    rewrite lookup_app_r in Hb by lia.
    rewrite Hi', Nat.sub_diag in Hb. injection Hb as <-.
    rewrite lookup_app_l in Ha by lia.
    rewrite length_app in Hi'. simpl in Hi'.
    rewrite lookup_app_r in Ha by lia.
    replace (i - length l)%nat with 0%nat in Ha by lia.
    injection Ha as <-. exact Hpq.
Qed.

Lemma forwardInv_start : forwardInv (walkStart barHeightMap).
Proof.
  exists [], (getPt barHeightMap 20 5). repeat split.
  intros i a b Ha Hb. destruct i; discriminate Hb.
Qed.

Lemma forwardInv_step (s s' : WalkState) :
  forwardInv s -> step totalWeeks barHeightMap random s = Committed s' ->
  forwardInv s'.
Proof.
  intros (l & p & Hw & Hp & Hf) Hs.
  destruct (step_committed s s' Hs)
    as (m & _ & Hfw & _ & _ & HW & HD & _ & _ & _ & Hw').
  exists (waypoints s), (getPt barHeightMap (currW s') (currD s')).
  split; [exact Hw' |]. split; [reflexivity |].
  rewrite Hw', Hw. apply forwardOnly_snoc; [rewrite <- Hw; exact Hf |].
  unfold progress, cell in *. injection Hp as -> ->. simpl. lia.
Qed.

Lemma walk_forwardOnly (s : WalkState) :
  walk totalWeeks barHeightMap random = Some s -> forwardOnly (waypoints s).
Proof.
  intros Hw.
  enough (forwardInv s) as (_ & _ & _ & _ & H) by exact H.
  revert Hw. apply walkLoop_invariant; [| | exact forwardInv_start].
  - exact forwardInv_step.
  - intros s0 s1 (l & p & Hw & Hp & Hf) Ht.
    destruct (step_trapped s0 s1 Ht) as (HW & HD & _ & HP).
    exists l, p. rewrite HW, HD, HP. auto.
Qed.

(** ** The history buffer *)

Lemma keyOf_getPt (w d : Z) : keyOf (getPt barHeightMap w d) = key w d.
Proof. reflexivity. Qed.

Lemma cell_keyOf (a b : Waypoint) : cell a = cell b -> keyOf a = keyOf b.
Proof. unfold cell, keyOf. intros [= -> ->]. reflexivity. Qed.

(** Pushing onto the buffer keeps it the last [historyLen] entries. *)
Lemma pushHistory_lastN (t : list Waypoint) (p : Waypoint) :
  pushHistory (keyOf <$> lastN historyLen t) (keyOf p)
  = keyOf <$> lastN historyLen (t ++ [p]).
Proof.
  unfold pushHistory, lastN.
  rewrite length_app, length_fmap, length_drop, length_app. simpl length.
  destruct (decide (length t < historyLen)%nat) as [Hlt | Hge].
  - replace (length t - historyLen)%nat with 0%nat by lia.
    replace (length t + 1 - historyLen)%nat with 0%nat by lia.
    rewrite !drop_0, fmap_app.
    destruct (historyLen <? length t - 0 + 1)%nat eqn:E; [| reflexivity].
    apply Nat.ltb_lt in E. lia.
  - assert (E : (historyLen <? length t - (length t - historyLen) + 1)%nat = true)
      by (apply Nat.ltb_lt; lia).
    rewrite E.
    replace (length t + 1 - historyLen)%nat with (S (length t - historyLen)) by lia.
    change [keyOf p] with (keyOf <$> [p]).
    rewrite <- fmap_app, <- drop_app_le by lia.
    change (tail ?x) with (drop 1 x).
    rewrite <- fmap_drop, drop_drop. f_equal. f_equal. lia.
Qed.

Lemma noRecentRepeat_snoc (p0 : Waypoint) (t : list Waypoint) (p : Waypoint) :
  noRecentRepeat (p0 :: t) ->
  keyOf p ∉ keyOf <$> lastN historyLen t ->
  noRecentRepeat (p0 :: t ++ [p]).
Proof.
  intros Hn Hk i j a b H1 Hji Hij Ha Hb.
  change (p0 :: t ++ [p]) with ((p0 :: t) ++ [p]) in *.
  assert (Hi : (i < length ((p0 :: t) ++ [p]))%nat)
    by (eapply lookup_lt_Some; exact Ha).
  rewrite length_app in Hi. simpl in Hi.
  rewrite lookup_app_l in Hb by (simpl; lia).
  destruct (decide (i < length (p0 :: t))%nat) as [Hlt | Hge].
  - rewrite lookup_app_l in Ha by exact Hlt.
    eapply Hn; eassumption.
  - simpl in Hge.
    rewrite lookup_app_r in Ha by (simpl; lia).
    replace (i - length (p0 :: t))%nat with 0%nat in Ha by (simpl; lia).
    injection Ha as <-.
    intros Hc. apply Hk. rewrite (cell_keyOf _ _ Hc).
    apply list_elem_of_fmap_2.
    destruct j as [| j]; [lia |]. simpl in Hb.
    unfold lastN. apply list_elem_of_lookup.
    exists (j - (length t - historyLen))%nat.
    rewrite lookup_drop. rewrite <- Hb. f_equal. lia.
Qed.

Lemma historyInv_start : historyInv (walkStart barHeightMap).
Proof.
  exists (getPt barHeightMap 20 5), []. repeat split.
  intros i j a b H1 Hji _ Ha _.
  destruct i as [| i]; [lia | discriminate Ha].
Qed.

Lemma historyInv_step (s s' : WalkState) :
  historyInv s -> step totalWeeks barHeightMap random s = Committed s' ->
  historyInv s'.
Proof.
  intros (p0 & t & Hw & Hh & Hn) Hs.
  destruct (step_committed s s' Hs)
    as (m & _ & _ & _ & Hnot & _ & _ & _ & _ & Hh' & Hw').
  set (p := getPt barHeightMap (currW s') (currD s')) in *.
  exists p0, (t ++ [p]). rewrite Hw', Hw, Hh', Hh.
  split; [reflexivity |]. split.
  - apply (pushHistory_lastN t p).
  - apply noRecentRepeat_snoc; [exact Hn |].
    rewrite <- Hh. exact Hnot.
Qed.

Lemma walk_historyInv (s : WalkState) :
  walk totalWeeks barHeightMap random = Some s -> historyInv s.
Proof.
  apply walkLoop_invariant; [| | exact historyInv_start].
  - exact historyInv_step.
  - intros s0 s1 (p0 & t & Hw & Hh & Hn) Ht.
    destruct (step_trapped s0 s1 Ht) as (_ & _ & HH & HP).
    exists p0, t. rewrite HH, HP. auto.
Qed.
End WalkProperties.

(** ** The walk inside [render] *)

Lemma last_is_Some {A : Type} (l : list A) : l <> [] -> is_Some (last l).
Proof.
  induction l as [| a l IH]; [congruence |]. intros _.
  destruct l as [| b l]; [simpl; eauto |].
  change (last (a :: b :: l)) with (last (b :: l)). apply IH. discriminate.
Qed.

Lemma grid_defined (days : list Day) :
  days <> [] ->
  exists gridStart totalWeeks : Z,
    gridStartOf days = Some gridStart /\ totalWeeksOf days = Some totalWeeks.
Proof.
  intros Hne. destruct days as [| d0 days']; [congruence |].
  destruct (last_is_Some (d0 :: days') Hne) as [dn Hn].
  exists (alignSunday (date d0)). eexists. split; [reflexivity |].
  eapply totalWeeksOf_div; [reflexivity | exact Hn].
Qed.

Lemma walkOf_defined (random : nat -> Q) (days : list Day) :
  inUnit random -> days <> [] -> is_Some (walkOf random days).
Proof.
  intros Hr Hne. destruct (grid_defined days Hne) as (g & tw & Hg & Ht).
  unfold walkOf. rewrite Hg, Ht. cbn [mbind option_bind].
  apply walkLoop_defined. exact Hr.
Qed.

Lemma walkOf_walk (random : nat -> Q) (days : list Day) (s : WalkState) :
  walkOf random days = Some s ->
  exists (totalWeeks : Z) (bh : gmap string Q), walk totalWeeks bh random = Some s.
Proof.
  unfold walkOf.
  destruct (gridStartOf days) as [g |]; [| discriminate].
  destruct (totalWeeksOf days) as [tw |]; [| discriminate].
  cbn [mbind option_bind]. eauto.
Qed.

(** C1: for every non-empty day series and every sequence of draws in
    [0, 1), the walk inside [render] yields its waypoints, and along them the
    forward progress [week - dayOfWeek] never decreases from one waypoint to
    the next.  (On an empty series [render] throws before the walk.) *)
Theorem walk_forward_progress (random : nat -> Q) (days : list Day) :
  inUnit random -> days <> [] ->
  exists wps : list Waypoint,
    waypointsOf random days = Some wps /\ forwardOnly wps.
Proof.
  intros Hr Hne. destruct (walkOf_defined random days Hr Hne) as [s Hs].
  exists (waypoints s). unfold waypointsOf. rewrite Hs. split; [reflexivity |].
  destruct (walkOf_walk random days s Hs) as (tw & bh & Hw).
  eapply walk_forwardOnly; eassumption.
Qed.

(** C4: for every non-empty day series and every sequence of draws in
    [0, 1), the buffer [recentHistory] holds the keys of the last 32
    committed waypoints at most, and no committed waypoint has the cell of
    one of the 32 waypoints committed before it, which are the cells in the
    buffer when it is chosen. *)
Theorem walk_avoids_history (random : nat -> Q) (days : list Day) :
  inUnit random -> days <> [] ->
  exists s : WalkState,
    walkOf random days = Some s /\
    recentHistory s = keyOf <$> lastN historyLen (tail (waypoints s)) /\
    (length (recentHistory s) <= historyLen)%nat /\
    noRecentRepeat (waypoints s).
Proof.
  intros Hr Hne. destruct (walkOf_defined random days Hr Hne) as [s Hs].
  exists s. split; [exact Hs |].
  destruct (walkOf_walk random days s Hs) as (tw & bh & Hw).
  destruct (walk_historyInv tw bh random Hr s Hw) as (p0 & t & Hwp & Hh & Hn).
  rewrite Hwp. simpl tail. split; [exact Hh |]. split; [| exact Hn].
  rewrite Hh, length_fmap. unfold lastN. rewrite length_drop. lia.
Qed.

Lemma constantly_inUnit (q : Q) : (0 <= q < 1)%Q -> inUnit (constantly q).
Proof. intros H n. exact H. Qed.

Lemma alternating_inUnit : inUnit alternating.
Proof.
  intros n. unfold alternating.
  destruct (Nat.even n); split; unfold Qle, Qlt; simpl; lia.
Qed.

Lemma scenarioDays_nonempty (start : Z) : scenarioDays start <> [].
Proof. discriminate. Qed.

Lemma walk_forward_progress_witness :
  inUnit alternating /\ scenarioDays 19722 <> [] /\
  exists wps : list Waypoint,
    waypointsOf alternating (scenarioDays 19722) = Some wps /\ forwardOnly wps.
Proof.
  split; [exact alternating_inUnit |].
  split; [exact (scenarioDays_nonempty 19722) |].
  exact (walk_forward_progress alternating (scenarioDays 19722)
           alternating_inUnit (scenarioDays_nonempty 19722)).
Defined.

Lemma walk_avoids_history_witness :
  inUnit alternating /\ scenarioDays 19722 <> [] /\
  exists s : WalkState,
    walkOf alternating (scenarioDays 19722) = Some s /\
    recentHistory s = keyOf <$> lastN historyLen (tail (waypoints s)) /\
    (length (recentHistory s) <= historyLen)%nat /\
    noRecentRepeat (waypoints s).
Proof.
  split; [exact alternating_inUnit |].
  split; [exact (scenarioDays_nonempty 19722) |].
  exact (walk_avoids_history alternating (scenarioDays 19722)
           alternating_inUnit (scenarioDays_nonempty 19722)).
Defined.

(** ** The walk as a function of the draws *)

Section Agreement.
Variable totalWeeks : Z.
Variable barHeightMap : gmap string Q.
Variables random1 random2 : nat -> Q.





End Agreement.


(** ** The dragon layer *)

Lemma dragonLayer_short (wps : list Waypoint) :
  (length wps < 4)%nat -> dragonLayer wps = [].
Proof.
  intros H. unfold dragonLayer.
  destruct (4 <=? length wps)%nat eqn:E; [| reflexivity].
  apply Nat.leb_le in E. lia.
Qed.

Lemma filter_none {A : Type} (f : A -> bool) (l : list A) :
  (forall a : A, a ∈ l -> f a = false) -> List.filter f l = [].
Proof.
  induction l as [| a l IH]; intros H; [reflexivity |].
  simpl. rewrite (H a) by left. apply IH. intros b Hb. apply H. right. exact Hb.
Qed.

Lemma filter_all {A : Type} (f : A -> bool) (l : list A) :
  (forall a : A, a ∈ l -> f a = true) -> List.filter f l = l.
Proof.
  induction l as [| a l IH]; intros H; [reflexivity |].
  simpl. rewrite (H a) by left. f_equal. apply IH. intros b Hb. apply H. right. exact Hb.
Qed.

Lemma bars_not_dragon (levels : Levels) (totalWeeks gridStart : Z)
      (days : list Day) (p : Part) :
  p ∈ bars levels totalWeeks gridStart days -> isDragon p = false.
Proof.
  unfold bars. rewrite list_elem_of_In, in_flat_map.
  intros (d & _ & Hp). destruct (count d <=? 0); [inversion Hp |].
  destruct Hp as [<- | []]. reflexivity.
Qed.

Lemma panel_not_dragon (s : Stats) (p : Part) :
  p ∈ panel s -> isDragon p = false.
Proof.
  unfold panel. rewrite !elem_of_app. intros [Hp | [Hp | Hp]].
  - apply list_elem_of_In in Hp. simpl in Hp.
    repeat (destruct Hp as [<- | Hp]; [reflexivity |]). destruct Hp.
  - apply list_elem_of_fmap in Hp as (c & -> & _). reflexivity.
  - apply list_elem_of_singleton in Hp. subst p. reflexivity.
Qed.

Lemma dragonLayer_dragon (wps : list Waypoint) (p : Part) :
  p ∈ dragonLayer wps -> isDragon p = true.
Proof.
  unfold dragonLayer. destruct (4 <=? length wps)%nat; [| inversion 1].
  destruct wps as [| p0 rest]; [inversion 1 |].
  rewrite !elem_of_app. intros [Hp | [Hp | Hp]].
  - apply list_elem_of_In in Hp. simpl in Hp.
    destruct Hp as [<- | [<- | []]]; reflexivity.
  - apply list_elem_of_fmap in Hp as (i & -> & _). reflexivity.
  - apply list_elem_of_singleton in Hp. subst p. reflexivity.
Qed.

(** The dragon parts of the document are the block built from the
    waypoints, and nothing else. *)
Lemma render_dragon_parts
  (random : nat -> Q) (year : Z) (days : list Day) (wps : list Waypoint) :
  waypointsOf random days = Some wps ->
  exists parts : list Part,
    render random year days = Some parts /\
    List.filter isDragon parts = dragonLayer wps.
Proof.
  intros Hw. unfold render. rewrite Hw.
  unfold waypointsOf, walkOf in Hw.
  destruct (gridStartOf days) as [g |]; [| discriminate].
  destruct (totalWeeksOf days) as [tw |]; [| discriminate].
  cbn [mbind option_bind]. eexists. split; [reflexivity |].
  rewrite !List.filter_app.
  rewrite (filter_none isDragon ornamentsTop)
    by (intros p Hp; apply list_elem_of_fmap in Hp as (n & -> & _); reflexivity).
  rewrite (filter_none isDragon (map (floorTile tw g) days))
    by (intros p Hp; apply list_elem_of_fmap in Hp as (n & -> & _); reflexivity).
  rewrite (filter_none isDragon (bars (quantileLevels days) tw g days))
    by (intros p Hp; eapply bars_not_dragon; exact Hp).
  rewrite (filter_none isDragon (panel (stats days)))
    by (intros p Hp; eapply panel_not_dragon; exact Hp).
  rewrite (filter_none isDragon (ornamentsBottom year)).
  - rewrite app_nil_r. simpl. apply filter_all, dragonLayer_dragon.
  - intros p Hp. apply list_elem_of_In in Hp. simpl in Hp.
    repeat (destruct Hp as [<- | Hp]; [reflexivity |]). destruct Hp.
Qed.

(** C8: when the walk inside [render] ends with fewer than four waypoints,
    [render] returns its document all the same, and the document has no
    part of the dragon. *)
Theorem short_walk_omits_dragon
  (random : nat -> Q) (year : Z) (days : list Day) (wps : list Waypoint) :
  waypointsOf random days = Some wps ->
  (length wps < 4)%nat ->
  exists parts : list Part,
    render random year days = Some parts /\
    forall p : Part, p ∈ parts -> isDragon p = false.
Proof.
  intros Hw Hshort.
  destruct (render_dragon_parts random year days wps Hw) as (parts & Hr & Hd).
  exists parts. split; [exact Hr |].
  rewrite (dragonLayer_short wps Hshort) in Hd.
  intros p Hp. destruct (isDragon p) eqn:E; [| reflexivity].
  assert (Hin : In p (List.filter isDragon parts))
    by (apply filter_In; split; [apply list_elem_of_In; exact Hp | exact E]).
  rewrite Hd in Hin. destruct Hin.
Qed.

Lemma short_walk_omits_dragon_witness :
  waypointsOf alternating (zeroDays 19722 14) = Some [getPt ∅ 20 5] /\
  (length [getPt ∅ 20 5] < 4)%nat /\
  exists parts : list Part,
    render alternating 2026 (zeroDays 19722 14) = Some parts /\
    forall p : Part, p ∈ parts -> isDragon p = false.
Proof.
  assert (Hw : waypointsOf alternating (zeroDays 19722 14) = Some [getPt ∅ 20 5])
    by (vm_compute; reflexivity).
  assert (Hl : (length [getPt ∅ 20 5] < 4)%nat) by (simpl; lia).
  split; [exact Hw |]. split; [exact Hl |].
  exact (short_walk_omits_dragon alternating 2026 (zeroDays 19722 14)
           [getPt ∅ 20 5] Hw Hl).
Defined.

(** ** A call of [render] and the state of its process *)


Lemma map_plain_id (l : list Part) :
  (forall p : Part, p ∈ l -> isCloud p = false) -> map plain l = l.
Proof.
  induction l as [| a l IH]; intros H; [reflexivity |].
  cbn [map]. rewrite IH by (intros p Hp; apply H; right; exact Hp).
  assert (Ha : isCloud a = false) by (apply H; left).
  destruct a; try reflexivity. discriminate Ha.
Qed.

Lemma dragon_not_cloud (p : Part) : isDragon p = true -> isCloud p = false.
Proof. destruct p; try discriminate; reflexivity. Qed.

Lemma bars_not_cloud (levels : Levels) (totalWeeks gridStart : Z)
      (days : list Day) (p : Part) :
  p ∈ bars levels totalWeeks gridStart days -> isCloud p = false.
Proof.
  unfold bars. rewrite list_elem_of_In, in_flat_map.
  intros (d & _ & Hp). destruct (count d <=? 0); [inversion Hp |].
  destruct Hp as [<- | []]. reflexivity.
Qed.

Lemma panel_not_cloud (s : Stats) (p : Part) :
  p ∈ panel s -> isCloud p = false.
Proof.
  unfold panel. rewrite !elem_of_app. intros [Hp | [Hp | Hp]].
  - apply list_elem_of_In in Hp. simpl in Hp.
    repeat (destruct Hp as [<- | Hp]; [reflexivity |]). destruct Hp.
  - apply list_elem_of_fmap in Hp as (c & -> & _). reflexivity.
  - apply list_elem_of_singleton in Hp. subst p. reflexivity.
Qed.

(** The parts between the ornaments hold no cloud. *)
Lemma middle_not_cloud (totalWeeks gridStart : Z) (days : list Day)
      (wps : list Waypoint) (p : Part) :
  p ∈ map (floorTile totalWeeks gridStart) days
      ++ bars (quantileLevels days) totalWeeks gridStart days
      ++ dragonLayer wps ++ panel (stats days) ->
  isCloud p = false.
Proof.
  rewrite !elem_of_app. intros [Hp | [Hp | [Hp | Hp]]].
  - apply list_elem_of_fmap in Hp as (d & -> & _). reflexivity.
  - eapply bars_not_cloud. exact Hp.
  - apply dragon_not_cloud. eapply dragonLayer_dragon. exact Hp.
  - eapply panel_not_cloud. exact Hp.
Qed.


(** A call returns whenever the pure document is defined, and the pure
    document is the one returned with the clouds reduced to their name. *)
Lemma documentOf_render (days : list Day) (username : string) (duration : Duration)
      (p : Process) :
  map plain <$> documentOf days username duration p
  = render (drawsOf p) (thisYear p) days.
Proof.
  unfold documentOf, renderCall, render, waypointsOf.
  destruct (gridStartOf days) as [g |]; [| reflexivity].
  destruct (totalWeeksOf days) as [tw |]; [| reflexivity].
  cbn [mbind option_bind].
  destruct (walkOf (drawsOf p) days) as [w |]; [| reflexivity].
  cbn [mbind option_bind fmap option_fmap option_map fst]. f_equal.
  rewrite !map_app.
  rewrite (map_plain_id (map (floorTile tw g) days))
    by (intros q Hq; apply list_elem_of_fmap in Hq as (d & -> & _); reflexivity).
  rewrite (map_plain_id (bars (quantileLevels days) tw g days))
    by (intros q Hq; eapply bars_not_cloud; exact Hq).
  rewrite (map_plain_id (dragonLayer (waypoints w)))
    by (intros q Hq; apply dragon_not_cloud; eapply dragonLayer_dragon; exact Hq).
  rewrite (map_plain_id (panel (stats days)))
    by (intros q Hq; eapply panel_not_cloud; exact Hq).
  reflexivity.
Qed.






(** ** Fatal errors *)

(** One round of the loop of [parseArgs] with a value in sight. *)
Lemma parseLoop_round (key val : string) (rest : list string) (parsed : Args) :
  parseLoop (key :: val :: rest) parsed =
    if String.eqb val "" then parseLoop (val :: rest) parsed
    else if String.eqb key "--username" then
      parseLoop rest {| username := val; output := output parsed;
                        duration := duration parsed |}
    else if String.eqb key "--output" then
      parseLoop rest {| username := username parsed; output := val;
                        duration := duration parsed |}
    else if String.eqb key "--duration" && String.eqb val "half-year" then
      parseLoop rest {| username := username parsed; output := output parsed;
                        duration := HalfYear |}
    else if String.eqb key "--duration" && String.eqb val "full-year" then
      parseLoop rest {| username := username parsed; output := output parsed;
                        duration := FullYear |}
    else parseLoop (val :: rest) parsed.
Proof. reflexivity. Qed.

(** Without the flag among the arguments the user name stays as it was. *)
Lemma parseLoop_username (n : nat) :
  forall (args : list string) (parsed : Args),
    (length args <= n)%nat -> "--username" ∉ args ->
    username (parseLoop args parsed) = username parsed.
Proof.
  induction n as [| n IH]; intros args parsed Hlen Hno.
  - destruct args; [reflexivity | simpl in Hlen; lia].
  - destruct args as [| key [| val rest]]; [reflexivity | reflexivity |].
    simpl in Hlen.
    assert (Hrest : "--username" ∉ val :: rest)
      by (intros H; apply Hno; right; exact H).
    assert (Hrest' : "--username" ∉ rest)
      by (intros H; apply Hrest; right; exact H).
    rewrite parseLoop_round.
    destruct (String.eqb val ""); [apply IH; [simpl; lia | exact Hrest] |].
    destruct (String.eqb key "--username") eqn:Ek.
    { apply String.eqb_eq in Ek. subst key. exfalso. apply Hno. left. }
    destruct (String.eqb key "--output");
      [rewrite IH by (try lia; exact Hrest'); reflexivity |].
    destruct (String.eqb key "--duration" && String.eqb val "half-year");
      [rewrite IH by (try lia; exact Hrest'); reflexivity |].
    destruct (String.eqb key "--duration" && String.eqb val "full-year");
      [rewrite IH by (try lia; exact Hrest'); reflexivity |].
    apply IH; [simpl; lia | exact Hrest].
Qed.

Lemma parseArgs_missing (args : list string) :
  "--username" ∉ args -> parseArgs args = Throw "Missing --username".
Proof.
  intros Hno. unfold parseArgs.
  rewrite (parseLoop_username (length args)) by (try lia; exact Hno).
  reflexivity.
Qed.

(** One round of the loop, by what it does with the value in sight:
    either the key does not take it and the loop goes on from the value,
    or the key takes it and the loop goes on after it, the user name being
    the value when the key is [--username] and unchanged otherwise. *)
Lemma parseLoop_cases (key val : string) (rest : list string) (parsed : Args) :
  (takesValue (key :: val :: rest) 0 = false /\
   parseLoop (key :: val :: rest) parsed = parseLoop (val :: rest) parsed) \/
  (takesValue (key :: val :: rest) 0 = true /\ val <> "" /\
   exists parsed' : Args,
     parseLoop (key :: val :: rest) parsed = parseLoop rest parsed' /\
     ((key = "--username" /\ username parsed' = val) \/
      (key <> "--username" /\ username parsed' = username parsed))).
Proof.
  rewrite parseLoop_round. unfold takesValue. cbn [lookup list_lookup].
  destruct (String.eqb val "") eqn:Ev; [left; split; reflexivity |].
  apply String.eqb_neq in Ev. cbn [negb andb].
  destruct (String.eqb key "--username") eqn:Eu.
  { apply String.eqb_eq in Eu. right. split; [reflexivity |]. split; [exact Ev |].
    eexists. split; [reflexivity |]. left. split; [exact Eu | reflexivity]. }
  apply String.eqb_neq in Eu. cbn [orb].
  destruct (String.eqb key "--output").
  { right. split; [reflexivity |]. split; [exact Ev |].
    eexists. split; [reflexivity |]. right. split; [exact Eu | reflexivity]. }
  cbn [orb].
  destruct (String.eqb key "--duration"); cbn [andb]; [| left; split; reflexivity].
  destruct (String.eqb val "half-year").
  { right. split; [reflexivity |]. split; [exact Ev |].
    eexists. split; [reflexivity |]. right. split; [exact Eu | reflexivity]. }
  cbn [orb].
  destruct (String.eqb val "full-year"); [| left; split; reflexivity].
  right. split; [reflexivity |]. split; [exact Ev |].
  eexists. split; [reflexivity |]. right. split; [exact Eu | reflexivity].
Qed.

(** Which arguments are read as keys, after one round of the loop. *)
Lemma readAsKey_skip (key : string) (rest : list string) (i : nat) :
  takesValue (key :: rest) 0 = false ->
  readAsKey (key :: rest) (S i) = readAsKey rest i.
Proof.
  intros H. induction i as [| i IH].
  - cbn [readAsKey]. rewrite H. reflexivity.
  - change (readAsKey (key :: rest) (S (S i)))
      with (negb (readAsKey (key :: rest) (S i) && takesValue (key :: rest) (S i))).
    rewrite IH. reflexivity.
Qed.

Lemma readAsKey_taken (key val : string) (rest : list string) (i : nat) :
  takesValue (key :: val :: rest) 0 = true ->
  readAsKey (key :: val :: rest) 1 = false /\
  readAsKey (key :: val :: rest) (S (S i)) = readAsKey rest i.
Proof.
  intros H.
  assert (H1 : readAsKey (key :: val :: rest) 1 = false)
    by (cbn [readAsKey]; rewrite H; reflexivity).
  split; [exact H1 |]. induction i as [| i IH].
  - change (readAsKey (key :: val :: rest) 2)
      with (negb (readAsKey (key :: val :: rest) 1 && takesValue (key :: val :: rest) 1)).
    rewrite H1. reflexivity.
  - change (readAsKey (key :: val :: rest) (S (S (S i))))
      with (negb (readAsKey (key :: val :: rest) (S (S i))
                  && takesValue (key :: val :: rest) (S (S i)))).
    rewrite IH. reflexivity.
Qed.

(** A user name, once given, is never taken back. *)
Lemma parseLoop_keeps (n : nat) :
  forall (args : list string) (parsed : Args),
    (length args <= n)%nat -> username parsed <> "" ->
    username (parseLoop args parsed) <> "".
Proof.
  induction n as [| n IH]; intros args parsed Hlen Hu.
  - destruct args; [exact Hu | simpl in Hlen; lia].
  - destruct args as [| key [| val rest]]; [exact Hu | exact Hu |].
    simpl in Hlen.
    destruct (parseLoop_cases key val rest parsed)
      as [[_ ->] | (_ & Hv & parsed' & -> & [[_ Hp] | [_ Hp]])].
    + apply IH; [simpl; lia | exact Hu].
    + apply IH; [lia | rewrite Hp; exact Hv].
    + apply IH; [lia | rewrite Hp; exact Hu].
Qed.

(** Where no argument gives a user name, the loop leaves it as it was. *)
Lemma parseLoop_not_given (n : nat) :
  forall (args : list string) (parsed : Args),
    (length args <= n)%nat -> (forall i : nat, ~ givesUsername args i) ->
    username (parseLoop args parsed) = username parsed.
Proof.
  induction n as [| n IH]; intros args parsed Hlen Hno.
  - destruct args; [reflexivity | simpl in Hlen; lia].
  - destruct args as [| key [| val rest]]; [reflexivity | reflexivity |].
    simpl in Hlen.
    destruct (parseLoop_cases key val rest parsed)
      as [[Ht ->] | (Ht & Hv & parsed' & -> & [[Hk Hp] | [_ Hp]])].
    + apply IH; [simpl; lia |]. intros i (Hr & Hi & Hval).
      apply (Hno (S i)). split; [| split; assumption].
      rewrite readAsKey_skip by exact Ht. exact Hr.
    + exfalso. apply (Hno 0%nat). split; [reflexivity |].
      split; [rewrite Hk; reflexivity |]. exists val. split; [reflexivity | exact Hv].
    + rewrite <- Hp. apply IH; [lia |]. intros i (Hr & Hi & Hval).
      apply (Hno (S (S i))). split; [| split; assumption].
      rewrite (proj2 (readAsKey_taken key val rest i Ht)). exact Hr.
Qed.

(** Where some argument gives a user name, the loop ends with one. *)
Lemma parseLoop_given (n : nat) :
  forall (args : list string) (parsed : Args) (i : nat),
    (length args <= n)%nat -> givesUsername args i ->
    username (parseLoop args parsed) <> "".
Proof.
  induction n as [| n IH]; intros args parsed i Hlen (Hr & Hi & val' & Hval & Hne).
  - destruct args; [rewrite lookup_nil in Hi; discriminate Hi | simpl in Hlen; lia].
  - destruct args as [| key [| val rest]].
    + rewrite lookup_nil in Hi. discriminate Hi.
    + apply lookup_lt_Some in Hval. simpl in Hval. lia.
    + simpl in Hlen.
      destruct (parseLoop_cases key val rest parsed)
        as [[Ht ->] | (Ht & Hv & parsed' & -> & Hcase)].
      * destruct i as [| i].
        -- (* the key is [--username] and its value is not empty: it is taken *)
           exfalso. cbn in Hi, Hval.
           apply (inj Some) in Hi. apply (inj Some) in Hval. subst key val'.
           unfold takesValue in Ht. cbn [lookup list_lookup] in Ht.
           apply String.eqb_neq in Hne. rewrite Hne in Ht. discriminate Ht.
        -- apply (IH _ parsed i); [simpl; lia |].
           split; [rewrite <- (readAsKey_skip key (val :: rest) i Ht); exact Hr |].
           split; [exact Hi | exists val'; split; assumption].
      * destruct i as [| [| i]].
        -- destruct Hcase as [[_ Hp] | [Hk _]].
           ++ apply parseLoop_keeps with (n := n); [lia | rewrite Hp; exact Hv].
           ++ exfalso. cbn in Hi. apply (inj Some) in Hi. exact (Hk Hi).
        -- rewrite (proj1 (readAsKey_taken key val rest 0 Ht)) in Hr. discriminate Hr.
        -- apply (IH _ parsed' i); [lia |].
           split; [rewrite <- (proj2 (readAsKey_taken key val rest i Ht)); exact Hr |].
           split; [exact Hi | exists val'; split; assumption].
Qed.

(** [parseArgs] throws exactly when no argument gives a user name. *)
Lemma parseArgs_throws (args : list string) :
  (forall i : nat, ~ givesUsername args i) <->
  parseArgs args = Throw "Missing --username".
Proof.
  unfold parseArgs. split.
  - intros Hno.
    rewrite (parseLoop_not_given (length args)) by (try lia; exact Hno).
    reflexivity.
  - intros H i Hi.
    destruct (String.eqb (username (parseLoop args _)) "") eqn:E; [| discriminate H].
    apply String.eqb_eq in E. revert E.
    apply (parseLoop_given (length args) args _ i); [lia | exact Hi].
Qed.

Section Fatal.
Variable isoText : Z -> string.
Variable encodeURIComponent : string -> string.
Variable getFullYear : Z -> Z.
Variable matchTd : string -> list string.
Variable matchAttr : string -> list (string * string).
Variable matchTooltip : string -> list (string * string).
Variable execCount : string -> option Z.
Variable resolve : string -> string.
Variable dirname : string -> string.

Abbreviation fetchContributions' :=
  (fetchContributions matchTd matchAttr matchTooltip execCount).
Abbreviation parsedContributions' :=
  (parsedContributions matchTd matchAttr matchTooltip execCount).
Abbreviation program' :=
  (program isoText encodeURIComponent getFullYear
           matchTd matchAttr matchTooltip execCount resolve dirname).

Lemma fetchContributions_empty (resp : Response) :
  ok resp = true -> textError resp = None ->
  parsedContributions' (text resp) = ∅ ->
  fetchContributions' resp = Throw "No contribution data parsed".
Proof.
  intros Hok Ht He. unfold fetchContributions. rewrite Hok, Ht, He. reflexivity.
Qed.

(** C9: [parseArgs] throws "Missing --username" exactly when the user name
    is missing, that is when no argument gives one: the flag is absent, or
    stands last, or is followed by an empty value, or is itself taken as
    the value of the flag before it.  The program then logs the error and
    exits with status 1 without any request.  When the arguments are in
    order and the answer to the request yields no date at all,
    [fetchContributions] throws with the message "No contribution data
    parsed", and the program logs it and exits with status 1 after that one
    request. *)
Theorem missing_input_is_fatal (world : World) :
  ((forall i : nat, ~ givesUsername (argv world) i) <->
   parseArgs (argv world) = Throw "Missing --username") /\
  ((forall i : nat, ~ givesUsername (argv world) i) ->
     program' world = [EvError "Missing --username"; EvExit 1] /\
     exitCode (program' world) = 1 /\ fetchCount (program' world) = 0%nat) /\
  (forall (args : Args) (url : string) (resp : Response),
     parseArgs (argv world) = Ok args ->
     url = contributionsUrl isoText encodeURIComponent (username args)
             (windowOf world args).1 (windowOf world args).2 ->
     fetch world url = Ok resp ->
     ok resp = true -> textError resp = None ->
     parsedContributions' (text resp) = ∅ ->
     fetchContributions' resp = Throw "No contribution data parsed" /\
     program' world
       = [EvFetch url; EvError "No contribution data parsed"; EvExit 1] /\
     exitCode (program' world) = 1 /\ fetchCount (program' world) = 1%nat).
Proof.
  split; [apply parseArgs_throws |]. split.
  - intros Hno. pose proof (proj1 (parseArgs_throws _) Hno) as Hp.
    assert (Hprog : program' world = [EvError "Missing --username"; EvExit 1])
      by (unfold program, main; rewrite Hp; reflexivity).
    rewrite Hprog. repeat split; reflexivity.
  - intros args url resp Hp -> Hfetch Hok Ht He.
    pose proof (fetchContributions_empty _ Hok Ht He) as Hf.
    set (url := contributionsUrl _ _ _ _ _) in *.
    assert (Hprog : program' world
              = [EvFetch url; EvError "No contribution data parsed"; EvExit 1]).
    { unfold program, main. rewrite Hp.
      destruct (windowOf world args) as [start end_] eqn:Ew. simpl in url.
      fold url. rewrite Hfetch, Hf. reflexivity. }
    rewrite Hprog. repeat split; [exact Hf | reflexivity..].
Qed.
End Fatal.

Lemma missing_input_is_fatal_witness :
  ((forall i : nat, ~ givesUsername (argv worldNoUser) i) /\
   program pretty id (fun _ => 2026) noMatch noMatch noMatch (fun _ => None) id id
           worldNoUser
   = [EvError "Missing --username"; EvExit 1]) /\
  (parseArgs (argv worldEmptyPage) = Ok octocat /\
   fetch worldEmptyPage "" = Ok emptyPage /\
   parsedContributions noMatch noMatch noMatch (fun _ => None) (text emptyPage) = ∅ /\
   exitCode (program pretty id (fun _ => 2026) noMatch noMatch noMatch
                     (fun _ => None) id id worldEmptyPage) = 1).
Proof.
  pose proof (missing_input_is_fatal pretty id (fun _ => 2026)
                noMatch noMatch noMatch (fun _ => None) id id worldNoUser)
    as (_ & Ha & _).
  pose proof (missing_input_is_fatal pretty id (fun _ => 2026)
                noMatch noMatch noMatch (fun _ => None) id id worldEmptyPage)
    as (_ & _ & Hb).
  assert (Hno : forall i : nat, ~ givesUsername (argv worldNoUser) i).
  { intros i (Hr & Hi & _). cbn [argv worldNoUser] in Hr, Hi.
    destruct i as [| [| [| i]]]; cbn in Hi; try discriminate Hi.
    vm_compute in Hr. discriminate Hr. }
  assert (Hp : parseArgs (argv worldEmptyPage) = Ok octocat) by reflexivity.
  split.
  - split; [exact Hno |]. exact (proj1 (Ha Hno)).
  - split; [exact Hp |]. split; [reflexivity |]. split; [reflexivity |].
    exact (proj1 (proj2 (proj2 (Hb octocat _ emptyPage Hp eq_refl eq_refl
                                   eq_refl eq_refl eq_refl)))).
Defined.

(** ** The window [main] builds *)

Lemma toDate_le (a b : Z) : (toDate a <=? toDate b) = (a <=? b).
Proof.
  unfold toDate, msPerDay.
  destruct (a <=? b) eqn:E.
  - apply Z.leb_le in E. apply Z.leb_le. lia.
  - apply Z.leb_gt in E. apply Z.leb_gt. lia.
Qed.

Lemma shiftUTCDate_toDate (a n : Z) : shiftUTCDate (toDate a) n = toDate (a + n).
Proof. unfold shiftUTCDate, toDate. lia. Qed.

(** The loop of [dateRange] stops by itself after [end - start + 1] rounds:
    more rounds add nothing. *)
Lemma dateRangeLoop_days (n k : nat) (start end_ : Z) :
  Z.of_nat n = Z.max 0 (end_ - start + 1) ->
  dateRangeLoop (n + k) (toDate start) (toDate end_)
  = (fun i => start + Z.of_nat i) <$> seq 0 n.
Proof.
  revert start. induction n as [| n IH]; intros start Hn.
  - destruct k as [| k]; [reflexivity |]. simpl.
    rewrite toDate_le. destruct (start <=? end_) eqn:E; [| reflexivity].
    apply Z.leb_le in E. lia.
  - cbn [Nat.add dateRangeLoop]. rewrite toDate_le.
    destruct (start <=? end_) eqn:E; [| apply Z.leb_gt in E; lia].
    apply Z.leb_le in E.
    rewrite iso_toDate, shiftUTCDate_toDate, IH by lia.
    cbn [seq fmap list_fmap]. rewrite Z.add_0_r. f_equal.
    rewrite <- fmap_S_seq, <- list_fmap_compose.
    apply list_fmap_ext. intros _ i _. simpl. lia.
Qed.

Lemma dateRange_days (start end_ : Z) :
  dateRange start end_
  = (fun i => start + Z.of_nat i) <$> seq 0 (Z.to_nat (end_ - start + 1)).
Proof.
  unfold dateRange.
  rewrite <- (Nat.add_0_r (Z.to_nat (end_ - start + 1))) at 1.
  apply dateRangeLoop_days. lia.
Qed.

Lemma contiguousFrom_days (counts : Z -> Z) (n : nat) (start : Z) :
  contiguousFrom (start - 1)
    ((fun date => {| date := date; count := counts date |})
       <$> ((fun i => start + Z.of_nat i) <$> seq 0 n)) = true.
Proof.
  revert start. induction n as [| n IH]; intros start; [reflexivity |].
  cbn [seq fmap list_fmap contiguousFrom date].
  rewrite Z.add_0_r.
  replace (start =? start - 1 + 1) with true by (symmetry; apply Z.eqb_eq; lia).
  simpl andb.
  specialize (IH (start + 1)). replace (start + 1 - 1) with start in IH by lia.
  rewrite <- IH. f_equal. f_equal.
  rewrite <- fmap_S_seq, <- list_fmap_compose.
  apply list_fmap_ext. intros _ i _. simpl. lia.
Qed.

(** The day series [main] hands to [render] is a contiguous window. *)
Lemma main_days_contiguous (counts : Z -> Z) (start end_ : Z) :
  contiguous ((fun date => {| date := date; count := counts date |})
                <$> dateRange start end_) = true.
Proof.
  rewrite dateRange_days.
  destruct (Z.to_nat (end_ - start + 1)) as [| n]; [reflexivity |].
  cbn [seq fmap list_fmap contiguous date]. rewrite Z.add_0_r.
  pose proof (contiguousFrom_days counts n (start + 1)) as H.
  replace (start + 1 - 1) with start in H by lia.
  rewrite <- H. f_equal. f_equal.
  rewrite <- fmap_S_seq, <- list_fmap_compose.
  apply list_fmap_ext. intros _ i _. simpl. lia.
Qed.

(** * Further properties *)

(** ** Dates and the window *)

(** X1: [dateRange(start, end)] lists the days from [start] to [end] in
    order: it has [end - start + 1] entries (none when [end] is before
    [start]) and its entry [i] is the day [start + i]. *)
Theorem dateRange_lists_days (start end_ : Z) :
  length (dateRange start end_) = Z.to_nat (end_ - start + 1) /\
  (forall i : nat, (i < Z.to_nat (end_ - start + 1))%nat ->
     dateRange start end_ !! i = Some (start + Z.of_nat i)) /\
  (forall d : Z, d ∈ dateRange start end_ <-> start <= d <= end_).
Proof.
  rewrite dateRange_days. split; [| split].
  - rewrite length_fmap, length_seq. reflexivity.
  - intros i Hi. rewrite list_lookup_fmap, lookup_seq_lt by exact Hi. reflexivity.
  - intros d. rewrite list_elem_of_fmap. split.
    + intros (i & -> & Hi). apply elem_of_seq in Hi. lia.
    + intros Hd. exists (Z.to_nat (d - start)). split; [lia |].
      apply elem_of_seq. lia.
Qed.

(** X2: [alignSunday] returns a Sunday, the last one on or before the given
    day; aligning twice changes nothing. *)
Theorem alignSunday_is_last_sunday (n : Z) :
  getUTCDay (toDate (alignSunday n)) = 0 /\
  n - 6 <= alignSunday n <= n /\
  alignSunday (alignSunday n) = alignSunday n.
Proof.
  assert (Hs : (alignSunday n + 4) mod 7 = 0).
  { rewrite alignSunday_sub.
    replace (n - (n + 4) mod 7 + 4) with (n + 4 - (n + 4) mod 7) by lia.
    rewrite Zminus_mod, Z.mod_mod, Z.sub_diag by lia. reflexivity. }
  pose proof (Z.mod_pos_bound (n + 4) 7 ltac:(lia)) as Hm.
  split; [rewrite getUTCDay_toDate; exact Hs |].
  split; [rewrite alignSunday_sub; lia |].
  rewrite (alignSunday_sub (alignSunday n)), Hs. lia.
Qed.

Lemma addDays_add (a n : Z) : addDays a n = a + n.
Proof. unfold addDays. rewrite shiftUTCDate_toDate. apply iso_toDate. Qed.

(** X3: [addDays] and [diffDays] undo each other: the day [n] days after
    [a] is [n] days away from [a], going back [n] days returns to [a], and
    differences add up. *)
Theorem addDays_diffDays_round_trip (a b c n : Z) :
  diffDays (addDays a n) a = n /\
  addDays (addDays a n) (- n) = a /\
  addDays b (diffDays a b) = a /\
  diffDays a b + diffDays b c = diffDays a c.
Proof.
  rewrite !diffDays_sub, !addDays_add. repeat split; lia.
Qed.

Lemma windowOf_bounds (world : World) (args : Args) :
  (windowOf world args).2 = iso (now world) /\
  ((windowOf world args).1 + 4) mod 7 = 0 /\
  lookbackOf (duration args)
    <= (windowOf world args).2 - (windowOf world args).1
    <= lookbackOf (duration args) + 6.
Proof.
  unfold windowOf. cbn [fst snd].
  set (e := iso (now world)).
  assert (Hl : match duration args with FullYear => 365 | HalfYear => 180 end
               = lookbackOf (duration args)) by reflexivity.
  rewrite Hl, addDays_add, alignSunday_sub.
  set (s := e + - lookbackOf (duration args)).
  pose proof (Z.mod_pos_bound (s + 4) 7 ltac:(lia)) as Hm.
  split; [reflexivity |]. split; [| subst s; lia].
  replace (s - (s + 4) mod 7 + 4) with (s + 4 - (s + 4) mod 7) by lia.
  rewrite Zminus_mod, Z.mod_mod, Z.sub_diag by lia. reflexivity.
Qed.

Lemma windowDays_head_last (counts : Z -> Z) (start end_ : Z) :
  start <= end_ ->
  exists d0 dn : Day,
    head (windowDays counts start end_) = Some d0 /\ date d0 = start /\
    last (windowDays counts start end_) = Some dn /\ date dn = end_.
Proof.
  intros Hle. unfold windowDays. rewrite dateRange_days.
  set (n := Z.to_nat (end_ - start + 1)).
  assert (Hn : n = S (Z.to_nat (end_ - start))) by lia.
  rewrite Hn.
  eexists. eexists. split; [cbn [seq fmap list_fmap head]; reflexivity |].
  split; [simpl; lia |].
  rewrite seq_S, !fmap_app. cbn [fmap list_fmap].
  rewrite last_snoc. split; [reflexivity |]. simpl. lia.
Qed.

(** X4: the window [main] asks for ends today and starts on the last
    Sunday on or before [today - lookback]; the day series built from it is
    contiguous with between [lookback + 1] and [lookback + 7] days, so its
    grid has 52 or 53 as [totalWeeks] for a full year and 25 or 26 for half
    a year. *)
Theorem main_window_shape (counts : Z -> Z) (world : World) (args : Args) :
  let start := (windowOf world args).1 in
  let end_ := (windowOf world args).2 in
  let days := windowDays counts start end_ in
  end_ = iso (now world) /\
  getUTCDay (toDate start) = 0 /\
  contiguous days = true /\
  lookbackOf (duration args) + 1 <= Z.of_nat (length days)
    <= lookbackOf (duration args) + 7 /\
  gridStartOf days = Some start /\
  exists totalWeeks : Z,
    totalWeeksOf days = Some totalWeeks /\
    match duration args with
    | FullYear => totalWeeks = 52 \/ totalWeeks = 53
    | HalfYear => totalWeeks = 25 \/ totalWeeks = 26
    end.
Proof.
  intros start end_ days.
  destruct (windowOf_bounds world args) as (He & Hs & Hb).
  fold start end_ in He, Hs, Hb.
  assert (Hle : start <= end_) by (destruct (duration args); simpl in Hb; lia).
  destruct (windowDays_head_last counts start end_ Hle) as (d0 & dn & H0 & Hd0 & Hn & Hdn).
  fold days in H0, Hn.
  assert (Ha : alignSunday start = start) by (rewrite alignSunday_sub, Hs; lia).
  split; [exact He |].
  split; [rewrite getUTCDay_toDate; exact Hs |].
  split; [apply main_days_contiguous |].
  split.
  { unfold days, windowDays. rewrite length_fmap, dateRange_days, length_fmap, length_seq. lia. }
  split; [unfold gridStartOf; rewrite H0; cbn [mbind option_bind]; congruence |].
  exists ((end_ - start) / 7).
  rewrite (totalWeeksOf_div days d0 dn H0 Hn), Hd0, Hdn, Ha.
  split; [reflexivity |].
  destruct (duration args); simpl in Hb.
  - assert (25 <= (end_ - start) / 7) by (apply Z.div_le_lower_bound; lia).
    assert ((end_ - start) / 7 < 27) by (apply Z.div_lt_upper_bound; lia).
    lia.
  - assert (52 <= (end_ - start) / 7) by (apply Z.div_le_lower_bound; lia).
    assert ((end_ - start) / 7 < 54) by (apply Z.div_lt_upper_bound; lia).
    lia.
Qed.

(** ** Cells and keys *)

Lemma gridStart_sunday (days : list Day) (gridStart : Z) :
  gridStartOf days = Some gridStart -> (gridStart + 4) mod 7 = 0.
Proof.
  unfold gridStartOf. destruct (head days) as [d0 |]; [| discriminate].
  cbn [mbind option_bind]. intros [= <-].
  rewrite alignSunday_sub.
  replace (date d0 - (date d0 + 4) mod 7 + 4)
    with (date d0 + 4 - (date d0 + 4) mod 7) by lia.
  rewrite Zminus_mod, Z.mod_mod, Z.sub_diag by lia. reflexivity.
Qed.

Lemma date_of_cell (gridStart totalWeeks : Z) (d : Day) :
  (gridStart + 4) mod 7 = 0 ->
  date d = gridStart + 7 * (totalWeeks - weekOf totalWeeks gridStart d) + dowOf d.
Proof.
  intros Hg. rewrite weekOf_div, dowOf_mod.
  assert (Hm : (date d - gridStart) mod 7 = (date d + 4) mod 7).
  { replace (date d - gridStart) with (date d + 4 - (gridStart + 4)) by lia.
    rewrite Zminus_mod, Hg, Z.sub_0_r, Z.mod_mod by lia. reflexivity. }
  pose proof (Z.div_mod (date d - gridStart) 7 ltac:(lia)). lia.
Qed.

(** X5: the cell of a day determines its date: with [gridStart] and
    [totalWeeks] as [render] computes them, a day's date is
    [gridStart + 7 * (totalWeeks - week) + dow], so two days in the same
    cell have the same date. *)
Theorem cell_determines_date (days : list Day) (gridStart totalWeeks : Z)
        (d1 d2 : Day) :
  gridStartOf days = Some gridStart ->
  date d1 = gridStart + 7 * (totalWeeks - weekOf totalWeeks gridStart d1) + dowOf d1 /\
  (weekOf totalWeeks gridStart d1 = weekOf totalWeeks gridStart d2 ->
   dowOf d1 = dowOf d2 -> date d1 = date d2).
Proof.
  intros Hg. apply gridStart_sunday in Hg.
  split; [apply date_of_cell; exact Hg |].
  intros Hw Hd.
  rewrite (date_of_cell gridStart totalWeeks d1 Hg),
          (date_of_cell gridStart totalWeeks d2 Hg), Hw, Hd.
  reflexivity.
Qed.

Lemma cell_determines_date_witness :
  gridStartOf (scenarioDays 19722) = Some 19722 /\
  (19800 = 19722 + 7 * (52 - weekOf 52 19722 {| date := 19800; count := 0 |})
           + dowOf {| date := 19800; count := 0 |}) /\
  (weekOf 52 19722 {| date := 19800; count := 0 |}
   = weekOf 52 19722 {| date := 19800; count := 5 |} ->
   dowOf {| date := 19800; count := 0 |} = dowOf {| date := 19800; count := 5 |} ->
   19800 = 19800).
Proof.
  assert (Hg : gridStartOf (scenarioDays 19722) = Some 19722) by reflexivity.
  split; [exact Hg |].
  exact (cell_determines_date (scenarioDays 19722) 19722 52
           {| date := 19800; count := 0 |} {| date := 19800; count := 5 |} Hg).
Defined.

(** The decimal text of an integer has no comma in it. *)
Lemma pretty_N_char_no_comma (x : N) : pretty_N_char x <> ","%char.
Proof. unfold pretty_N_char. repeat case_match; discriminate. Qed.

Lemma pretty_N_go_commaFree (x : N) (s : string) :
  commaFree s = true -> commaFree (pretty_N_go x s) = true.
Proof.
  revert s. induction (N.lt_wf_0 x) as [x _ IH]; intros s Hs.
  destruct (decide (x = 0)%N) as [-> | Hx].
  - rewrite pretty_N_go_0. exact Hs.
  - rewrite pretty_N_go_step by lia. apply IH.
    + apply N.div_lt; lia.
    + cbn [commaFree]. rewrite Hs, andb_true_r.
      apply negb_true_iff, Ascii.eqb_neq, pretty_N_char_no_comma.
Qed.

Lemma pretty_N_commaFree (x : N) : commaFree (pretty x) = true.
Proof.
  unfold pretty, pretty_N. destruct (decide (x = 0)%N); [reflexivity |].
  apply pretty_N_go_commaFree. reflexivity.
Qed.

Lemma pretty_Z_commaFree (z : Z) : commaFree (pretty z) = true.
Proof.
  destruct z as [| p | p]; [reflexivity | apply (pretty_N_commaFree (N.pos p)) |].
  change (pretty (Z.neg p)) with (String "-" (pretty (N.pos p))).
  cbn [commaFree]. rewrite (pretty_N_commaFree (N.pos p)). reflexivity.
Qed.

(** Two texts cut at their first comma agree on both sides of it. *)
Lemma comma_split (s1 s2 t1 t2 : string) :
  commaFree s1 = true -> commaFree s2 = true ->
  s1 +:+ "," +:+ t1 = s2 +:+ "," +:+ t2 -> s1 = s2 /\ t1 = t2.
Proof.
  revert s2. induction s1 as [| c s1 IH]; intros [| c' s2] H1 H2 He;
    cbn [String.append commaFree] in *.
  - injection He as He. auto.
  - injection He as <- _. discriminate H2.
  - injection He as -> _. discriminate H1.
  - injection He as <- He.
    apply andb_true_iff in H1 as [_ H1]. apply andb_true_iff in H2 as [_ H2].
    destruct (IH s2 H1 H2 He) as [-> ->]. auto.
Qed.

Lemma key_inj (w1 d1 w2 d2 : Z) : key w1 d1 = key w2 d2 -> w1 = w2 /\ d1 = d2.
Proof.
  unfold key. intros He.
  apply comma_split in He as [Hw Hd]; try apply pretty_Z_commaFree.
  split; [exact (pretty_Z_inj _ _ Hw) | exact (pretty_Z_inj _ _ Hd)].
Qed.

(** ** The shape of the path *)

Lemma linked_snoc (R : Waypoint -> Waypoint -> Prop)
      (l : list Waypoint) (p q : Waypoint) :
  linked R (l ++ [p]) -> R p q -> linked R ((l ++ [p]) ++ [q]).
Proof.
  intros Hl Hpq i a b Ha Hb.
  assert (Hi : (S i < length ((l ++ [p]) ++ [q]))%nat)
    by (eapply lookup_lt_Some; exact Hb).
  rewrite !length_app in Hi. simpl in Hi.
  destruct (decide (S i < length (l ++ [p]))%nat) as [Hlt | Hge].
  - rewrite lookup_app_l in Ha by lia. rewrite lookup_app_l in Hb by lia.
    eapply Hl; eassumption.
  - rewrite length_app in Hge. simpl in Hge.
    rewrite lookup_app_r in Hb by (rewrite length_app; simpl; lia).
    rewrite length_app in Hb. simpl in Hb.
    replace (S i - (length l + 1))%nat with 0%nat in Hb by lia.
    injection Hb as <-.
    rewrite lookup_app_l in Ha by (rewrite length_app; simpl; lia).
    rewrite lookup_app_r in Ha by lia.
    replace (i - length l)%nat with 0%nat in Ha by lia.
    injection Ha as <-. exact Hpq.
Qed.

Lemma moves_unit_step (m : Move) :
  m ∈ moves -> Z.max (Z.abs (dw m)) (Z.abs (dd m)) = 1.
Proof.
  intros Hm. apply list_elem_of_In in Hm. simpl in Hm.
  repeat (destruct Hm as [<- | Hm]; [reflexivity |]). destruct Hm.
Qed.

Lemma pushHistory_subset (h : list string) (k k' : string) :
  k' ∈ pushHistory h k -> k' ∈ h \/ k' = k.
Proof.
  unfold pushHistory.
  assert (Hall : k' ∈ h ++ [k] -> k' ∈ h \/ k' = k).
  { rewrite elem_of_app, list_elem_of_singleton. tauto. }
  destruct (historyLen <? length (h ++ [k]))%nat; [| exact Hall].
  intros Hin. apply Hall. destruct (h ++ [k]) as [| x t]; [inversion Hin |].
  right. exact Hin.
Qed.

Section PathProperties.
Variable totalWeeks : Z.
Variable barHeightMap : gmap string Q.
Variable random : nat -> Q.
Hypothesis random_unit : inUnit random.

Lemma pathInv_start : pathInv totalWeeks barHeightMap (walkStart barHeightMap).
Proof.
  exists [], (getPt barHeightMap 20 5). simpl.
  split; [reflexivity |]. split; [reflexivity |].
  split; [intros i a b Ha Hb; destruct i; discriminate Hb |].
  split; [intros i a Hi Ha; destruct i; [lia | discriminate Ha] |].
  split; [intros a Ha; apply list_elem_of_singleton in Ha; subst a; reflexivity |].
  split; [lia |]. split; [lia |]. split; [lia |].
  intros k Hk. inversion Hk.
Qed.

Lemma pathInv_step (s s' : WalkState) :
  pathInv totalWeeks barHeightMap s ->
  step totalWeeks barHeightMap random s = Committed s' ->
  pathInv totalWeeks barHeightMap s'.
Proof.
  intros (l & p & Hw & Hp & Hadj & Hin & Hpt & HD & HW & HW0 & Hh) Hs.
  destruct (step_committed totalWeeks barHeightMap random random_unit s s' Hs)
    as (m & Hm & Hfw & Hob & _ & HW' & HD' & _ & _ & Hh' & Hw').
  pose proof (moves_unit_step m Hm) as Hu.
  unfold outOfBounds in Hob.
  apply orb_false_iff in Hob as [Hob Hb4]. apply orb_false_iff in Hob as [Hob Hb3].
  apply orb_false_iff in Hob as [Hb1 Hb2].
  apply Z.ltb_ge in Hb1, Hb3, Hb4. apply Z.leb_gt in Hb2.
  set (q := getPt barHeightMap (currW s') (currD s')) in *.
  injection Hp as Hpw Hpd.
  exists (waypoints s), q.
  split; [exact Hw' |]. split; [reflexivity |].
  split.
  { rewrite Hw', Hw. apply linked_snoc; [rewrite <- Hw; exact Hadj |].
    unfold chebyshev. subst q. simpl. rewrite Hpw, Hpd, HW', HD'.
    replace (currW s + dw m - currW s) with (dw m) by lia.
    replace (currD s + dd m - currD s) with (dd m) by lia. exact Hu. }
  split.
  { intros i a Hi Ha. rewrite Hw' in Ha.
    destruct (decide (i < length (waypoints s))%nat) as [Hlt | Hge].
    - rewrite lookup_app_l in Ha by exact Hlt. eapply Hin; eassumption.
    - apply lookup_lt_Some in Ha as Hlen. rewrite length_app in Hlen. simpl in Hlen.
      rewrite lookup_app_r in Ha by lia.
      replace (i - length (waypoints s))%nat with 0%nat in Ha by lia.
      injection Ha as <-. unfold inGrid. subst q. simpl. lia. }
  split.
  { intros a Ha. rewrite Hw' in Ha. apply elem_of_app in Ha as [Ha | Ha].
    - apply Hpt. exact Ha.
    - apply list_elem_of_singleton in Ha. subst a. reflexivity. }
  split; [lia |].
  split.
  { rewrite Hw, length_app. simpl.
    assert (Z.abs (dw m) <= 1) by lia. lia. }
  split; [lia |].
  intros k Hk. rewrite Hh' in Hk. apply pushHistory_subset in Hk as [Hk | ->].
  - destruct (Hh k Hk) as (w & d & -> & Hle). exists w, d. split; [reflexivity | lia].
  - exists (currW s'), (currD s'). split; [reflexivity | lia].
Qed.

Lemma pathInv_trapped (s s' : WalkState) :
  pathInv totalWeeks barHeightMap s ->
  step totalWeeks barHeightMap random s = Trapped s' ->
  pathInv totalWeeks barHeightMap s'.
Proof.
  intros (l & p & Hw & Hp & Hadj & Hin & Hpt & HD & HW & HW0 & Hh) Ht.
  destruct (step_trapped totalWeeks barHeightMap random s s' Ht) as (EW & ED & EH & EP).
  exists l, p. rewrite EW, ED, EH, EP. auto 10.
Qed.

Lemma walk_pathInv (s : WalkState) :
  walk totalWeeks barHeightMap random = Some s ->
  pathInv totalWeeks barHeightMap s.
Proof.
  apply walkLoop_invariant; [exact pathInv_step | exact pathInv_trapped | exact pathInv_start].
Qed.

(** Each round of the loop adds one waypoint at most. *)
Lemma walkLoop_length (i : nat) (s s' : WalkState) :
  walkLoop totalWeeks barHeightMap random i s = Some s' ->
  (length (waypoints s) <= length (waypoints s') <= length (waypoints s) + i)%nat.
Proof.
  revert s. induction i as [| i IH]; intros s Hw; simpl in Hw.
  - injection Hw as <-. lia.
  - destruct (step totalWeeks barHeightMap random s) as [s1 | s1 |] eqn:E;
      [| | discriminate].
    + destruct (step_committed totalWeeks barHeightMap random random_unit s s1 E)
        as (m & _ & _ & _ & _ & _ & _ & _ & _ & _ & Hw1).
      specialize (IH s1 Hw). rewrite Hw1, length_app in IH. simpl in IH. lia.
    + injection Hw as <-.
      destruct (step_trapped totalWeeks barHeightMap random s s1 E) as (_ & _ & _ & ->).
      lia.
Qed.
End PathProperties.

(** ** When the walk stops *)

Section Progress.
Variable totalWeeks : Z.
Variable barHeightMap : gmap string Q.
Variable random : nat -> Q.
Hypothesis random_unit : inUnit random.

Lemma gather_complete (s : WalkState) (ms : list Move) (n : nat) (m : Move) :
  m ∈ ms ->
  outOfBounds totalWeeks (currW s + dw m) (currD s + dd m) = false ->
  exists k : nat,
    {| c_w := currW s + dw m; c_d := currD s + dd m;
       score := scoreOf barHeightMap s m (random k); move := m |}
    ∈ (gather totalWeeks barHeightMap random s ms n).1.
Proof.
  revert n. induction ms as [| m' ms IH]; intros n Hm Hb; [inversion Hm |].
  cbn [gather].
  destruct (outOfBounds totalWeeks (currW s + dw m') (currD s + dd m')) eqn:Hb'.
  - apply elem_of_cons in Hm as [-> | Hm]; [congruence |]. apply IH; assumption.
  - destruct (gather totalWeeks barHeightMap random s ms (S n)) as [cs n'] eqn:Hg.
    cbn [fst]. apply elem_of_cons in Hm as [-> | Hm].
    + exists n. left.
    + destruct (IH (S n) Hm Hb) as [k Hk]. rewrite Hg in Hk.
      exists k. right. exact Hk.
Qed.

(** A candidate that is neither in the buffer nor backwards is above the
    cutoff. *)
Lemma scoreOf_lower (s : WalkState) (m : Move) (r : Q) :
  (0 <= r)%Q ->
  includes (recentHistory s) (key (currW s + dw m) (currD s + dd m)) = false ->
  0 <= dw m - dd m ->
  (-500 < scoreOf barHeightMap s m r)%Q.
Proof.
  intros H0 Hh Hf. apply Z.ltb_ge in Hf.
  unfold scoreOf. rewrite Hh, Hf. cbv zeta.
  repeat case_match; lra.
Qed.

Lemma step_trapped_scores (s s' : WalkState) (c : Candidate) :
  step totalWeeks barHeightMap random s = Trapped s' ->
  c ∈ (gather totalWeeks barHeightMap random s moves (draws s)).1 ->
  (score c <= -500)%Q.
Proof.
  unfold step.
  destruct (gather totalWeeks barHeightMap random s moves (draws s)) as [cands n].
  destruct (List.filter _ _) as [| v valid] eqn:Hf;
    [| destruct (index _ _); discriminate].
  intros _ Hc. cbn [fst] in Hc.
  destruct (Qle_bool (score c) (-500)) eqn:E; [apply Qle_bool_iff; exact E |].
  exfalso.
  assert (Hin : In c (List.filter (fun c => negb (Qle_bool (score c) (-500)))
                        (jsSort (fun a b => (score b - score a)%Q) cands))).
  { apply filter_In. split; [| rewrite E; reflexivity].
    apply list_elem_of_In, jsSort_elem. exact Hc. }
  rewrite Hf in Hin. destruct Hin.
Qed.

(** As long as the week ahead is in bounds the walk goes on: the cell one
    week on is ahead of every cell in the buffer. *)
Lemma step_goes_on (s : WalkState) :
  pathInv totalWeeks barHeightMap s ->
  currW s + 1 < totalWeeks ->
  exists s' : WalkState, step totalWeeks barHeightMap random s = Committed s'.
Proof.
  intros (l & p & _ & _ & _ & _ & _ & HD & _ & HW0 & Hh) Hlt.
  destruct (step totalWeeks barHeightMap random s) as [s1 | s1 |] eqn:E.
  - eauto.
  - exfalso.
    set (m := {| dw := 1; dd := 0 |}).
    assert (Hm : m ∈ moves) by left.
    assert (Hb : outOfBounds totalWeeks (currW s + dw m) (currD s + dd m) = false).
    { unfold outOfBounds. simpl.
      rewrite Z.add_0_r.
      replace (currW s + 1 <? 0) with false by (symmetry; apply Z.ltb_ge; lia).
      replace (totalWeeks <=? currW s + 1) with false by (symmetry; apply Z.leb_gt; lia).
      replace (currD s <? 0) with false by (symmetry; apply Z.ltb_ge; lia).
      replace (6 <? currD s) with false by (symmetry; apply Z.ltb_ge; lia).
      reflexivity. }
    destruct (gather_complete s moves (draws s) m Hm Hb) as [k Hk].
    pose proof (step_trapped_scores s s1 _ E Hk) as Hle. cbn [score] in Hle.
    assert (Hgt : (-500 < scoreOf barHeightMap s m (random k))%Q).
    { apply scoreOf_lower; [apply random_unit | | simpl; lia].
      unfold includes. apply bool_decide_eq_false. intros Hin.
      destruct (Hh _ Hin) as (w & d & Hk' & Hle').
      apply key_inj in Hk' as [<- <-]. simpl in Hle'. lia. }
    lra.
  - exfalso. exact (step_defined totalWeeks barHeightMap random random_unit s E).
Qed.

(** A walk that ends with waypoints to spare has run into the last week
    the bounds allow. *)
Lemma walkLoop_short (i : nat) (s s' : WalkState) :
  pathInv totalWeeks barHeightMap s ->
  walkLoop totalWeeks barHeightMap random i s = Some s' ->
  (length (waypoints s') < length (waypoints s) + i)%nat ->
  totalWeeks <= currW s' + 1.
Proof.
  revert s. induction i as [| i IH]; intros s Hinv Hw Hlen; simpl in Hw.
  - injection Hw as <-. lia.
  - destruct (step totalWeeks barHeightMap random s) as [s1 | s1 |] eqn:E;
      [| | discriminate].
    + apply (IH s1); [eapply pathInv_step; eassumption | exact Hw |].
      destruct (step_committed totalWeeks barHeightMap random random_unit s s1 E)
        as (m & _ & _ & _ & _ & _ & _ & _ & _ & _ & Hw1).
      rewrite Hw1, length_app. simpl. lia.
    + injection Hw as <-.
      destruct (step_trapped totalWeeks barHeightMap random s s1 E) as (EW & _).
      rewrite EW. apply Z.le_ngt. intros Hlt.
      destruct (step_goes_on s Hinv Hlt) as [s2 E2]. congruence.
Qed.
End Progress.

(** ** Bar heights *)

Lemma q_max_maxCount (days : list Day) : q_max (quantileLevels days) = maxCount days.
Proof.
  unfold quantileLevels. destruct (positiveVals days); [reflexivity |].
  destruct (quantiles _) as [[q1 q2] q3]. reflexivity.
Qed.

Lemma maxCount_upper (days : list Day) :
  0 <= maxCount days /\ forall d : Day, d ∈ days -> count d <= maxCount days.
Proof.
  unfold maxCount. induction days as [| a days [IH0 IH]]; simpl.
  - split; [lia | intros d Hd; inversion Hd].
  - split; [lia |]. intros d Hd. apply elem_of_cons in Hd as [-> | Hd]; [lia |].
    specialize (IH d Hd). lia.
Qed.

Lemma barHeight_range (max : Z) (d : Day) :
  0 < count d <= max -> (0 < barHeight max d <= maxBarH)%Q.
Proof.
  intros [Hc Hm]. unfold barHeight, maxBarH.
  replace (0 <? max) with true by (symmetry; apply Z.ltb_lt; lia).
  assert (Hmq : (0 < inject_Z max)%Q)
    by (change 0%Q with (inject_Z 0); rewrite <- Zlt_Qlt; lia).
  assert (Hcq : (0 < inject_Z (count d))%Q)
    by (change 0%Q with (inject_Z 0); rewrite <- Zlt_Qlt; lia).
  assert (Hle : (inject_Z (count d) <= inject_Z max)%Q) by (rewrite <- Zle_Qle; lia).
  assert (H1 : (0 < inject_Z (count d) / inject_Z max)%Q)
    by (apply Qlt_shift_div_l; [exact Hmq | lra]).
  assert (H2 : (inject_Z (count d) / inject_Z max <= 1)%Q)
    by (apply Qle_shift_div_r; [exact Hmq | lra]).
  split; lra.
Qed.

Lemma barHeightMapOf_fold (P : Q -> Prop) (max totalWeeks gridStart : Z)
      (l : list Day) (m : gmap string Q) :
  (forall d : Day, d ∈ l -> 0 < count d -> P (barHeight max d)) ->
  (forall (k : string) (v : Q), m !! k = Some v -> P v) ->
  forall (k : string) (v : Q),
    foldl (fun m d =>
             if count d <=? 0 then m
             else <[key (weekOf totalWeeks gridStart d) (dowOf d) := barHeight max d]> m)
          m l !! k = Some v -> P v.
Proof.
  revert m. induction l as [| a l IH]; intros m Hl Hm k v; [apply Hm |].
  cbn [foldl]. apply IH.
  - intros d Hd. apply Hl. right. exact Hd.
  - destruct (count a <=? 0) eqn:E; [exact Hm |].
    apply Z.leb_gt in E. intros k' v' Hk'.
    apply lookup_insert_Some in Hk' as [[_ <-] | [_ Hk']].
    + apply Hl; [left | exact E].
    + eapply Hm. exact Hk'.
Qed.

Lemma barHeightMapOf_values (totalWeeks gridStart : Z) (days : list Day)
      (k : string) (v : Q) :
  barHeightMapOf (maxCount days) totalWeeks gridStart days !! k = Some v ->
  (0 < v <= maxBarH)%Q.
Proof.
  unfold barHeightMapOf.
  apply (barHeightMapOf_fold (fun v => (0 < v <= maxBarH)%Q)).
  - intros d Hd Hc. apply barHeight_range.
    split; [exact Hc | apply maxCount_upper; exact Hd].
  - intros k' v' Hk'. rewrite lookup_empty in Hk'. discriminate.
Qed.

(** ** The path [render] draws *)

Lemma walkOf_parts (random : nat -> Q) (days : list Day) (s : WalkState) :
  walkOf random days = Some s ->
  exists gridStart totalWeeks : Z,
    gridStartOf days = Some gridStart /\
    totalWeeksOf days = Some totalWeeks /\
    walk totalWeeks
         (barHeightMapOf (maxCount days) totalWeeks gridStart days) random = Some s.
Proof.
  unfold walkOf.
  destruct (gridStartOf days) as [g |]; [| discriminate].
  destruct (totalWeeksOf days) as [tw |]; [| discriminate].
  cbn [mbind option_bind]. rewrite q_max_maxCount. eauto.
Qed.

Lemma walk_head (totalWeeks : Z) (bh : gmap string Q) (random : nat -> Q)
      (s : WalkState) :
  inUnit random ->
  walk totalWeeks bh random = Some s ->
  head (waypoints s) = Some (getPt bh 20 5).
Proof.
  intros Hr. apply (walkLoop_invariant totalWeeks bh random
                      (fun s => head (waypoints s) = Some (getPt bh 20 5))).
  - intros s0 s1 H0 Hs.
    destruct (step_committed totalWeeks bh random Hr s0 s1 Hs)
      as (m & _ & _ & _ & _ & _ & _ & _ & _ & _ & ->).
    destruct (waypoints s0); [discriminate H0 | exact H0].
  - intros s0 s1 H0 Ht.
    destruct (step_trapped totalWeeks bh random s0 s1 Ht) as (_ & _ & _ & ->).
    exact H0.
  - reflexivity.
Qed.

(** X6: the path of every run starts at week 20, day 5, has 81 waypoints
    at most, steps from each waypoint to one of its eight neighbours on the
    grid, and after its start point stays inside the bounds
    [0 <= week < totalWeeks], [0 <= day <= 6]. *)
Theorem walk_path_shape (random : nat -> Q) (days : list Day) :
  inUnit random -> days <> [] ->
  exists (totalWeeks : Z) (wps : list Waypoint),
    totalWeeksOf days = Some totalWeeks /\
    waypointsOf random days = Some wps /\
    cell <$> head wps = Some (20, 5) /\
    (1 <= length wps <= steps + 1)%nat /\
    linked (fun a b => chebyshev a b = 1) wps /\
    forall (i : nat) (a : Waypoint),
      (1 <= i)%nat -> wps !! i = Some a -> inGrid totalWeeks a.
Proof.
  intros Hr Hne. destruct (walkOf_defined random days Hr Hne) as [s Hs].
  destruct (walkOf_parts random days s Hs) as (g & tw & Hg & Ht & Hw).
  exists tw, (waypoints s). split; [exact Ht |].
  split; [unfold waypointsOf; rewrite Hs; reflexivity |].
  split; [rewrite (walk_head _ _ _ s Hr Hw); reflexivity |].
  pose proof (walkLoop_length _ _ _ Hr _ _ _ Hw) as Hlen. simpl in Hlen.
  destruct (walk_pathInv _ _ _ Hr s Hw)
    as (l & p & Hwp & _ & Hadj & Hin & _).
  split; [unfold steps in *; cbn [walkStart waypoints length] in Hlen; lia |]. split; [exact Hadj | exact Hin].
Qed.

Lemma walk_path_shape_witness :
  inUnit alternating /\ scenarioDays 19722 <> [] /\
  exists (totalWeeks : Z) (wps : list Waypoint),
    totalWeeksOf (scenarioDays 19722) = Some totalWeeks /\
    waypointsOf alternating (scenarioDays 19722) = Some wps /\
    cell <$> head wps = Some (20, 5) /\
    (1 <= length wps <= steps + 1)%nat /\
    linked (fun a b => chebyshev a b = 1) wps /\
    forall (i : nat) (a : Waypoint),
      (1 <= i)%nat -> wps !! i = Some a -> inGrid totalWeeks a.
Proof.
  split; [exact alternating_inUnit |].
  split; [exact (scenarioDays_nonempty 19722) |].
  exact (walk_path_shape alternating (scenarioDays 19722)
           alternating_inUnit (scenarioDays_nonempty 19722)).
Defined.



Lemma totalWeeksOf_nonempty (days : list Day) (totalWeeks : Z) :
  totalWeeksOf days = Some totalWeeks -> days <> [].
Proof. intros H ->. discriminate H. Qed.

Lemma dragonLayer_head (wps : list Waypoint) :
  (4 <= length wps)%nat -> DragonHead ∈ dragonLayer wps.
Proof.
  intros H. unfold dragonLayer.
  replace (4 <=? length wps)%nat with true by (symmetry; apply Nat.leb_le; exact H).
  destruct wps as [| p0 rest]; [simpl in H; lia |].
  rewrite !elem_of_app. right. right. left.
Qed.

Lemma filter_nil_all {A : Type} (f : A -> bool) (l : list A) (a : A) :
  List.filter f l = [] -> a ∈ l -> f a = false.
Proof.
  intros Hf Ha. destruct (f a) eqn:E; [| reflexivity].
  assert (Hin : In a (List.filter f l))
    by (apply filter_In; split; [apply list_elem_of_In; exact Ha | exact E]).
  rewrite Hf in Hin. destruct Hin.
Qed.

(** With 25 weeks or more the first four steps cannot be trapped. *)
Lemma walkOf_five (random : nat -> Q) (days : list Day) (totalWeeks : Z) :
  inUnit random -> totalWeeksOf days = Some totalWeeks -> 25 <= totalWeeks ->
  exists s : WalkState,
    walkOf random days = Some s /\ (5 <= length (waypoints s))%nat.
Proof.
  intros Hr Ht Htw.
  pose proof (totalWeeksOf_nonempty days totalWeeks Ht) as Hne.
  destruct (walkOf_defined random days Hr Hne) as [s Hs].
  destruct (walkOf_parts random days s Hs) as (g & tw & Hg & Ht' & Hw).
  assert (tw = totalWeeks) by congruence. subst tw.
  exists s. split; [exact Hs |].
  apply Nat.le_ngt. intros Hlt.
  pose proof (walkLoop_short _ _ _ Hr steps _ s (pathInv_start _ _) Hw) as Hsh.
  cbn [walkStart waypoints length] in Hsh. unfold steps in Hsh.
  specialize (Hsh ltac:(lia)).
  destruct (walk_pathInv _ _ _ Hr s Hw)
    as (l & p & Hl & _ & _ & _ & _ & _ & HW & _).
  rewrite Hl, length_app in Hlt. simpl in Hlt. lia.
Qed.

Lemma render_shows_dragon
  (random : nat -> Q) (year : Z) (days : list Day) (wps : list Waypoint) :
  waypointsOf random days = Some wps -> (4 <= length wps)%nat ->
  exists parts : list Part,
    render random year days = Some parts /\ DragonHead ∈ parts.
Proof.
  intros Hwp Hlen.
  destruct (render_dragon_parts random year days wps Hwp) as (parts & Hrender & Hd).
  exists parts. split; [exact Hrender |].
  assert (Hin : In DragonHead (List.filter isDragon parts)).
  { rewrite Hd. apply list_elem_of_In, dragonLayer_head. exact Hlen. }
  apply filter_In in Hin as [Hin _]. apply list_elem_of_In. exact Hin.
Qed.

(** X8: when the grid has 25 weeks or more, as it has for every window
    [main] builds, the first four steps of the walk cannot be trapped: the
    path has five waypoints at least and the document shows the dragon. *)
Theorem long_window_draws_dragon
  (random : nat -> Q) (year : Z) (days : list Day) (totalWeeks : Z) :
  inUnit random -> totalWeeksOf days = Some totalWeeks -> 25 <= totalWeeks ->
  exists (wps : list Waypoint) (parts : list Part),
    waypointsOf random days = Some wps /\
    (5 <= length wps)%nat /\
    render random year days = Some parts /\
    DragonHead ∈ parts.
Proof.
  intros Hr Ht Htw.
  destruct (walkOf_five random days totalWeeks Hr Ht Htw) as (s & Hs & Hlen).
  assert (Hwp : waypointsOf random days = Some (waypoints s))
    by (unfold waypointsOf; rewrite Hs; reflexivity).
  destruct (render_shows_dragon random year days (waypoints s) Hwp ltac:(lia))
    as (parts & Hrender & Hin).
  exists (waypoints s), parts. auto.
Qed.

Lemma long_window_draws_dragon_witness :
  inUnit alternating /\
  totalWeeksOf (scenarioDays 19722) = Some 52 /\ 25 <= 52 /\
  exists (wps : list Waypoint) (parts : list Part),
    waypointsOf alternating (scenarioDays 19722) = Some wps /\
    (5 <= length wps)%nat /\
    render alternating 2026 (scenarioDays 19722) = Some parts /\
    DragonHead ∈ parts.
Proof.
  assert (Ht : totalWeeksOf (scenarioDays 19722) = Some 52)
    by (vm_compute; reflexivity).
  assert (Hle : 25 <= 52) by lia.
  split; [exact alternating_inUnit |]. split; [exact Ht |]. split; [exact Hle |].
  exact (long_window_draws_dragon alternating 2026 (scenarioDays 19722) 52
           alternating_inUnit Ht Hle).
Defined.

(** X9: the walk stops before its 80 steps are done only when no week is
    left ahead of it: a path with fewer than 81 waypoints ends in week
    [totalWeeks - 1] or beyond. *)
Theorem walk_stops_at_last_week
  (random : nat -> Q) (days : list Day) (totalWeeks : Z) :
  inUnit random -> totalWeeksOf days = Some totalWeeks ->
  exists (wps : list Waypoint) (p : Waypoint),
    waypointsOf random days = Some wps /\
    last wps = Some p /\
    ((length wps < steps + 1)%nat -> totalWeeks <= wp_w p + 1).
Proof.
  intros Hr Ht.
  pose proof (totalWeeksOf_nonempty days totalWeeks Ht) as Hne.
  destruct (walkOf_defined random days Hr Hne) as [s Hs].
  destruct (walkOf_parts random days s Hs) as (g & tw & Hg & Ht' & Hw).
  assert (tw = totalWeeks) by congruence. subst tw.
  destruct (walk_pathInv _ _ _ Hr s Hw) as (l & p & Hl & Hp & _).
  exists (waypoints s), p.
  split; [unfold waypointsOf; rewrite Hs; reflexivity |].
  split; [rewrite Hl; apply last_snoc |].
  intros Hlen. injection Hp as -> _.
  pose proof (walkLoop_short _ _ _ Hr steps _ s (pathInv_start _ _) Hw) as Hsh.
  cbn [walkStart waypoints length] in Hsh. apply Hsh. lia.
Qed.

Lemma walk_stops_at_last_week_witness :
  inUnit (constantly 0) /\
  totalWeeksOf (scenarioDays 19722) = Some 52 /\
  exists (wps : list Waypoint) (p : Waypoint),
    waypointsOf (constantly 0) (scenarioDays 19722) = Some wps /\
    last wps = Some p /\
    ((length wps < steps + 1)%nat -> 52 <= wp_w p + 1).
Proof.
  assert (Hr : inUnit (constantly 0))
    by (apply constantly_inUnit; split; unfold Qle, Qlt; simpl; lia).
  assert (Ht : totalWeeksOf (scenarioDays 19722) = Some 52)
    by (vm_compute; reflexivity).
  split; [exact Hr |]. split; [exact Ht |].
  exact (walk_stops_at_last_week (constantly 0) (scenarioDays 19722) 52 Hr Ht).
Defined.

Lemma gather_none (totalWeeks : Z) (bh : gmap string Q) (random : nat -> Q)
      (s : WalkState) (ms : list Move) (n : nat) :
  (forall m : Move, m ∈ ms ->
     outOfBounds totalWeeks (currW s + dw m) (currD s + dd m) = true) ->
  gather totalWeeks bh random s ms n = ([], n).
Proof.
  induction ms as [| m ms IH]; intros H; [reflexivity |].
  cbn [gather]. rewrite (H m) by left.
  apply IH. intros m' Hm'. apply H. right. exact Hm'.
Qed.

Lemma walk_short_grid (totalWeeks : Z) (bh : gmap string Q) (random : nat -> Q) :
  totalWeeks <= 19 ->
  waypoints <$> walk totalWeeks bh random = Some [getPt bh 20 5].
Proof.
  intros Htw. unfold walk, steps. cbn [walkLoop]. unfold step.
  rewrite gather_none; [reflexivity |].
  intros m Hm. pose proof (moves_unit_step m Hm) as Hu.
  unfold outOfBounds. cbn [walkStart currW currD].
  replace (totalWeeks <=? 20 + dw m) with true by (symmetry; apply Z.leb_le; lia).
  rewrite orb_true_r. reflexivity.
Qed.

Lemma walkOf_eq (random : nat -> Q) (days : list Day) (gridStart totalWeeks : Z) :
  gridStartOf days = Some gridStart -> totalWeeksOf days = Some totalWeeks ->
  walkOf random days
  = walk totalWeeks
         (barHeightMapOf (maxCount days) totalWeeks gridStart days) random.
Proof.
  intros Hg Ht. unfold walkOf. rewrite Hg, Ht. cbn [mbind option_bind].
  rewrite q_max_maxCount. reflexivity.
Qed.

(** X10: the start of the walk is not checked against the bounds: in a
    window whose grid has 19 weeks or fewer no move from week 20 is in
    bounds, the path is its start point alone, whatever the draws, and the
    document has no dragon. *)
Theorem short_window_has_no_dragon
  (random : nat -> Q) (year : Z) (days : list Day) (totalWeeks : Z) :
  totalWeeksOf days = Some totalWeeks -> totalWeeks <= 19 ->
  exists (p : Waypoint) (parts : list Part),
    waypointsOf random days = Some [p] /\ cell p = (20, 5) /\
    render random year days = Some parts /\
    forall q : Part, q ∈ parts -> isDragon q = false.
Proof.
  intros Ht Htw.
  assert (Hw : exists p, waypointsOf random days = Some [p] /\ cell p = (20, 5)).
  { destruct (grid_defined days (totalWeeksOf_nonempty days totalWeeks Ht))
      as (g & tw & Hg & Ht').
    assert (tw = totalWeeks) by congruence. subst tw.
    exists (getPt (barHeightMapOf (maxCount days) totalWeeks g days) 20 5).
    split; [| reflexivity].
    unfold waypointsOf. rewrite (walkOf_eq random days g totalWeeks Hg Ht).
    apply walk_short_grid. exact Htw. }
  destruct Hw as (p & Hw & Hp).
  destruct (render_dragon_parts random year days [p] Hw) as (parts & Hr & Hd).
  exists p, parts. split; [exact Hw |]. split; [exact Hp |]. split; [exact Hr |].
  intros q Hq. eapply filter_nil_all; [| exact Hq].
  rewrite Hd. apply dragonLayer_short. simpl. lia.
Qed.

Lemma short_window_has_no_dragon_witness :
  totalWeeksOf (zeroDays 19722 14) = Some 1 /\ 1 <= 19 /\
  exists (p : Waypoint) (parts : list Part),
    waypointsOf alternating (zeroDays 19722 14) = Some [p] /\ cell p = (20, 5) /\
    render alternating 2026 (zeroDays 19722 14) = Some parts /\
    forall q : Part, q ∈ parts -> isDragon q = false.
Proof.
  assert (Ht : totalWeeksOf (zeroDays 19722 14) = Some 1) by (vm_compute; reflexivity).
  assert (Hle : 1 <= 19) by lia.
  split; [exact Ht |]. split; [exact Hle |].
  exact (short_window_has_no_dragon alternating 2026 (zeroDays 19722 14) 1 Ht Hle).
Defined.

(** ** Sorting *)

Section SortProperties.
Context {A : Type} (cmp : A -> A -> Q).
Let R (a b : A) : Prop := (cmp a b <= 0)%Q.
Hypothesis cmp_total : forall a b : A, ~ R a b -> R b a.
Hypothesis cmp_trans : forall a b c : A, R a b -> R b c -> R a c.

Lemma insertSorted_sorted (x : A) (l : list A) :
  StronglySorted R l -> StronglySorted R (insertSorted cmp x l).
Proof.
  induction 1 as [| y l Hs IH Hy]; cbn [insertSorted].
  - repeat constructor.
  - destruct (Qle_bool (cmp x y) 0) eqn:E.
    + apply Qle_bool_iff in E. constructor; [constructor; assumption |].
      constructor; [exact E |].
      eapply Forall_impl; [exact Hy |]. intros z Hz. eapply cmp_trans; eassumption.
    + assert (Hyx : R y x).
      { apply cmp_total. intros Hxy. apply Qle_bool_iff in Hxy. congruence. }
      constructor; [exact IH |].
      apply Forall_forall. intros z Hz.
      apply insertSorted_elem in Hz as [-> | Hz]; [exact Hyx |].
      rewrite Forall_forall in Hy. apply Hy. exact Hz.
Qed.

Lemma jsSort_sorted (l : list A) : StronglySorted R (jsSort cmp l).
Proof.
  induction l as [| x l IH]; cbn [jsSort foldr]; [constructor |].
  apply insertSorted_sorted. exact IH.
Qed.
End SortProperties.

Lemma insertSorted_perm {A : Type} (cmp : A -> A -> Q) (x : A) (l : list A) :
  insertSorted cmp x l ≡ₚ x :: l.
Proof.
  induction l as [| y l IH]; cbn [insertSorted]; [reflexivity |].
  destruct (Qle_bool (cmp x y) 0); [reflexivity |].
  rewrite IH. apply Permutation_swap.
Qed.

Lemma jsSort_perm {A : Type} (cmp : A -> A -> Q) (l : list A) :
  jsSort cmp l ≡ₚ l.
Proof.
  induction l as [| x l IH]; cbn [jsSort foldr]; [reflexivity |].
  rewrite insertSorted_perm. fold (jsSort cmp l). rewrite IH. reflexivity.
Qed.

Lemma StronglySorted_lookup_le {A : Type} (R : A -> A -> Prop) (l : list A)
      (i j : nat) (a b : A) :
  StronglySorted R l -> (i < j)%nat ->
  l !! i = Some a -> l !! j = Some b -> R a b.
Proof.
  intros Hs. revert i j. induction Hs as [| x l Hs IH Hx]; intros i j Hij Ha Hb.
  - discriminate Ha.
  - destruct j as [| j]; [lia |]. cbn in Hb.
    destruct i as [| i].
    + cbn in Ha. injection Ha as <-.
      rewrite Forall_forall in Hx. apply Hx.
      eapply list_elem_of_lookup_2. exact Hb.
    + cbn in Ha. apply (IH i j); [lia | assumption..].
Qed.

Lemma StronglySorted_weaken {A : Type} (R R' : A -> A -> Prop) (l : list A) :
  (forall a b : A, R a b -> R' a b) -> StronglySorted R l -> StronglySorted R' l.
Proof.
  intros Himp. induction 1 as [| x l Hs IH Hx]; constructor; [exact IH |].
  eapply Forall_impl; [exact Hx | intros y; apply Himp].
Qed.

(** ** The classifier *)

Lemma positiveVals_sorted (days : list Day) :
  StronglySorted Z.le (positiveVals days).
Proof.
  unfold positiveVals.
  eapply StronglySorted_weaken;
    [| apply (jsSort_sorted (fun a b : Z => inject_Z (a - b)))].
  - intros a b H. cbn in H. change 0%Q with (inject_Z 0) in H.
    rewrite <- Zle_Qle in H. lia.
  - intros a b H. change 0%Q with (inject_Z 0) in *.
    rewrite <- Zle_Qle in *. lia.
  - intros a b c H1 H2. change 0%Q with (inject_Z 0) in *.
    rewrite <- Zle_Qle in *. lia.
Qed.

Lemma positiveVals_elem (days : list Day) (v : Z) :
  v ∈ positiveVals days <-> 0 < v /\ exists d : Day, d ∈ days /\ count d = v.
Proof.
  unfold positiveVals. rewrite jsSort_elem, list_elem_of_In, filter_In.
  rewrite <- list_elem_of_In, Z.ltb_lt.
  change (map count days) with (count <$> days). rewrite list_elem_of_fmap.
  split.
  - intros [(d & -> & Hd) Hv]. eauto.
  - intros [Hv (d & Hd & <-)]. eauto.
Qed.

(** The index [pick] reads lies within the array. *)
Lemma pick_index_range (n : Z) (q : Q) :
  0 <= n -> (0 <= q <= 9 # 10)%Q ->
  0 <= mathFloor (b64 (inject_Z n * b64 q)) <= n.
Proof.
  intros Hn [H0 H1].
  assert (Hx : (0 <= inject_Z n)%Q)
    by (change 0%Q with (inject_Z 0); rewrite <- Zle_Qle; lia).
  pose proof (b64_nonneg q H0) as Hq0.
  pose proof (b64_error q H0) as [_ Hq1].
  assert (Hp : (0 <= inject_Z n * b64 q)%Q) by (apply Qmult_le_0_compat; assumption).
  pose proof (b64_nonneg _ Hp) as Hy0.
  pose proof (b64_error _ Hp) as [_ Hy1].
  assert (Hc : (0 < 2 ^ (-53) <= 1 # 100)%Q) by (split; [reflexivity | discriminate]).
  set (c := (2 ^ (-53))%Q) in *. set (bq := b64 q) in *.
  set (y := b64 (inject_Z n * bq)) in *. set (x := inject_Z n) in *.
  assert (Hbq : (bq <= 91 # 100)%Q) by nra.
  assert (Hxb : (x * bq <= x * (91 # 100))%Q) by nra.
  assert (Hyx : (y <= x)%Q) by nra.
  unfold mathFloor. split.
  - change 0 with (Qfloor 0). apply Qfloor_resp_le. exact Hy0.
  - rewrite <- (Qfloor_Z n). apply Qfloor_resp_le. exact Hyx.
Qed.

Lemma pick_defined (vals : list Z) (q : Q) :
  vals <> [] -> (0 <= q <= 9 # 10)%Q ->
  exists (i : nat) (v : Z),
    mathFloor (b64 (inject_Z (Z.of_nat (length vals) - 1) * b64 q)) = Z.of_nat i /\
    vals !! i = Some v /\ pick vals q = Some v.
Proof.
  intros Hne Hq.
  assert (Hlen : (0 < length vals)%nat) by (destruct vals; [congruence | simpl; lia]).
  set (n := Z.of_nat (length vals) - 1).
  pose proof (pick_index_range n q ltac:(lia) Hq) as [Hlo Hhi].
  destruct (lookup_lt_is_Some_2 vals (Z.to_nat (mathFloor (b64 (inject_Z n * b64 q)))))
    as [v Hv]; [lia |].
  exists (Z.to_nat (mathFloor (b64 (inject_Z n * b64 q)))), v.
  split; [lia |]. split; [exact Hv |].
  unfold pick, index. fold n.
  replace (mathFloor (b64 (inject_Z n * b64 q)) <? 0) with false
    by (symmetry; apply Z.ltb_ge; exact Hlo).
  exact Hv.
Qed.

Lemma pick_monotone (vals : list Z) (q q' : Q) (v v' : Z) :
  StronglySorted Z.le vals -> (0 <= q)%Q -> (q <= q')%Q -> (q' <= 9 # 10)%Q ->
  pick vals q = Some v -> pick vals q' = Some v' -> v <= v'.
Proof.
  intros Hs H0 Hq H1 Hv Hv'.
  assert (Hne : vals <> []).
  { intros ->. unfold pick, index in Hv.
    destruct (_ <? 0); [discriminate Hv |]. rewrite lookup_nil in Hv. discriminate Hv. }
  destruct (pick_defined vals q Hne) as (i & u & Hi & Hu & Hp); [lra |].
  destruct (pick_defined vals q' Hne) as (i' & u' & Hi' & Hu' & Hp'); [lra |].
  assert (u = v) by congruence. assert (u' = v') by congruence. subst u u'.
  assert (Hlen : (0 < length vals)%nat) by (destruct vals; [congruence | simpl; lia]).
  assert (Hii : (i <= i')%nat).
  { apply Nat2Z.inj_le. rewrite <- Hi, <- Hi'. apply Qfloor_resp_le, b64_mono.
    assert (Hx : (0 <= inject_Z (Z.of_nat (length vals) - 1))%Q)
      by (change 0%Q with (inject_Z 0); rewrite <- Zle_Qle; lia).
    pose proof (b64_mono q q' Hq) as Hb.
    rewrite !(Qmult_comm (inject_Z (Z.of_nat (length vals) - 1))).
    apply Qmult_le_compat_r; assumption. }
  destruct (decide (i = i')) as [-> | Hneq]; [assert (v = v') by congruence; lia |].
  eapply (StronglySorted_lookup_le Z.le vals i i'); [exact Hs | lia | eassumption..].
Qed.

Lemma quantiles_ordered (days : list Day) :
  positiveVals days <> [] ->
  exists q1 q2 q3 : Z,
    quantiles (positiveVals days) = (Some q1, Some q2, Some q3) /\
    q1 <= q2 /\ q2 <= q3 /\
    q1 ∈ positiveVals days /\ q2 ∈ positiveVals days /\ q3 ∈ positiveVals days.
Proof.
  intros Hne. pose proof (positiveVals_sorted days) as Hs.
  destruct (pick_defined _ (35 # 100) Hne) as (i1 & q1 & _ & Hl1 & H1); [lra |].
  destruct (pick_defined _ (65 # 100) Hne) as (i2 & q2 & _ & Hl2 & H2); [lra |].
  destruct (pick_defined _ (88 # 100) Hne) as (i3 & q3 & _ & Hl3 & H3); [lra |].
  exists q1, q2, q3. unfold quantiles. rewrite H1, H2, H3.
  split; [reflexivity |].
  split; [eapply (pick_monotone _ (35 # 100) (65 # 100)); try eassumption; lra |].
  split; [eapply (pick_monotone _ (65 # 100) (88 # 100)); try eassumption; lra |].
  repeat split; eapply list_elem_of_lookup_2; eassumption.
Qed.

(** X11: when some day has a positive count, the three thresholds exist,
    each is the positive count of some day, and they are ordered:
    [0 < q1 <= q2 <= q3 <= max]. *)
Theorem thresholds_ordered (days : list Day) (d : Day) :
  d ∈ days -> 0 < count d ->
  exists q1 q2 q3 : Z,
    quantiles (positiveVals days) = (Some q1, Some q2, Some q3) /\
    0 < q1 /\ q1 <= q2 /\ q2 <= q3 /\ q3 <= q_max (quantileLevels days) /\
    forall q : Z, q ∈ [q1; q2; q3] -> exists d' : Day, d' ∈ days /\ count d' = q.
Proof.
  intros Hd Hc.
  assert (Hne : positiveVals days <> []).
  { intros He. assert (Hin : count d ∈ positiveVals days)
      by (apply positiveVals_elem; eauto).
    rewrite He in Hin. inversion Hin. }
  destruct (quantiles_ordered days Hne) as (q1 & q2 & q3 & Hq & H12 & H23 & E1 & E2 & E3).
  apply positiveVals_elem in E1 as [P1 (d1 & D1 & C1)].
  apply positiveVals_elem in E2 as [P2 (d2 & D2 & C2)].
  apply positiveVals_elem in E3 as [P3 (d3 & D3 & C3)].
  exists q1, q2, q3. split; [exact Hq |]. split; [exact P1 |].
  split; [exact H12 |]. split; [exact H23 |].
  split.
  - rewrite q_max_maxCount, <- C3. apply maxCount_upper. exact D3.
  - intros q Hin. apply list_elem_of_In in Hin. simpl in Hin.
    destruct Hin as [<- | [<- | [<- | []]]]; eauto.
Qed.

Lemma thresholds_ordered_witness :
  {| date := 19822; count := 5 |} ∈ scenarioDays 19722 /\ 0 < 5 /\
  exists q1 q2 q3 : Z,
    quantiles (positiveVals (scenarioDays 19722)) = (Some q1, Some q2, Some q3) /\
    0 < q1 /\ q1 <= q2 /\ q2 <= q3 /\
    q3 <= q_max (quantileLevels (scenarioDays 19722)) /\
    forall q : Z, q ∈ [q1; q2; q3] ->
      exists d' : Day, d' ∈ scenarioDays 19722 /\ count d' = q.
Proof.
  assert (Hd : {| date := 19822; count := 5 |} ∈ scenarioDays 19722).
  { apply list_elem_of_lookup. exists 100%nat. reflexivity. }
  assert (Hc : 0 < 5) by lia.
  split; [exact Hd |]. split; [exact Hc |].
  exact (thresholds_ordered (scenarioDays 19722) {| date := 19822; count := 5 |} Hd Hc).
Defined.

Lemma levelColor_empty (days : list Day) (c : Z) :
  positiveVals days = [] -> levelColor (quantileLevels days) c = color 0.
Proof. intros He. unfold quantileLevels. rewrite He. reflexivity. Qed.

Lemma levelColor_thresholds (days : list Day) (q1 q2 q3 c : Z) :
  positiveVals days <> [] ->
  quantiles (positiveVals days) = (Some q1, Some q2, Some q3) ->
  levelColor (quantileLevels days) c =
    if c <=? 0 then color 0
    else if c <=? q1 then color 1
    else if c <=? q2 then color 2
    else if c <=? q3 then color 3
    else color 4.
Proof.
  intros Hne Hq. unfold quantileLevels.
  destruct (positiveVals days) as [| v vals]; [congruence |].
  rewrite Hq. reflexivity.
Qed.

(** X12: a count of 0 or less gets the empty colour; a positive count of a
    day of the series gets one of the levels 1 to 4, never the empty one;
    the level never goes down as the count goes up; and the colour is
    always one of the five of the palette. *)
Theorem levelColor_levels (days : list Day) :
  (forall c : Z, c <= 0 -> levelColor (quantileLevels days) c = color 0) /\
  (forall d : Day, d ∈ days -> 0 < count d ->
     (1 <= levelOf days (count d) <= 4)%nat) /\
  (forall c1 c2 : Z, c1 <= c2 -> (levelOf days c1 <= levelOf days c2)%nat) /\
  (forall c : Z, levelColor (quantileLevels days) c ∈ colors).
Proof.
  destruct (decide (positiveVals days = [])) as [He | Hne].
  - split; [intros c _; apply levelColor_empty; exact He |].
    split.
    { intros d Hd Hc. exfalso.
      assert (Hin : count d ∈ positiveVals days) by (apply positiveVals_elem; eauto).
      rewrite He in Hin. inversion Hin. }
    split; [intros c1 c2 _; unfold levelOf; rewrite !levelColor_empty by exact He; lia |].
    intros c. rewrite levelColor_empty by exact He. left.
  - destruct (quantiles_ordered days Hne) as (q1 & q2 & q3 & Hq & H12 & H23 & _).
    assert (Hl : forall c, levelColor (quantileLevels days) c =
              if c <=? 0 then color 0 else if c <=? q1 then color 1
              else if c <=? q2 then color 2 else if c <=? q3 then color 3
              else color 4)
      by (intros c; apply levelColor_thresholds; assumption).
    split.
    { intros c Hc. rewrite Hl.
      replace (c <=? 0) with true by (symmetry; apply Z.leb_le; exact Hc).
      reflexivity. }
    split.
    { intros d Hd Hc. unfold levelOf. rewrite Hl.
      replace (count d <=? 0) with false by (symmetry; apply Z.leb_gt; exact Hc).
      repeat case_match; cbn; lia. }
    split.
    { intros c1 c2 Hc. unfold levelOf. rewrite !Hl.
      repeat case_match; cbn; try lia;
        repeat match goal with
               | H : (_ <=? _) = true |- _ => apply Z.leb_le in H
               | H : (_ <=? _) = false |- _ => apply Z.leb_gt in H
               end; lia. }
    intros c. rewrite Hl.
    repeat case_match; apply list_elem_of_In; cbn; tauto.
Qed.

(** ** Statistics *)

Lemma foldl_max_maxCount (days : list Day) (a : Z) :
  0 <= a ->
  foldl (fun a d => Z.max a (count d)) a days = Z.max a (maxCount days).
Proof.
  revert a. induction days as [| d days IH]; intros a Ha; cbn [foldl].
  - unfold maxCount. simpl. lia.
  - rewrite IH by lia. unfold maxCount. simpl. lia.
Qed.

Lemma s_max_maxCount (days : list Day) : s_max (stats days) = maxCount days.
Proof.
  unfold stats. destruct (foldl streakStep (0, 0) days). cbn [s_max].
  rewrite foldl_max_maxCount by lia. pose proof (maxCount_upper days). lia.
Qed.

Lemma maxCount_attained (days : list Day) :
  maxCount days = 0 \/ exists d : Day, d ∈ days /\ count d = maxCount days.
Proof.
  unfold maxCount. induction days as [| a days IH]; simpl; [left; reflexivity |].
  destruct (Z.max_spec (count a) (foldr Z.max 0 (map count days))) as [[Hlt ->] | [Hge ->]].
  - destruct IH as [IH | (d & Hd & Hc)]; [left; exact IH |].
    right. exists d. split; [right; exact Hd | exact Hc].
  - right. exists a. split; [left | reflexivity].
Qed.

Lemma s_total_sum (days : list Day) (a : Z) :
  foldl (fun a d => a + count d) a days = a + foldr Z.add 0 (map count days).
Proof.
  revert a. induction days as [| d days IH]; intros a; cbn [foldl]; simpl; [lia |].
  rewrite IH. lia.
Qed.

Lemma sum_bounds (days : list Day) :
  (forall d : Day, d ∈ days -> 0 <= count d) ->
  maxCount days <= foldr Z.add 0 (map count days)
    <= maxCount days * Z.of_nat (length days).
Proof.
  unfold maxCount. induction days as [| a days IH]; intros Hnn; [simpl; lia |].
  assert (Ha : 0 <= count a) by (apply Hnn; left).
  specialize (IH ltac:(intros d Hd; apply Hnn; right; exact Hd)).
  pose proof (proj1 (maxCount_upper days)) as H0. unfold maxCount in H0.
  cbn [map foldr length]. rewrite Nat2Z.inj_succ. nia.
Qed.

Lemma toFixed2_upper (x : Q) (m : Z) :
  (0 <= x)%Q -> (x <= inject_Z m)%Q -> m <= 2 ^ 53 ->
  (0 <= toFixed2 x <= inject_Z m)%Q.
Proof.
  intros H0 Hm H53. unfold toFixed2.
  assert (Hm0 : 0 <= m).
  { rewrite Zle_Qle. change (inject_Z 0) with 0%Q. lra. }
  pose proof (b64_nonneg x H0) as Hy0.
  pose proof (b64_mono _ _ Hm) as Hy1. rewrite (b64_Z m) in Hy1 by lia.
  set (y := b64 x) in *. cbv zeta.
  replace (Qle_bool 0 y) with true by (symmetry; apply Qle_bool_iff; exact Hy0).
  assert (Hlo : 0 <= Qfloor (y * 100 + (1 # 2))).
  { change 0 with (Qfloor 0). apply Qfloor_resp_le. lra. }
  assert (Hhi : Qfloor (y * 100 + (1 # 2)) <= m * 100).
  { rewrite <- (Qfloor_half (m * 100)). apply Qfloor_resp_le.
    rewrite inject_Z_mult. change (inject_Z 100) with 100%Q. lra. }
  split; unfold Qle; cbn [Qnum Qden inject_Z]; lia.
Qed.

(** X13: the maximum on the panel is the maximum the bars are scaled by;
    it is at least every count and, unless it is 0, it is the count of some
    day.  When no count is negative, the total lies between the maximum and
    the maximum times the number of days, and, the total being an integer
    that binary64 holds exactly, the average shown lies between 0 and the
    maximum. *)
Theorem stats_max_total (days : list Day) :
  s_max (stats days) = q_max (quantileLevels days) /\
  0 <= s_max (stats days) /\
  (forall d : Day, d ∈ days -> count d <= s_max (stats days)) /\
  (s_max (stats days) = 0 \/ exists d : Day, d ∈ days /\ count d = s_max (stats days)) /\
  ((forall d : Day, d ∈ days -> 0 <= count d) ->
   s_max (stats days) <= s_total (stats days)
     <= s_max (stats days) * Z.of_nat (length days) /\
   (s_total (stats days) <= 2 ^ 53 ->
    (0 <= s_average (stats days) <= inject_Z (s_max (stats days)))%Q)).
Proof.
  rewrite q_max_maxCount, s_max_maxCount.
  split; [reflexivity |]. split; [apply maxCount_upper |].
  split; [apply maxCount_upper |]. split; [apply maxCount_attained |].
  intros Hnn. pose proof (sum_bounds days Hnn) as Hs.
  assert (Ht : s_total (stats days) = foldr Z.add 0 (map count days)).
  { unfold stats. destruct (foldl streakStep (0, 0) days). cbn [s_total].
    rewrite s_total_sum. lia. }
  assert (Ha : s_average (stats days)
               = toFixed2 (inject_Z (s_total (stats days))
                           / inject_Z (Z.max 1 (Z.of_nat (length days))))).
  { unfold stats. destruct (foldl streakStep (0, 0) days). reflexivity. }
  rewrite Ht. split; [exact Hs |]. intros H53. rewrite Ha, Ht.
  pose proof (proj1 (maxCount_upper days)) as H0.
  set (t := foldr Z.add 0 (map count days)) in *.
  set (n := Z.max 1 (Z.of_nat (length days))).
  assert (Hn : (0 < inject_Z n)%Q)
    by (change 0%Q with (inject_Z 0); rewrite <- Zlt_Qlt; lia).
  apply toFixed2_upper.
  - apply Qle_shift_div_l; [exact Hn |]. rewrite Qmult_0_l.
    change 0%Q with (inject_Z 0). rewrite <- Zle_Qle. lia.
  - apply Qle_shift_div_r; [exact Hn |]. rewrite <- inject_Z_mult, <- Zle_Qle.
    subst n. nia.
  - lia.
Qed.
Lemma snoc_cases {A : Type} (l : list A) :
  l = [] \/ exists (l' : list A) (x : A), l = l' ++ [x].
Proof. induction l using rev_ind; [left; reflexivity | right; eauto]. Qed.

Lemma trailingRun_snoc (days run : list Day) (d : Day) :
  isTrailingRun (days ++ [d]) run ->
  run = [] \/ exists run' : list Day,
    run = run' ++ [d] /\ 0 < count d /\ isTrailingRun days run'.
Proof.
  intros (pre & He & Hf).
  destruct (snoc_cases run) as [-> | (run' & x & ->)]; [left; reflexivity |].
  right. rewrite app_assoc in He. apply app_inj_tail in He as [He <-].
  apply Forall_app in Hf as [Hf Hx]. rewrite Forall_singleton in Hx.
  exists run'. split; [reflexivity |]. split; [exact Hx |].
  exists pre. auto.
Qed.

Lemma run_snoc (days run : list Day) (d : Day) :
  isRun (days ++ [d]) run -> isTrailingRun (days ++ [d]) run \/ isRun days run.
Proof.
  intros (pre & post & He & Hf).
  destruct (snoc_cases post) as [-> | (post' & x & ->)].
  - left. exists pre. rewrite app_nil_r in He. auto.
  - right. rewrite !app_assoc in He. apply app_inj_tail in He as [He _].
    exists pre, post'. rewrite app_assoc. auto.
Qed.

Lemma run_extend (days run : list Day) (d : Day) :
  isRun days run -> isRun (days ++ [d]) run.
Proof.
  intros (pre & post & -> & Hf). exists pre, (post ++ [d]).
  rewrite <- !app_assoc. auto.
Qed.

Lemma trailingRun_isRun (days run : list Day) :
  isTrailingRun days run -> isRun days run.
Proof. intros (pre & -> & Hf). exists pre, []. rewrite app_nil_r. auto. Qed.

(** What the streak loop has computed after any number of days. *)
Lemma streak_loop_runs (days : list Day) :
  let cb := foldl streakStep (0, 0) days in
  (exists run, isTrailingRun days run /\ Z.of_nat (length run) = cb.1) /\
  (forall run, isTrailingRun days run -> Z.of_nat (length run) <= cb.1) /\
  (exists run, isRun days run /\ Z.of_nat (length run) = cb.2) /\
  (forall run, isRun days run -> Z.of_nat (length run) <= cb.2).
Proof.
  induction days as [| d days IH] using rev_ind.
  - cbn. split; [exists []; split; [exists []; auto | reflexivity] |].
    split.
    { intros run (pre & He & _). symmetry in He.
      apply app_eq_nil in He as [_ ->]. simpl. lia. }
    split; [exists []; split; [exists [], []; auto | reflexivity] |].
    intros run (pre & post & He & _). symmetry in He.
    apply app_eq_nil in He as [_ He]. apply app_eq_nil in He as [-> _]. simpl. lia.
  - cbv zeta in *. rewrite foldl_snoc.
    destruct (foldl streakStep (0, 0) days) as [c b]. cbn [fst snd] in IH.
    destruct IH as ((rc & Hrc & Hlc) & Hcmax & (rb & Hrb & Hlb) & Hbmax).
    assert (Hbc : c <= b).
    { rewrite <- Hlc. apply Hbmax, trailingRun_isRun. exact Hrc. }
    unfold streakStep. destruct (0 <? count d) eqn:E; cbn [fst snd].
    + apply Z.ltb_lt in E.
      assert (Hnew : isTrailingRun (days ++ [d]) (rc ++ [d])).
      { destruct Hrc as (pre & -> & Hf). exists pre.
        rewrite <- app_assoc. split; [reflexivity |].
        apply Forall_app. split; [exact Hf | apply Forall_singleton; exact E]. }
      assert (Hnewlen : Z.of_nat (length (rc ++ [d])) = c + 1)
        by (rewrite length_app; simpl; lia).
      assert (Htmax : forall run, isTrailingRun (days ++ [d]) run ->
                                  Z.of_nat (length run) <= c + 1).
      { intros run Hr. apply trailingRun_snoc in Hr as [-> | (r' & -> & _ & Hr')].
        - simpl. lia.
        - specialize (Hcmax r' Hr'). rewrite length_app. simpl. lia. }
      split; [eauto |]. split; [exact Htmax |].
      split.
      * destruct (Z.max_spec b (c + 1)) as [[_ ->] | [_ ->]].
        -- exists (rc ++ [d]). split; [apply trailingRun_isRun; exact Hnew | exact Hnewlen].
        -- exists rb. split; [apply run_extend; exact Hrb | exact Hlb].
      * intros run Hr. apply run_snoc in Hr as [Hr | Hr].
        -- specialize (Htmax run Hr). lia.
        -- specialize (Hbmax run Hr). lia.
    + apply Z.ltb_ge in E.
      assert (Htnil : forall run, isTrailingRun (days ++ [d]) run -> run = []).
      { intros run Hr. apply trailingRun_snoc in Hr as [-> | (r' & _ & Hpos & _)];
          [reflexivity | lia]. }
      split; [exists []; split; [exists (days ++ [d]); rewrite app_nil_r; auto | reflexivity] |].
      split; [intros run Hr; rewrite (Htnil run Hr); simpl; lia |].
      split; [exists rb; split; [apply run_extend; exact Hrb | exact Hlb] |].
      intros run Hr. apply run_snoc in Hr as [Hr | Hr].
      * rewrite (Htnil run Hr). simpl. lia.
      * apply Hbmax. exact Hr.
Qed.

(** X14: the current streak is the length of the longest run of positive
    days that ends with the last day of the series, and the best streak is
    the length of the longest run of positive days anywhere in it. *)
Theorem streaks_are_longest_runs (days : list Day) :
  (exists run, isTrailingRun days run /\
               Z.of_nat (length run) = s_current (stats days)) /\
  (forall run, isTrailingRun days run ->
               Z.of_nat (length run) <= s_current (stats days)) /\
  (exists run, isRun days run /\ Z.of_nat (length run) = s_best (stats days)) /\
  (forall run, isRun days run -> Z.of_nat (length run) <= s_best (stats days)).
Proof.
  pose proof (streak_loop_runs days) as H. cbv zeta in H.
  rewrite <- stats_streaks in H. exact H.
Qed.

(** ** The command line *)

(** The user name after the loop is the one before it, or a value that
    follows a [--username] flag. *)
Lemma parseLoop_username_source (n : nat) :
  forall (args : list string) (parsed : Args),
    (length args <= n)%nat ->
    username (parseLoop args parsed) = username parsed \/
    (username (parseLoop args parsed) <> "" /\
     exists i : nat,
       args !! i = Some "--username" /\
       args !! S i = Some (username (parseLoop args parsed))).
Proof.
  induction n as [| n IH]; intros args parsed Hlen.
  - destruct args; [left; reflexivity | simpl in Hlen; lia].
  - destruct args as [| key [| val rest]]; [left; reflexivity.. |].
    simpl in Hlen. rewrite parseLoop_round.
    assert (Hshift1 : forall p,
      username (parseLoop (val :: rest) p) = username p \/
      (username (parseLoop (val :: rest) p) <> "" /\
       exists i, (key :: val :: rest) !! i = Some "--username" /\
                 (key :: val :: rest) !! S i
                 = Some (username (parseLoop (val :: rest) p)))).
    { intros p. destruct (IH (val :: rest) p ltac:(simpl; lia))
        as [H | (Hne & i & H1 & H2)]; [left; exact H |].
      right. split; [exact Hne |]. exists (S i). auto. }
    assert (Hshift2 : forall p,
      username (parseLoop rest p) = username p \/
      (username (parseLoop rest p) <> "" /\
       exists i, (key :: val :: rest) !! i = Some "--username" /\
                 (key :: val :: rest) !! S i
                 = Some (username (parseLoop rest p)))).
    { intros p. destruct (IH rest p ltac:(lia))
        as [H | (Hne & i & H1 & H2)]; [left; exact H |].
      right. split; [exact Hne |]. exists (S (S i)). auto. }
    destruct (String.eqb val "") eqn:Ev; [apply Hshift1 |].
    destruct (String.eqb key "--username") eqn:Ek.
    { apply String.eqb_eq in Ek. subst key. apply String.eqb_neq in Ev.
      destruct (Hshift2 {| username := val; output := output parsed;
                           duration := duration parsed |}) as [H | H];
        [| right; exact H].
      cbn [username] in H. right. rewrite H.
      split; [exact Ev |]. exists 0%nat. auto. }
    destruct (String.eqb key "--output");
      [match goal with |- context [parseLoop rest ?p] => exact (Hshift2 p) end |].
    destruct (String.eqb key "--duration" && String.eqb val "half-year");
      [match goal with |- context [parseLoop rest ?p] => exact (Hshift2 p) end |].
    destruct (String.eqb key "--duration" && String.eqb val "full-year");
      [match goal with |- context [parseLoop rest ?p] => exact (Hshift2 p) end |].
    apply Hshift1.
Qed.

(** X15: when [parseArgs] returns, the user name is not empty and is an
    argument that comes right after a [--username] flag. *)
Theorem parseArgs_username (args : list string) (parsed : Args) :
  parseArgs args = Ok parsed ->
  username parsed <> "" /\
  exists i : nat,
    args !! i = Some "--username" /\ args !! S i = Some (username parsed).
Proof.
  unfold parseArgs.
  set (p0 := {| username := ""; output := "assets/cny_metrics.svg";
                duration := FullYear |}).
  destruct (String.eqb (username (parseLoop args p0)) "") eqn:E; [discriminate |].
  intros [= <-]. apply String.eqb_neq in E.
  destruct (parseLoop_username_source (length args) args p0 ltac:(lia))
    as [H | H]; [| exact H].
  cbn [username p0] in H. congruence.
Qed.

Lemma parseArgs_username_witness :
  parseArgs ["--output"; "o.svg"; "--username"; "octocat"]
  = Ok {| username := "octocat"; output := "o.svg"; duration := FullYear |} /\
  "octocat" <> "" /\
  exists i : nat,
    ["--output"; "o.svg"; "--username"; "octocat"] !! i = Some "--username" /\
    ["--output"; "o.svg"; "--username"; "octocat"] !! S i = Some "octocat".
Proof.
  assert (H : parseArgs ["--output"; "o.svg"; "--username"; "octocat"]
              = Ok {| username := "octocat"; output := "o.svg"; duration := FullYear |})
    by reflexivity.
  split; [exact H |].
  exact (parseArgs_username _ _ H).
Defined.

Lemma parseLoop_defaults (n : nat) :
  forall (args : list string) (parsed : Args),
    (length args <= n)%nat ->
    ("--output" ∉ args -> output (parseLoop args parsed) = output parsed) /\
    ("--duration" ∉ args -> duration (parseLoop args parsed) = duration parsed).
Proof.
  induction n as [| n IH]; intros args parsed Hlen.
  - destruct args; [split; reflexivity | simpl in Hlen; lia].
  - destruct args as [| key [| val rest]]; [split; reflexivity.. |].
    simpl in Hlen. rewrite parseLoop_round.
    assert (H1 : forall flag : string, flag ∉ key :: val :: rest -> flag ∉ val :: rest)
      by (intros flag H Hin; apply H; right; exact Hin).
    assert (H2 : forall flag : string, flag ∉ key :: val :: rest -> flag ∉ rest)
      by (intros flag H Hin; apply H; right; right; exact Hin).
    assert (H0 : forall flag : string, flag ∉ key :: val :: rest -> String.eqb key flag = false).
    { intros flag H. apply String.eqb_neq. intros ->. apply H. left. }
    destruct (String.eqb val "").
    { destruct (IH (val :: rest) parsed ltac:(simpl; lia)) as [Ho Hd].
      split; intros H; [apply Ho | apply Hd]; apply H1; exact H. }
    destruct (String.eqb key "--username").
    { destruct (IH rest {| username := val; output := output parsed;
                           duration := duration parsed |} ltac:(lia)) as [Ho Hd].
      split; intros H; [rewrite Ho | rewrite Hd]; try reflexivity; apply H2; exact H. }
    destruct (String.eqb key "--output") eqn:Eo.
    { destruct (IH rest {| username := username parsed; output := val;
                           duration := duration parsed |} ltac:(lia)) as [Ho Hd].
      split; intros H; [rewrite (H0 _ H) in Eo; discriminate |].
      rewrite Hd; [reflexivity | apply H2; exact H]. }
    destruct (String.eqb key "--duration") eqn:Ed; cbn [andb].
    2: { destruct (IH (val :: rest) parsed ltac:(simpl; lia)) as [Ho Hd].
         split; intros H; [apply Ho | apply Hd]; apply H1; exact H. }
    destruct (String.eqb val "half-year").
    { destruct (IH rest {| username := username parsed; output := output parsed;
                           duration := HalfYear |} ltac:(lia)) as [Ho Hd].
      split; intros H; [| rewrite (H0 _ H) in Ed; discriminate].
      rewrite Ho; [reflexivity | apply H2; exact H]. }
    destruct (String.eqb val "full-year").
    { destruct (IH rest {| username := username parsed; output := output parsed;
                           duration := FullYear |} ltac:(lia)) as [Ho Hd].
      split; intros H; [| rewrite (H0 _ H) in Ed; discriminate].
      rewrite Ho; [reflexivity | apply H2; exact H]. }
    destruct (IH (val :: rest) parsed ltac:(simpl; lia)) as [Ho Hd].
    split; intros H; [apply Ho | apply Hd]; apply H1; exact H.
Qed.

(** X16: the options keep their defaults unless their flag is given: with
    no [--output] among the arguments the output is
    ["assets/cny_metrics.svg"], and with no [--duration] the duration is a
    full year. *)
Theorem parseArgs_defaults (args : list string) (parsed : Args) :
  parseArgs args = Ok parsed ->
  ("--output" ∉ args -> output parsed = "assets/cny_metrics.svg") /\
  ("--duration" ∉ args -> duration parsed = FullYear).
Proof.
  unfold parseArgs.
  set (p0 := {| username := ""; output := "assets/cny_metrics.svg";
                duration := FullYear |}).
  destruct (String.eqb (username (parseLoop args p0)) ""); [discriminate |].
  intros [= <-].
  exact (parseLoop_defaults (length args) args p0 ltac:(lia)).
Qed.

Lemma parseArgs_defaults_witness :
  parseArgs ["--username"; "octocat"] = Ok octocat /\
  ("--output" ∉ ["--username"; "octocat"] -> output octocat = "assets/cny_metrics.svg") /\
  ("--duration" ∉ ["--username"; "octocat"] -> duration octocat = FullYear).
Proof.
  assert (H : parseArgs ["--username"; "octocat"] = Ok octocat) by reflexivity.
  split; [exact H |].
  exact (parseArgs_defaults _ _ H).
Defined.

(** ** Ingestion and the program *)

Section Ingestion.
Variable isoText : Z -> string.
Variable encodeURIComponent : string -> string.
Variable getFullYear : Z -> Z.
Variable matchTd : string -> list string.
Variable matchAttr : string -> list (string * string).
Variable matchTooltip : string -> list (string * string).
Variable execCount : string -> option Z.

Lemma dateByCellOf_sound (html id date : string) :
  dateByCellOf matchTd matchAttr html !! id = Some date ->
  id <> "" /\ date <> "" /\
  exists td : string,
    td ∈ matchTd html /\
    attrsOf matchAttr td !! "id" = Some id /\
    attrsOf matchAttr td !! "data-date" = Some date.
Proof.
  unfold dateByCellOf.
  enough (Hgen : forall (tds : list string) (m : gmap string string),
    (forall td, td ∈ tds -> td ∈ matchTd html) ->
    (forall i d, m !! i = Some d ->
       i <> "" /\ d <> "" /\
       exists td, td ∈ matchTd html /\
         attrsOf matchAttr td !! "id" = Some i /\
         attrsOf matchAttr td !! "data-date" = Some d) ->
    forall i d,
      foldl (fun m td =>
               let attrs : gmap string string :=
                 foldl (fun a kv => <[kv.1 := kv.2]> a) ∅ (matchAttr td) in
               match attrs !! "id", attrs !! "data-date" with
               | Some id, Some date =>
                 if truthy (Some id) && truthy (Some date) then <[id := date]> m else m
               | _, _ => m
               end) m tds !! i = Some d ->
      i <> "" /\ d <> "" /\
      exists td, td ∈ matchTd html /\
        attrsOf matchAttr td !! "id" = Some i /\
        attrsOf matchAttr td !! "data-date" = Some d).
  { apply (Hgen (matchTd html) ∅); [auto |].
    intros i d H. rewrite lookup_empty in H. discriminate. }
  induction tds as [| td tds IH]; intros m Hsub Hm i d; [apply Hm |].
  cbn [foldl]. apply IH; [intros td' Htd'; apply Hsub; right; exact Htd' |].
  cbv zeta. fold (attrsOf matchAttr td).
  destruct (attrsOf matchAttr td !! "id") as [i0 |] eqn:Ei; [| exact Hm].
  destruct (attrsOf matchAttr td !! "data-date") as [d0 |] eqn:Ed; [| exact Hm].
  destruct (truthy (Some i0) && truthy (Some d0)) eqn:Et; [| exact Hm].
  apply andb_true_iff in Et as [Ti Td]. cbn [truthy] in Ti, Td.
  apply negb_true_iff, String.eqb_neq in Ti. apply negb_true_iff, String.eqb_neq in Td.
  intros i' d' H. apply lookup_insert_Some in H as [[<- <-] | [_ H]]; [| apply Hm; exact H].
  split; [exact Ti |]. split; [exact Td |].
  exists td. split; [apply Hsub; left | auto].
Qed.

Lemma parsedContributions_sound (html date : string) (c : Z) :
  parsedContributions matchTd matchAttr matchTooltip execCount html !! date = Some c ->
  exists id tip : string,
    (id, tip) ∈ matchTooltip html /\
    dateByCellOf matchTd matchAttr html !! id = Some date /\
    ((stringIncludes tip "No contributions" = true /\ c = 0) \/
     (stringIncludes tip "No contributions" = false /\ execCount tip = Some c)).
Proof.
  unfold parsedContributions. cbv zeta.
  set (P := fun (dt : string) (v : Z) => exists id tip : string,
    (id, tip) ∈ matchTooltip html /\
    dateByCellOf matchTd matchAttr html !! id = Some dt /\
    ((stringIncludes tip "No contributions" = true /\ v = 0) \/
     (stringIncludes tip "No contributions" = false /\ execCount tip = Some v))).
  enough (Hgen : forall (tips : list (string * string)) (m : gmap string Z),
    (forall t, t ∈ tips -> t ∈ matchTooltip html) ->
    (forall dt v, m !! dt = Some v -> P dt v) ->
    forall dt v,
      foldl (fun result m0 =>
               let '(id, tip) := m0 in
               match dateByCellOf matchTd matchAttr html !! id with
               | Some date =>
                 if negb (truthy (Some date)) then result
                 else if stringIncludes tip "No contributions" then <[date := 0]> result
                 else match execCount tip with
                      | Some c => <[date := c]> result
                      | None => result
                      end
               | None => result
               end) m tips !! dt = Some v -> P dt v).
  { apply (Hgen (matchTooltip html) ∅); [auto |].
    intros dt v H. rewrite lookup_empty in H. discriminate. }
  induction tips as [| [id tip] tips IH]; intros m Hsub Hm dt v; [apply Hm |].
  cbn [foldl]. apply IH; [intros t Ht; apply Hsub; right; exact Ht |].
  destruct (dateByCellOf matchTd matchAttr html !! id) as [d0 |] eqn:Ed; [| exact Hm].
  destruct (negb (truthy (Some d0))); [exact Hm |].
  assert (Hin : (id, tip) ∈ matchTooltip html) by (apply Hsub; left).
  destruct (stringIncludes tip "No contributions") eqn:En.
  - intros dt' v' H. apply lookup_insert_Some in H as [[<- <-] | [_ H]]; [| apply Hm; exact H].
    exists id, tip. auto.
  - destruct (execCount tip) as [c0 |] eqn:Ec; [| exact Hm].
    intros dt' v' H. apply lookup_insert_Some in H as [[<- <-] | [_ H]]; [| apply Hm; exact H].
    exists id, tip. auto.
Qed.

(** X17: what [fetchContributions] returns comes from the page: the
    response was [ok], the map is not empty, and each of its dates is the
    [data-date] of a [<td>] tag with an [id] that a tool-tip names, its
    count being 0 for a "No contributions" tip and otherwise the number
    matched in the tip. *)
Theorem fetch_result_sound (resp : Response) (result : gmap string Z) :
  fetchContributions matchTd matchAttr matchTooltip execCount resp = Ok result ->
  ok resp = true /\ result <> ∅ /\
  forall (date : string) (c : Z), result !! date = Some c ->
    date <> "" /\
    exists td id tip : string,
      td ∈ matchTd (text resp) /\
      attrsOf matchAttr td !! "id" = Some id /\
      attrsOf matchAttr td !! "data-date" = Some date /\
      (id, tip) ∈ matchTooltip (text resp) /\
      ((stringIncludes tip "No contributions" = true /\ c = 0) \/
       (stringIncludes tip "No contributions" = false /\ execCount tip = Some c)).
Proof.
  unfold fetchContributions.
  destruct (ok resp); cbn [negb]; [| discriminate].
  destruct (textError resp); [discriminate |].
  destruct (size _ =? 0)%nat eqn:Es; [discriminate |].
  intros [= <-]. split; [reflexivity |].
  split.
  { intros He. rewrite He, map_size_empty in Es. discriminate Es. }
  intros date c H.
  destruct (parsedContributions_sound _ _ _ H) as (id & tip & Htip & Hd & Hc).
  destruct (dateByCellOf_sound _ _ _ Hd) as (_ & Hne & td & Htd & Hi & Hdd).
  split; [exact Hne |]. exists td, id, tip. auto 6.
Qed.
End Ingestion.

Lemma fetch_result_sound_witness :
  fetchContributions oneTd oneAttr oneTooltip countThree emptyPage
  = Ok {["2026-01-01" := 3]} /\
  ok emptyPage = true /\ ({["2026-01-01" := 3]} : gmap string Z) <> ∅.
Proof.
  assert (H : fetchContributions oneTd oneAttr oneTooltip countThree emptyPage
              = Ok {["2026-01-01" := 3]}) by (vm_compute; reflexivity).
  split; [exact H |].
  destruct (fetch_result_sound oneTd oneAttr oneTooltip countThree emptyPage _ H)
    as (Hok & Hne & _).
  split; [exact Hok | exact Hne].
Defined.

Lemma windowDays_totalWeeks (counts : Z -> Z) (start end_ : Z) :
  start <= end_ -> (start + 4) mod 7 = 0 ->
  totalWeeksOf (windowDays counts start end_) = Some ((end_ - start) / 7).
Proof.
  intros Hle Hs.
  destruct (windowDays_head_last counts start end_ Hle)
    as (d0 & dn & H0 & Hd0 & Hn & Hdn).
  rewrite (totalWeeksOf_div _ d0 dn H0 Hn), Hd0, Hdn, alignSunday_sub, Hs.
  do 3 f_equal. lia.
Qed.

(** The dragon of the pure document is in the document a call returns. *)
Lemma documentOf_dragon (days : list Day) (username : string) (duration : Duration)
      (p : Process) (parts : list Part) :
  render (drawsOf p) (thisYear p) days = Some parts -> DragonHead ∈ parts ->
  exists (svg : list Part) (p' : Process),
    renderCall days username duration p = Some (svg, p') /\ DragonHead ∈ svg.
Proof.
  intros Hr Hin. pose proof (documentOf_render days username duration p) as E.
  rewrite Hr in E. unfold documentOf in E.
  destruct (renderCall days username duration p) as [[svg p'] |]; [| discriminate E].
  cbn [fmap option_fmap option_map fst] in E. apply (inj Some) in E. subst parts.
  exists svg, p'. split; [reflexivity |].
  apply list_elem_of_fmap in Hin as (x & Hx & Hin).
  destruct x; try discriminate Hx. exact Hin.
Qed.

Section Program.
Variable isoText : Z -> string.
Variable encodeURIComponent : string -> string.
Variable getFullYear : Z -> Z.
Variable matchTd : string -> list string.
Variable matchAttr : string -> list (string * string).
Variable matchTooltip : string -> list (string * string).
Variable execCount : string -> option Z.
Variable resolve : string -> string.
Variable dirname : string -> string.

Abbreviation run :=
  (program isoText encodeURIComponent getFullYear
           matchTd matchAttr matchTooltip execCount resolve dirname).

(** X18: the calls a run makes on its surroundings are, in this order and
    once each at most, one request, one [mkdir] and one [writeFile].  The
    run ends in one of two ways: with an error logged and status 1 after
    any number of these calls, or with status 0 after all three, neither
    [mkdir] nor [writeFile] having failed, and the line "Generated" as its
    last act. *)
Theorem program_outcomes (world : World) :
  (fetchCount (run world) <= 1)%nat /\
  exists (calls : list Event) (url dir path : string) (svg : list Part),
    calls `prefix_of` [EvFetch url; EvMkdir dir; EvWriteFile path svg] /\
    ((exists message : string,
        run world = calls ++ [EvError message; EvExit 1] /\
        exitCode (run world) = 1) \/
     (exists out : string,
        calls = [EvFetch url; EvMkdir dir; EvWriteFile path svg] /\
        mkdir world dir = None /\ writeFile world path svg = None /\
        run world = calls ++ [EvLog ("Generated: " +:+ out)] /\
        exitCode (run world) = 0)).
Proof.
  unfold program, main.
  destruct (parseArgs (argv world)) as [args | e].
  2: { split; [cbn; lia |]. exists [], "", "", "", []. split; [apply prefix_nil |].
       left. exists e. split; reflexivity. }
  destruct (windowOf world args) as [start end_].
  set (url := contributionsUrl _ _ _ _ _).
  assert (Hfail : forall e : string,
            (fetchCount ([EvFetch url] ++ [EvError e; EvExit 1]) <= 1)%nat /\
            exists (calls : list Event) (url' dir path : string) (svg : list Part),
              calls `prefix_of` [EvFetch url'; EvMkdir dir; EvWriteFile path svg] /\
              ((exists message : string,
                  [EvFetch url] ++ [EvError e; EvExit 1]
                  = calls ++ [EvError message; EvExit 1] /\
                  exitCode ([EvFetch url] ++ [EvError e; EvExit 1]) = 1) \/
               (exists out : string,
                  calls = [EvFetch url'; EvMkdir dir; EvWriteFile path svg] /\
                  mkdir world dir = None /\ writeFile world path svg = None /\
                  [EvFetch url] ++ [EvError e; EvExit 1]
                  = calls ++ [EvLog ("Generated: " +:+ out)] /\
                  exitCode ([EvFetch url] ++ [EvError e; EvExit 1]) = 0))).
  { intros e. split; [cbn; lia |].
    exists [EvFetch url], url, "", "", [].
    split; [exists [EvMkdir ""; EvWriteFile "" []]; reflexivity |].
    left. exists e. split; reflexivity. }
  destruct (fetch world url) as [resp | e]; [| apply Hfail].
  destruct (fetchContributions _ _ _ _ resp) as [map | e]; [| apply Hfail].
  destruct (renderCall _ _ _ _) as [[svg p'] |]; [| apply Hfail].
  set (outPath := resolve (output args)).
  destruct (mkdir world (dirname outPath)) as [e |] eqn:Em.
  { split; [cbn; lia |].
    exists [EvFetch url; EvMkdir (dirname outPath)], url, (dirname outPath), "", [].
    split; [exists [EvWriteFile "" []]; reflexivity |].
    left. exists e. split; reflexivity. }
  destruct (writeFile world outPath svg) as [e |] eqn:Ew.
  { split; [cbn; lia |].
    exists [EvFetch url; EvMkdir (dirname outPath); EvWriteFile outPath svg],
           url, (dirname outPath), outPath, svg.
    split; [reflexivity |]. left. exists e. split; reflexivity. }
  split; [cbn; lia |].
  exists [EvFetch url; EvMkdir (dirname outPath); EvWriteFile outPath svg],
         url, (dirname outPath), outPath, svg.
  split; [reflexivity |]. right. exists (output args).
  repeat split; assumption || reflexivity.
Qed.

(** X19: once the arguments are in order, the request is answered and the
    page yields some date, [render] cannot fail on the window [main]
    builds: it returns a document that shows the dragon.  The run then
    ends with status 0 exactly when neither [mkdir] nor [writeFile] fails,
    and it has then asked for the page, made the directory of the resolved
    output path, written the document there and logged the line
    "Generated". *)
Theorem successful_run (world : World) (args : Args) (resp : Response)
        (map : gmap string Z) :
  inUnit (mathRandom world) ->
  parseArgs (argv world) = Ok args ->
  fetch world (contributionsUrl isoText encodeURIComponent (username args)
                 (windowOf world args).1 (windowOf world args).2) = Ok resp ->
  fetchContributions matchTd matchAttr matchTooltip execCount resp = Ok map ->
  exists (svg : list Part) (p' : Process),
    renderCall (windowDays (fun date => default 0 (map !! isoText date))
                           (windowOf world args).1 (windowOf world args).2)
               (username args) (duration args) (processOf getFullYear world)
    = Some (svg, p') /\
    DragonHead ∈ svg /\
    (exitCode (run world) = 0 <->
     mkdir world (dirname (resolve (output args))) = None /\
     writeFile world (resolve (output args)) svg = None) /\
    (exitCode (run world) = 0 ->
     run world
     = [EvFetch (contributionsUrl isoText encodeURIComponent (username args)
                   (windowOf world args).1 (windowOf world args).2);
        EvMkdir (dirname (resolve (output args)));
        EvWriteFile (resolve (output args)) svg;
        EvLog ("Generated: " +:+ output args)]).
Proof.
  intros Hr Hp Hfetch Hf.
  destruct (windowOf_bounds world args) as (_ & Hs & Hb).
  destruct (windowOf world args) as [start end_] eqn:Ew. cbn [fst snd] in *.
  set (days := windowDays (fun date => default 0 (map !! isoText date)) start end_).
  assert (Hle : start <= end_) by (destruct (duration args); simpl in Hb; lia).
  assert (Ht : totalWeeksOf days = Some ((end_ - start) / 7))
    by (apply windowDays_totalWeeks; assumption).
  assert (Htw : 25 <= (end_ - start) / 7)
    by (apply Z.div_le_lower_bound; destruct (duration args); simpl in Hb; lia).
  set (p := processOf getFullYear world).
  assert (Hd : inUnit (drawsOf p)) by (intros n; apply Hr).
  destruct (walkOf_five _ days _ Hd Ht Htw) as (s & Hs' & Hlen).
  assert (Hwp : waypointsOf (drawsOf p) days = Some (waypoints s))
    by (unfold waypointsOf; rewrite Hs'; reflexivity).
  destruct (render_shows_dragon _ (thisYear p) days _ Hwp ltac:(lia))
    as (parts & Hrender & Hin).
  destruct (documentOf_dragon days (username args) (duration args) p parts Hrender Hin)
    as (svg & p' & Hcall & Hsvg).
  exists svg, p'. split; [exact Hcall |]. split; [exact Hsvg |].
  assert (Hrun : run world
    = [EvFetch (contributionsUrl isoText encodeURIComponent (username args) start end_);
       EvMkdir (dirname (resolve (output args)))]
      ++ match mkdir world (dirname (resolve (output args))) with
         | Some e => [EvError e; EvExit 1]
         | None =>
           EvWriteFile (resolve (output args)) svg
           :: match writeFile world (resolve (output args)) svg with
              | Some e => [EvError e; EvExit 1]
              | None => [EvLog ("Generated: " +:+ output args)]
              end
         end).
  { unfold program, main. rewrite Hp, Ew, Hfetch, Hf.
    match goal with
    | |- context [renderCall ?d ?u ?t ?q] =>
      change (renderCall d u t q) with (renderCall days u t p)
    end.
    rewrite Hcall.
    destruct (mkdir world _); [reflexivity |].
    destruct (writeFile world _ _); reflexivity. }
  rewrite Hrun.
  destruct (mkdir world (dirname (resolve (output args)))) as [e |].
  { split; [split; [discriminate | intros [H _]; discriminate H] | discriminate]. }
  destruct (writeFile world (resolve (output args)) svg) as [e |].
  { split; [split; [discriminate | intros [_ H]; discriminate H] | discriminate]. }
  split; [split; [intros _; split; reflexivity | reflexivity] | reflexivity].
Qed.
End Program.
Lemma successful_run_witness :
  inUnit (mathRandom worldEmptyPage) /\
  parseArgs (argv worldEmptyPage) = Ok octocat /\
  exitCode (program pretty id (fun _ => 2026) oneTd oneAttr oneTooltip countThree
                    id id worldEmptyPage) = 0.
Proof.
  assert (Hr : inUnit alternating) by exact alternating_inUnit.
  assert (Hp : parseArgs ["--username"; "octocat"] = Ok octocat) by reflexivity.
  assert (Hf : fetchContributions oneTd oneAttr oneTooltip countThree emptyPage
               = Ok {["2026-01-01" := 3]}) by (vm_compute; reflexivity).
  destruct (successful_run pretty id (fun _ => 2026) oneTd oneAttr oneTooltip
              countThree id id worldEmptyPage octocat emptyPage _ Hr Hp eq_refl Hf)
    as (svg & p' & _ & _ & [_ He] & _).
  split; [exact Hr |]. split; [exact Hp |].
  apply He. split; reflexivity.
Defined.

(** The same run on a disk that cannot be written ends with status 1. *)
Example disk_full_run :
  exitCode (program pretty id (fun _ => 2026) oneTd oneAttr oneTooltip countThree
                    id id worldDiskFull) = 1.
Proof. vm_compute. reflexivity. Qed.

(** ** Bars *)

Lemma paintOrder_le (totalWeeks gridStart : Z) (a b : Day) :
  (paintOrder totalWeeks gridStart a b <= 0)%Q <-> paintsBefore totalWeeks gridStart a b.
Proof.
  unfold paintOrder, paintsBefore. cbv zeta.
  destruct (weekOf totalWeeks gridStart a =? weekOf totalWeeks gridStart b) eqn:E;
    cbn [negb]; change 0%Q with (inject_Z 0); rewrite <- Zle_Qle.
  - apply Z.eqb_eq in E. lia.
  - apply Z.eqb_neq in E. lia.
Qed.

Lemma paintOrder_sorted (totalWeeks gridStart : Z) (days : list Day) :
  StronglySorted (paintsBefore totalWeeks gridStart)
                 (jsSort (paintOrder totalWeeks gridStart) days).
Proof.
  eapply StronglySorted_weaken;
    [| apply (jsSort_sorted (paintOrder totalWeeks gridStart))].
  - intros a b H. apply paintOrder_le. exact H.
  - intros a b H. rewrite paintOrder_le in *. unfold paintsBefore in *. lia.
  - intros a b c. rewrite !paintOrder_le. unfold paintsBefore. lia.
Qed.

Lemma bars_map (levels : Levels) (totalWeeks gridStart : Z) (days : list Day) :
  bars levels totalWeeks gridStart days
  = barOf levels totalWeeks gridStart
      <$> List.filter hasCount (jsSort (paintOrder totalWeeks gridStart) days).
Proof.
  unfold bars. cbv zeta.
  induction (jsSort (paintOrder totalWeeks gridStart) days) as [| d l IH];
    [reflexivity |].
  cbn [flat_map List.filter]. rewrite IH. unfold hasCount at 2.
  destruct (count d <=? 0) eqn:E.
  - apply Z.leb_le in E.
    replace (0 <? count d) with false by (symmetry; apply Z.ltb_ge; exact E).
    reflexivity.
  - apply Z.leb_gt in E.
    replace (0 <? count d) with true by (symmetry; apply Z.ltb_lt; exact E).
    reflexivity.
Qed.

Lemma filter_perm {A : Type} (f : A -> bool) (l l' : list A) :
  l ≡ₚ l' -> List.filter f l ≡ₚ List.filter f l'.
Proof.
  induction 1 as [| x l l' _ IH | x y l | l l' l'' _ IH1 _ IH2]; cbn [List.filter].
  - reflexivity.
  - destruct (f x); [rewrite IH |]; [reflexivity | exact IH].
  - destruct (f x), (f y); try reflexivity. apply Permutation_swap.
  - etransitivity; eassumption.
Qed.

(** X20: the bars are the days with a positive count, one bar each,
    painted in order of week and, within a week, of day of the week. *)
Theorem bars_in_painting_order
  (levels : Levels) (totalWeeks gridStart : Z) (days : list Day) :
  exists sorted : list Day,
    sorted ≡ₚ days /\
    StronglySorted (paintsBefore totalWeeks gridStart) sorted /\
    bars levels totalWeeks gridStart days
    = barOf levels totalWeeks gridStart <$> List.filter hasCount sorted /\
    length (bars levels totalWeeks gridStart days)
    = length (List.filter hasCount days).
Proof.
  exists (jsSort (paintOrder totalWeeks gridStart) days).
  split; [apply jsSort_perm |]. split; [apply paintOrder_sorted |].
  split; [apply bars_map |].
  rewrite bars_map, length_fmap.
  apply Permutation_length, filter_perm, jsSort_perm.
Qed.

Lemma levelColor_positive (days : list Day) (d : Day) :
  d ∈ days -> 0 < count d ->
  levelColor (quantileLevels days) (count d) ∈ [color 1; color 2; color 3; color 4].
Proof.
  intros Hd Hc.
  assert (Hne : positiveVals days <> []).
  { intros He. assert (Hin : count d ∈ positiveVals days)
      by (apply positiveVals_elem; eauto).
    rewrite He in Hin. inversion Hin. }
  destruct (quantiles_ordered days Hne) as (q1 & q2 & q3 & Hq & _).
  rewrite (levelColor_thresholds days q1 q2 q3 _ Hne Hq).
  replace (count d <=? 0) with false by (symmetry; apply Z.leb_gt; exact Hc).
  repeat case_match; apply list_elem_of_In; cbn; tauto.
Qed.

Lemma bars_elem (levels : Levels) (totalWeeks gridStart : Z) (days : list Day)
      (p : Part) :
  p ∈ bars levels totalWeeks gridStart days <->
  exists d : Day, d ∈ days /\ 0 < count d /\ p = barOf levels totalWeeks gridStart d.
Proof.
  rewrite bars_map, list_elem_of_fmap. split.
  - intros (d & -> & Hd). apply list_elem_of_In, filter_In in Hd as [Hd Hc].
    apply list_elem_of_In, jsSort_elem in Hd. apply Z.ltb_lt in Hc. eauto.
  - intros (d & Hd & Hc & ->). exists d. split; [reflexivity |].
    apply list_elem_of_In, filter_In. split.
    + apply list_elem_of_In, jsSort_elem. exact Hd.
    + apply Z.ltb_lt. exact Hc.
Qed.

(** X21: every bar [render] paints is higher than 0 and no higher than 40,
    and has one of the four colours of the levels 1 to 4; when some day has
    a positive count, a bar of the full height 40 is among them. *)
Theorem bar_heights_and_colours (totalWeeks gridStart : Z) (days : list Day) :
  (forall p : Part, p ∈ bars (quantileLevels days) totalWeeks gridStart days ->
     exists (cx cy h : Q) (c : string) (delay : Q),
       p = Bar cx cy h c delay /\ (0 < h <= maxBarH)%Q /\
       c ∈ [color 1; color 2; color 3; color 4]) /\
  (forall d : Day, d ∈ days -> 0 < count d ->
     exists (cx cy h : Q) (c : string) (delay : Q),
       Bar cx cy h c delay ∈ bars (quantileLevels days) totalWeeks gridStart days /\
       (h == maxBarH)%Q).
Proof.
  split.
  - intros p Hp. apply bars_elem in Hp as (d & Hd & Hc & ->).
    unfold barOf. cbv zeta. do 5 eexists. split; [reflexivity |].
    split; [| apply levelColor_positive; assumption].
    rewrite q_max_maxCount. apply barHeight_range.
    split; [exact Hc | apply maxCount_upper; exact Hd].
  - intros d Hd Hc.
    destruct (maxCount_attained days) as [H0 | (dm & Hdm & Hcm)].
    { pose proof (proj2 (maxCount_upper days) d Hd). lia. }
    assert (Hpos : 0 < count dm).
    { pose proof (proj2 (maxCount_upper days) d Hd). lia. }
    do 5 eexists. split.
    + apply bars_elem. exists dm. split; [exact Hdm |]. split; [exact Hpos |].
      reflexivity.
    + rewrite q_max_maxCount. unfold barHeight. rewrite <- Hcm.
      replace (0 <? count dm) with true by (symmetry; apply Z.ltb_lt; exact Hpos).
      field. change 0%Q with (inject_Z 0). rewrite inject_Z_injective. lia.
Qed.

(** ** The motion path and the document *)

Lemma curvesFrom_lookup (prev : Waypoint) (rest : list Waypoint) (i : nat) (c : Curve) :
  curvesFrom prev rest !! i = Some c ->
  exists a b : Waypoint,
    (prev :: rest) !! i = Some a /\ rest !! i = Some b /\
    target c = (wp_x b, wp_y b) /\
    (cp1 c).2 = wp_y a /\ (cp2 c).2 = wp_y b /\
    ((cp1 c).1 + (cp2 c).1 == wp_x a + wp_x b)%Q.
Proof.
  revert prev i. induction rest as [| curr rest IH]; intros prev i Hc; [discriminate Hc |].
  destruct i as [| i]; cbn in Hc.
  - injection Hc as <-. exists prev, curr. cbn. repeat split; try reflexivity. ring.
  - destruct (IH curr i Hc) as (a & b & Ha & Hb & H). exists a, b. auto.
Qed.

Lemma curvesFrom_length (prev : Waypoint) (rest : list Waypoint) :
  length (curvesFrom prev rest) = length rest.
Proof.
  revert prev. induction rest as [| curr rest IH]; intros prev; [reflexivity |].
  cbn. rewrite IH. reflexivity.
Qed.

(** X22: with four waypoints or more the dragon block is 27 parts: the
    motion path, the tail, 24 body segments and the head.  The path starts
    at the first waypoint and has one curve per further waypoint; each
    curve ends at its waypoint, its first control point is level with the
    waypoint before and its second with its own, and the two control
    points lie symmetrically between the two waypoints. *)
Theorem dragon_path_through_waypoints (wps : list Waypoint) :
  (4 <= length wps)%nat ->
  length (dragonLayer wps) = 27%nat /\
  last (dragonLayer wps) = Some DragonHead /\
  exists (p0 : Waypoint) (curves : list Curve),
    head wps = Some p0 /\
    head (dragonLayer wps) = Some (DragonPath (wp_x p0, wp_y p0) curves) /\
    S (length curves) = length wps /\
    forall (i : nat) (c : Curve), curves !! i = Some c ->
      exists a b : Waypoint,
        wps !! i = Some a /\ wps !! S i = Some b /\
        target c = (wp_x b, wp_y b) /\
        (cp1 c).2 = wp_y a /\ (cp2 c).2 = wp_y b /\
        ((cp1 c).1 + (cp2 c).1 == wp_x a + wp_x b)%Q.
Proof.
  intros Hlen. unfold dragonLayer.
  replace (4 <=? length wps)%nat with true by (symmetry; apply Nat.leb_le; exact Hlen).
  destruct wps as [| p0 rest]; [simpl in Hlen; lia |].
  split; [reflexivity |]. split; [reflexivity |].
  exists p0, (curvesFrom p0 rest).
  split; [reflexivity |]. split; [reflexivity |].
  split; [rewrite curvesFrom_length; reflexivity |].
  intros i c Hc. exact (curvesFrom_lookup p0 rest i c Hc).
Qed.

Lemma dragon_path_through_waypoints_witness :
  (4 <= length [getPt ∅ 20 5; getPt ∅ 21 5; getPt ∅ 22 4; getPt ∅ 23 4])%nat /\
  length (dragonLayer [getPt ∅ 20 5; getPt ∅ 21 5; getPt ∅ 22 4; getPt ∅ 23 4])
  = 27%nat.
Proof.
  assert (H : (4 <= length [getPt ∅ 20 5; getPt ∅ 21 5; getPt ∅ 22 4; getPt ∅ 23 4])%nat)
    by (simpl; lia).
  split; [exact H |].
  exact (proj1 (dragon_path_through_waypoints _ H)).
Defined.

Lemma filter_length_app {A : Type} (f : A -> bool) (l k : list A) :
  length (List.filter f (l ++ k))
  = (length (List.filter f l) + length (List.filter f k))%nat.
Proof. rewrite List.filter_app, length_app. reflexivity. Qed.

Lemma dragonLayer_kinds (wps : list Waypoint) :
  List.filter isFloor (dragonLayer wps) = [] /\ List.filter isBar (dragonLayer wps) = [].
Proof.
  split; apply filter_none; intros p Hp; apply dragonLayer_dragon in Hp;
    destruct p; try discriminate Hp; reflexivity.
Qed.

Lemma bars_kinds (levels : Levels) (totalWeeks gridStart : Z) (days : list Day) :
  List.filter isFloor (bars levels totalWeeks gridStart days) = [] /\
  List.filter isBar (bars levels totalWeeks gridStart days)
  = bars levels totalWeeks gridStart days.
Proof.
  split; [apply filter_none | apply filter_all]; intros p Hp;
    apply bars_elem in Hp as (d & _ & _ & ->); reflexivity.
Qed.

Lemma panel_kinds (s : Stats) :
  List.filter isFloor (panel s) = [] /\ List.filter isBar (panel s) = [].
Proof. split; reflexivity. Qed.

Lemma last_app_some {A : Type} (l k : list A) (x : A) :
  last k = Some x -> last (l ++ k) = Some x.
Proof.
  intros Hk. induction l as [| a l IH]; [exact Hk |].
  cbn [app]. destruct (l ++ k) eqn:E; [discriminate IH | exact IH].
Qed.

(** X23: the document [render] returns opens with the [svg] element and
    closes it at the end; in between it has one floor tile for each day,
    one bar for each day with a positive count, the panel with the figures
    of [stats] and the footer with the year. *)
Theorem document_contents
  (random : nat -> Q) (year : Z) (days : list Day) (parts : list Part) :
  render random year days = Some parts ->
  head parts = Some (Static "svg") /\
  last parts = Some (Static "svg-close") /\
  length (List.filter isFloor parts) = length days /\
  length (List.filter isBar parts) = length (List.filter hasCount days) /\
  PanelStreak (s_best (stats days)) (s_current (stats days)) ∈ parts /\
  PanelDaily (s_max (stats days)) (s_average (stats days)) ∈ parts /\
  PanelTotal (s_total (stats days)) ∈ parts /\
  Footer year ∈ parts.
Proof.
  unfold render.
  destruct (gridStartOf days) as [g |]; [| discriminate].
  destruct (totalWeeksOf days) as [tw |]; [| discriminate].
  destruct (waypointsOf random days) as [wps |]; [| discriminate].
  cbn [mbind option_bind]. intros Hparts. apply (inj Some) in Hparts. subst parts.
  split; [reflexivity |].
  split.
  { do 5 (apply last_app_some). reflexivity. }
  split.
  { rewrite !filter_length_app.
    rewrite (proj1 (bars_kinds (quantileLevels days) tw g days)),
            (proj1 (dragonLayer_kinds wps)), (proj1 (panel_kinds (stats days))).
    rewrite (filter_all isFloor (map (floorTile tw g) days))
      by (intros p Hp; apply list_elem_of_fmap in Hp as (d & -> & _); reflexivity).
    rewrite length_map. cbn. lia. }
  split.
  { rewrite !filter_length_app.
    rewrite (proj2 (bars_kinds (quantileLevels days) tw g days)),
            (proj2 (dragonLayer_kinds wps)), (proj2 (panel_kinds (stats days))).
    rewrite (filter_none isBar (map (floorTile tw g) days))
      by (intros p Hp; apply list_elem_of_fmap in Hp as (d & -> & _); reflexivity).
    rewrite bars_map, length_fmap.
    rewrite (Permutation_length (filter_perm hasCount _ _ (jsSort_perm _ days))).
    cbn. lia. }
  assert (Hpanel : forall p, p ∈ panel (stats days) ->
    p ∈ ornamentsTop ++ map (floorTile tw g) days
        ++ bars (quantileLevels days) tw g days ++ dragonLayer wps
        ++ panel (stats days) ++ ornamentsBottom year).
  { intros p Hp. rewrite !elem_of_app. auto 10. }
  split; [apply Hpanel, list_elem_of_In; cbn; tauto |].
  split; [apply Hpanel, list_elem_of_In; cbn; tauto |].
  split; [apply Hpanel, list_elem_of_In; cbn; tauto |].
  rewrite !elem_of_app. do 5 right. apply list_elem_of_In. cbn. tauto.
Qed.

Lemma document_contents_witness :
  (exists parts : list Part,
     render alternating 2026 (zeroDays 19722 14) = Some parts /\
     length (List.filter isFloor parts) = length (zeroDays 19722 14)).
Proof.
  destruct (render alternating 2026 (zeroDays 19722 14)) as [parts |] eqn:E;
    [| vm_compute in E; discriminate E].
  exists parts. split; [reflexivity |].
  exact (proj1 (proj2 (proj2 (document_contents alternating 2026 _ parts E)))).
Defined.

(** ** A series without contributions *)

Lemma barHeightMapOf_quiet (max totalWeeks gridStart : Z) (days : list Day) :
  (forall d : Day, d ∈ days -> count d <= 0) ->
  barHeightMapOf max totalWeeks gridStart days = ∅.
Proof.
  unfold barHeightMapOf. generalize (∅ : gmap string Q) as m.
  induction days as [| d days IH]; intros m H; [reflexivity |].
  cbn [foldl].
  replace (count d <=? 0) with true
    by (symmetry; apply Z.leb_le, H; left).
  apply IH. intros d' Hd'. apply H. right. exact Hd'.
Qed.

Lemma positiveVals_quiet (days : list Day) :
  (forall d : Day, d ∈ days -> count d <= 0) -> positiveVals days = [].
Proof.
  intros H. destruct (positiveVals days) as [| v vals] eqn:E; [reflexivity |].
  assert (Hin : v ∈ positiveVals days) by (rewrite E; left).
  apply positiveVals_elem in Hin as [Hv (d & Hd & <-)].
  specialize (H d Hd). lia.
Qed.

Lemma streak_quiet (days : list Day) (best : Z) :
  (forall d : Day, d ∈ days -> count d <= 0) ->
  foldl streakStep (0, best) days = (0, best).
Proof.
  induction days as [| d days IH]; intros H; [reflexivity |].
  cbn [foldl]. unfold streakStep at 2.
  replace (0 <? count d) with false
    by (symmetry; apply Z.ltb_ge, H; left).
  apply IH. intros d' Hd'. apply H. right. exact Hd'.
Qed.

(** X24: in a series where no day has a positive count every count is
    painted in the empty colour, no bar is drawn, the streaks and the
    maximum are 0, and the path is flat: every waypoint lies at the
    projected point of its cell. *)
Theorem quiet_series (random : nat -> Q) (days : list Day) :
  (forall d : Day, d ∈ days -> count d <= 0) ->
  (forall c : Z, levelColor (quantileLevels days) c = color 0) /\
  (forall totalWeeks gridStart : Z,
     bars (quantileLevels days) totalWeeks gridStart days = []) /\
  s_max (stats days) = 0 /\ s_current (stats days) = 0 /\ s_best (stats days) = 0 /\
  (inUnit random -> forall wps : list Waypoint,
     waypointsOf random days = Some wps ->
     forall a : Waypoint, a ∈ wps ->
       wp_x a = isoX (wp_w a) (wp_d a) /\ (wp_y a == isoY (wp_w a) (wp_d a))%Q).
Proof.
  intros Hq.
  split; [intros c; apply levelColor_empty, positiveVals_quiet; exact Hq |].
  split.
  { intros tw g. destruct (bars (quantileLevels days) tw g days) as [| p l] eqn:E;
      [reflexivity |].
    assert (Hin : p ∈ bars (quantileLevels days) tw g days) by (rewrite E; left).
    apply bars_elem in Hin as (d & Hd & Hc & _). specialize (Hq d Hd). lia. }
  split.
  { rewrite s_max_maxCount. pose proof (maxCount_upper days) as [H0 _].
    destruct (maxCount_attained days) as [H | (d & Hd & Hc)]; [exact H |].
    specialize (Hq d Hd). lia. }
  pose proof (stats_streaks days) as Hs. rewrite (streak_quiet days 0 Hq) in Hs.
  injection Hs as Hc Hb.
  split; [exact Hc |]. split; [exact Hb |].
  intros Hr wps Hw a Ha.
  unfold waypointsOf in Hw.
  destruct (walkOf random days) as [s |] eqn:Hs; [| discriminate Hw].
  injection Hw as <-.
  destruct (walkOf_parts random days s Hs) as (g & tw & Hg & Ht & Hwalk).
  rewrite (barHeightMapOf_quiet _ tw g days Hq) in Hwalk.
  destruct (walk_pathInv _ _ _ Hr s Hwalk) as (l & p & _ & _ & _ & _ & Hpt & _).
  pose proof (Hpt a Ha) as E. destruct a as [x y w d].
  cbn [wp_x wp_y wp_w wp_d] in *. unfold getPt in E. rewrite lookup_empty in E.
  injection E as Ex Ey. split; [exact Ex |].
  rewrite Ey. cbn [default from_option id]. ring.
Qed.

Lemma quiet_series_witness :
  (forall d : Day, d ∈ zeroDays 19722 14 -> count d <= 0) /\
  s_best (stats (zeroDays 19722 14)) = 0.
Proof.
  assert (H : forall d : Day, d ∈ zeroDays 19722 14 -> count d <= 0).
  { intros d Hd. unfold zeroDays in Hd.
    apply list_elem_of_fmap in Hd as (i & -> & _). simpl. lia. }
  split; [exact H |].
  exact (proj1 (proj2 (proj2 (proj2 (proj2 (quiet_series alternating _ H)))))).
Defined.

(** ** Colours *)

Example dim_palette :
  dim "#f5c842" (7 # 10) = "#ac8c2e" /\ dim "#b82e2e" (4 # 10) = "#4a1212" /\
  highlight "#f5c842" (1 # 4) = "#f8d671" /\ dim "nonsense" (1 # 2) = "#000000" /\
  parseInt16 " -0x1F rest" = Some (-31) /\ toString16 (-5) = "-5".
Proof. vm_compute. repeat split; reflexivity. Qed.

(** A lower-case digit is no white space, sign or prefix letter, and
    [hexChar] writes it back. *)
Lemma lowerHex_facts (c : ascii) :
  isLowerHex c = true ->
  exists d : Z,
    0 <= d < 16 /\ hexDigit c = Some d /\ hexChar d = c /\
    isWhite c = false /\ Ascii.eqb c "-" = false /\ Ascii.eqb c "+" = false /\
    Ascii.eqb c "x" = false /\ Ascii.eqb c "X" = false.
Proof.
  destruct c as [[] [] [] [] [] [] [] []]; intros H;
    try (vm_compute in H; discriminate H);
    eexists; refine (conj _ (conj eq_refl _));
    solve [vm_compute; split; [intro X; discriminate X | reflexivity]
          | repeat split; reflexivity].
Qed.

Lemma hexChar_lower (d : Z) :
  0 <= d < 16 -> isLowerHex (hexChar d) = true /\ hexDigit (hexChar d) = Some d.
Proof.
  intros H.
  assert (Hd : d = 0 \/ d = 1 \/ d = 2 \/ d = 3 \/ d = 4 \/ d = 5 \/ d = 6 \/ d = 7 \/
               d = 8 \/ d = 9 \/ d = 10 \/ d = 11 \/ d = 12 \/ d = 13 \/ d = 14 \/ d = 15)
    by lia.
  repeat (destruct Hd as [-> | Hd]; [split; reflexivity |]). subst d. split; reflexivity.
Qed.

Lemma toHex2_table :
  forallb (fun n => let v := Z.of_nat n in
             String.eqb (padStart2 (toString16 v))
                        (String (hexChar (v / 16)) (String (hexChar (v mod 16)) "")))
          (seq 0 256) = true.
Proof. vm_compute. reflexivity. Qed.

(** A channel is written as its two digits. *)
Lemma toHex2_digits (v : Z) :
  0 <= v <= 255 ->
  padStart2 (toString16 v) = String (hexChar (v / 16)) (String (hexChar (v mod 16)) "").
Proof.
  intros Hv. pose proof toHex2_table as Ht. rewrite forallb_forall in Ht.
  specialize (Ht (Z.to_nat v)). rewrite Z2Nat.id in Ht by lia.
  apply String.eqb_eq, Ht, in_seq. lia.
Qed.

Lemma colourText_digits (r g b : Z) :
  0 <= r <= 255 -> 0 <= g <= 255 -> 0 <= b <= 255 ->
  colourText r g b =
    String "#" (String (hexChar (r / 16)) (String (hexChar (r mod 16))
      (String (hexChar (g / 16)) (String (hexChar (g mod 16))
        (String (hexChar (b / 16)) (String (hexChar (b mod 16)) "")))))).
Proof.
  intros Hr Hg Hb. unfold colourText.
  rewrite !toHex2_digits by assumption. reflexivity.
Qed.

(** Six lower-case digits are read as the number they write. *)
Lemma parseInt16_six (c1 c2 c3 c4 c5 c6 : ascii) (d1 d2 d3 d4 d5 d6 : Z) :
  isLowerHex c1 = true -> isLowerHex c2 = true ->
  hexDigit c1 = Some d1 -> hexDigit c2 = Some d2 -> hexDigit c3 = Some d3 ->
  hexDigit c4 = Some d4 -> hexDigit c5 = Some d5 -> hexDigit c6 = Some d6 ->
  parseInt16 (String c1 (String c2 (String c3 (String c4 (String c5 (String c6 ""))))))
  = Some (((((d1 * 16 + d2) * 16 + d3) * 16 + d4) * 16 + d5) * 16 + d6).
Proof.
  intros L1 L2 H1 H2 H3 H4 H5 H6.
  destruct (lowerHex_facts c1 L1) as (e1 & _ & _ & _ & W1 & M1 & P1 & _).
  destruct (lowerHex_facts c2 L2) as (e2 & _ & _ & _ & _ & _ & _ & X2 & X2').
  unfold parseInt16. cbn [trimStart]. rewrite W1.
  cbn [startsWith dropFirst]. rewrite M1, P1. cbn [orb].
  cbn [startsWith dropFirst]. rewrite X2, X2'. cbn [orb]. rewrite andb_false_r.
  rewrite H1. cbn [digitsValue]. rewrite H1, H2, H3, H4, H5, H6.
  f_equal. lia.
Qed.

Lemma channel_range (n : option Z) (shift : Z) : 0 <= channel n shift <= 255.
Proof.
  unfold channel. destruct n as [v |]; [| lia].
  change 255 with (Z.ones 8) at 1 2. rewrite Z.land_ones by lia.
  pose proof (Z.mod_pos_bound (Z.shiftr v shift) (2 ^ 8) ltac:(lia)). lia.
Qed.

Lemma channels_of_number (r g b : Z) :
  0 <= r <= 255 -> 0 <= g <= 255 -> 0 <= b <= 255 ->
  let n := Some ((r * 256 + g) * 256 + b) in
  channel n 16 = r /\ channel n 8 = g /\ channel n 0 = b.
Proof.
  intros Hr Hg Hb n. unfold channel, n.
  change 255 with (Z.ones 8). rewrite !Z.land_ones by lia.
  rewrite !Z.shiftr_div_pow2 by lia.
  change (2 ^ 16) with 65536. change (2 ^ 8) with 256. change (2 ^ 0) with 1.
  rewrite Z.div_1_r.
  assert (E1 : ((r * 256 + g) * 256 + b) / 65536 = r)
    by (symmetry; apply (Z.div_unique _ _ _ (g * 256 + b)); lia).
  assert (E2 : ((r * 256 + g) * 256 + b) / 256 = r * 256 + g)
    by (symmetry; apply (Z.div_unique _ _ _ b); lia).
  rewrite E1, E2.
  repeat split.
  - apply Z.mod_small. lia.
  - symmetry. apply (Z.mod_unique _ _ r); lia.
  - symmetry. apply (Z.mod_unique _ _ (r * 256 + g)); lia.
Qed.

(** Reading back a colour that was written gives the channels written. *)
Lemma channelsOf_colourText (r g b : Z) :
  0 <= r <= 255 -> 0 <= g <= 255 -> 0 <= b <= 255 ->
  channelsOf (colourText r g b) = (r, g, b).
Proof.
  intros Hr Hg Hb. unfold channelsOf.
  rewrite colourText_digits by assumption. cbn [dropFirst].
  assert (D : forall v, 0 <= v <= 255 -> 0 <= v / 16 < 16 /\ 0 <= v mod 16 < 16).
  { intros v Hv. split; [| apply Z.mod_pos_bound; lia].
    split; [apply Z.div_pos; lia | apply Z.div_lt_upper_bound; lia]. }
  destruct (D r Hr) as [R1 R2]. destruct (D g Hg) as [G1 G2]. destruct (D b Hb) as [B1 B2].
  rewrite (parseInt16_six _ _ _ _ _ _ (r / 16) (r mod 16) (g / 16) (g mod 16)
                          (b / 16) (b mod 16));
    try (apply hexChar_lower; assumption).
  replace (((((r / 16 * 16 + r mod 16) * 16 + g / 16) * 16 + g mod 16) * 16 + b / 16)
             * 16 + b mod 16)
    with ((r * 256 + g) * 256 + b).
  - destruct (channels_of_number r g b Hr Hg Hb) as (-> & -> & ->). reflexivity.
  - pose proof (Z.div_mod r 16 ltac:(lia)). pose proof (Z.div_mod g 16 ltac:(lia)).
    pose proof (Z.div_mod b 16 ltac:(lia)). lia.
Qed.

Lemma colourText_wellFormed (r g b : Z) :
  0 <= r <= 255 -> 0 <= g <= 255 -> 0 <= b <= 255 ->
  wellFormedColour (colourText r g b) = true.
Proof.
  intros Hr Hg Hb. rewrite colourText_digits by assumption.
  assert (D : forall v, 0 <= v <= 255 -> 0 <= v / 16 < 16 /\ 0 <= v mod 16 < 16).
  { intros v Hv. split; [| apply Z.mod_pos_bound; lia].
    split; [apply Z.div_pos; lia | apply Z.div_lt_upper_bound; lia]. }
  destruct (D r Hr) as [R1 R2]. destruct (D g Hg) as [G1 G2]. destruct (D b Hb) as [B1 B2].
  unfold wellFormedColour. cbn [startsWith dropFirst String.length allLowerHex].
  rewrite (proj1 (hexChar_lower _ R1)), (proj1 (hexChar_lower _ R2)),
    (proj1 (hexChar_lower _ G1)), (proj1 (hexChar_lower _ G2)),
    (proj1 (hexChar_lower _ B1)), (proj1 (hexChar_lower _ B2)).
  reflexivity.
Qed.

Lemma mathRound_nonneg (x : Q) : (0 <= x)%Q -> 0 <= mathRound x.
Proof.
  intros H. unfold mathRound. change 0 with (Qfloor 0). apply Qfloor_resp_le. lra.
Qed.

Lemma mathRound_le (x : Q) (n : Z) : (x <= inject_Z n)%Q -> mathRound x <= n.
Proof.
  intros H. unfold mathRound. rewrite <- (Qfloor_half n). apply Qfloor_resp_le. lra.
Qed.

Lemma mathRound_ge (x : Q) (n : Z) : (inject_Z n <= x)%Q -> n <= mathRound x.
Proof.
  intros H. unfold mathRound. rewrite <- (Qfloor_half n) at 1. apply Qfloor_resp_le. lra.
Qed.

Lemma inject_Z_range (a n b : Z) :
  a <= n <= b -> (inject_Z a <= inject_Z n <= inject_Z b)%Q.
Proof. intros H. rewrite <- !Zle_Qle. exact H. Qed.

(** Rounding to binary64 does not cross an integer it can hold. *)
Lemma b64_le_Z (x : Q) (n : Z) :
  - 2 ^ 53 <= n <= 2 ^ 53 -> (x <= inject_Z n)%Q -> (b64 x <= inject_Z n)%Q.
Proof. intros Hn H. rewrite <- (b64_Z n Hn). apply b64_mono. exact H. Qed.

Lemma b64_ge_Z (x : Q) (n : Z) :
  - 2 ^ 53 <= n <= 2 ^ 53 -> (inject_Z n <= x)%Q -> (inject_Z n <= b64 x)%Q.
Proof. intros Hn H. rewrite <- (b64_Z n Hn). apply b64_mono. exact H. Qed.

Lemma b64_1 : (b64 1 == 1)%Q.
Proof. reflexivity. Qed.

Lemma scale_range (slope : Q) (ch : Z) : 0 <= scale slope ch <= 255.
Proof. unfold scale. lia. Qed.

Lemma scale_le (slope : Q) (ch : Z) :
  0 <= ch <= 255 -> (slope <= 1)%Q -> scale slope ch <= ch.
Proof.
  intros Hc Hs. unfold scale.
  pose proof (inject_Z_range 0 ch 255 Hc) as [Hq _]. change (inject_Z 0) with 0%Q in Hq.
  pose proof (b64_mono _ _ Hs) as Hb. rewrite b64_1 in Hb.
  assert (mathRound (b64 (inject_Z ch * b64 slope)) <= ch).
  { apply mathRound_le, b64_le_Z; [lia |].
    set (s := b64 slope) in *. set (x := inject_Z ch) in *. nra. }
  lia.
Qed.

Lemma scale_mono (ch : Z) (s1 s2 : Q) :
  0 <= ch -> (s1 <= s2)%Q -> scale s1 ch <= scale s2 ch.
Proof.
  intros Hc Hs. unfold scale.
  assert (Hq : (0 <= inject_Z ch)%Q)
    by (change 0%Q with (inject_Z 0); rewrite <- Zle_Qle; lia).
  pose proof (b64_mono _ _ Hs) as Hb.
  assert (mathRound (b64 (inject_Z ch * b64 s1)) <= mathRound (b64 (inject_Z ch * b64 s2))).
  { unfold mathRound. apply Qfloor_resp_le.
    assert (b64 (inject_Z ch * b64 s1) <= b64 (inject_Z ch * b64 s2))%Q.
    { apply b64_mono. set (a := b64 s1) in *. set (b := b64 s2) in *.
      set (x := inject_Z ch) in *. nra. }
    lra. }
  lia.
Qed.

Lemma scale_one (ch : Z) : 0 <= ch <= 255 -> scale 1 ch = ch.
Proof.
  intros Hc. unfold scale.
  assert (E : (inject_Z ch * b64 1 == inject_Z ch)%Q) by (rewrite b64_1; ring).
  rewrite (b64_comp _ _ E).
  pose proof (b64_Z ch ltac:(lia)) as Eb.
  assert (mathRound (b64 (inject_Z ch)) <= ch) by (apply mathRound_le; lra).
  assert (ch <= mathRound (b64 (inject_Z ch))) by (apply mathRound_ge; lra).
  lia.
Qed.

Lemma scale_nonpos (slope : Q) (ch : Z) :
  0 <= ch <= 255 -> (slope <= 0)%Q -> scale slope ch = 0.
Proof.
  intros Hc Hs. unfold scale.
  pose proof (inject_Z_range 0 ch 255 Hc) as [Hq _]. change (inject_Z 0) with 0%Q in Hq.
  pose proof (b64_nonpos _ Hs) as Hb.
  assert (mathRound (b64 (inject_Z ch * b64 slope)) <= 0).
  { apply mathRound_le. change (inject_Z 0) with 0%Q. apply b64_nonpos.
    set (s := b64 slope) in *. set (x := inject_Z ch) in *. nra. }
  lia.
Qed.

(** The sum [blend] rounds, for an amount that is not negative. *)
Lemma blend_sum (amount : Q) (ch : Z) :
  0 <= ch <= 255 -> (0 <= amount)%Q ->
  (inject_Z ch <= b64 (inject_Z ch + b64 (inject_Z (255 - ch) * b64 amount)))%Q.
Proof.
  intros Hc Ha.
  pose proof (inject_Z_range 0 (255 - ch) 255 ltac:(lia)) as [Hd _].
  change (inject_Z 0) with 0%Q in Hd.
  pose proof (b64_nonneg _ Ha) as Hb.
  assert (Hp : (0 <= b64 (inject_Z (255 - ch) * b64 amount))%Q).
  { apply b64_nonneg. apply Qmult_le_0_compat; assumption. }
  apply b64_ge_Z; [lia | lra].
Qed.

Lemma blend_range (amount : Q) (ch : Z) :
  (0 <= amount)%Q -> 0 <= ch <= 255 -> 0 <= blend amount ch <= 255.
Proof.
  intros Ha Hc. unfold blend.
  pose proof (blend_sum amount ch Hc Ha) as Hs.
  assert (ch <= mathRound (b64 (inject_Z ch + b64 (inject_Z (255 - ch) * b64 amount))))
    by (apply mathRound_ge; exact Hs).
  lia.
Qed.

Lemma blend_ge (amount : Q) (ch : Z) :
  0 <= ch <= 255 -> (0 <= amount)%Q -> ch <= blend amount ch.
Proof.
  intros Hc Ha. unfold blend.
  pose proof (blend_sum amount ch Hc Ha) as Hs.
  assert (ch <= mathRound (b64 (inject_Z ch + b64 (inject_Z (255 - ch) * b64 amount))))
    by (apply mathRound_ge; exact Hs).
  lia.
Qed.

Lemma blend_mono (ch : Z) (a1 a2 : Q) :
  ch <= 255 -> (a1 <= a2)%Q -> blend a1 ch <= blend a2 ch.
Proof.
  intros Hc Ha. unfold blend.
  assert (Hd : (0 <= inject_Z (255 - ch))%Q)
    by (change 0%Q with (inject_Z 0); rewrite <- Zle_Qle; lia).
  pose proof (b64_mono _ _ Ha) as Hb.
  assert (Hp : (b64 (inject_Z (255 - ch) * b64 a1) <= b64 (inject_Z (255 - ch) * b64 a2))%Q).
  { apply b64_mono. set (a := b64 a1) in *. set (b := b64 a2) in *.
    set (x := inject_Z (255 - ch)) in *. nra. }
  assert (Hs : (b64 (inject_Z ch + b64 (inject_Z (255 - ch) * b64 a1))
                <= b64 (inject_Z ch + b64 (inject_Z (255 - ch) * b64 a2)))%Q)
    by (apply b64_mono; lra).
  assert (mathRound (b64 (inject_Z ch + b64 (inject_Z (255 - ch) * b64 a1)))
          <= mathRound (b64 (inject_Z ch + b64 (inject_Z (255 - ch) * b64 a2))))
    by (unfold mathRound; apply Qfloor_resp_le; lra).
  lia.
Qed.

Lemma blend_zero (ch : Z) : 0 <= ch <= 255 -> blend 0 ch = ch.
Proof.
  intros Hc. unfold blend.
  assert (E1 : (inject_Z (255 - ch) * b64 0 == 0)%Q) by (rewrite b64_0; ring).
  rewrite (b64_comp _ _ E1), b64_0.
  assert (E2 : (inject_Z ch + 0 == inject_Z ch)%Q) by ring.
  rewrite (b64_comp _ _ E2).
  pose proof (b64_Z ch ltac:(lia)) as Eb.
  assert (mathRound (b64 (inject_Z ch)) <= ch) by (apply mathRound_le; lra).
  assert (ch <= mathRound (b64 (inject_Z ch))) by (apply mathRound_ge; lra).
  lia.
Qed.

Lemma blend_full (amount : Q) (ch : Z) :
  0 <= ch <= 255 -> (1 <= amount)%Q -> blend amount ch = 255.
Proof.
  intros Hc Ha. unfold blend.
  pose proof (inject_Z_range 0 (255 - ch) 255 ltac:(lia)) as [Hd _].
  change (inject_Z 0) with 0%Q in Hd.
  pose proof (b64_mono _ _ Ha) as Hb. rewrite b64_1 in Hb.
  assert (Hp : (inject_Z (255 - ch) <= b64 (inject_Z (255 - ch) * b64 amount))%Q).
  { apply b64_ge_Z; [lia |].
    set (a := b64 amount) in *. set (x := inject_Z (255 - ch)) in *. nra. }
  assert (Hs : (inject_Z 255 <= b64 (inject_Z ch + b64 (inject_Z (255 - ch) * b64 amount)))%Q).
  { apply b64_ge_Z; [lia |].
    assert (E : (inject_Z 255 == inject_Z ch + inject_Z (255 - ch))%Q).
    { rewrite <- inject_Z_plus. replace (ch + (255 - ch)) with 255 by lia. reflexivity. }
    lra. }
  assert (255 <= mathRound (b64 (inject_Z ch + b64 (inject_Z (255 - ch) * b64 amount))))
    by (apply mathRound_ge; exact Hs).
  lia.
Qed.

(** A well-formed colour is the text written for the channels read from
    it. *)
Lemma colourText_channelsOf (hex : string) :
  wellFormedColour hex = true ->
  exists r g b : Z,
    channelsOf hex = (r, g, b) /\ 0 <= r <= 255 /\ 0 <= g <= 255 /\ 0 <= b <= 255 /\
    colourText r g b = hex.
Proof.
  unfold wellFormedColour. intros H.
  apply andb_prop in H as [H Hall]. apply andb_prop in H as [Hhash Hlen].
  destruct hex as [| c0 s]; [discriminate Hhash |].
  cbn [startsWith] in Hhash. apply Ascii.eqb_eq in Hhash. subst c0.
  cbn [dropFirst] in Hlen, Hall. apply Nat.eqb_eq in Hlen.
  destruct s as [| c1 [| c2 [| c3 [| c4 [| c5 [| c6 [| c7 s]]]]]]]; try discriminate Hlen.
  cbn [allLowerHex] in Hall.
  repeat (let L := fresh "L" in apply andb_prop in Hall as [L Hall]).
  destruct (lowerHex_facts c1 L) as (d1 & R1 & D1 & C1 & _).
  destruct (lowerHex_facts c2 L0) as (d2 & R2 & D2 & C2 & _).
  destruct (lowerHex_facts c3 L1) as (d3 & R3 & D3 & C3 & _).
  destruct (lowerHex_facts c4 L2) as (d4 & R4 & D4 & C4 & _).
  destruct (lowerHex_facts c5 L3) as (d5 & R5 & D5 & C5 & _).
  destruct (lowerHex_facts c6 L4) as (d6 & R6 & D6 & C6 & _).
  exists (d1 * 16 + d2), (d3 * 16 + d4), (d5 * 16 + d6).
  assert (Q : forall a b : Z, 0 <= a < 16 -> 0 <= b < 16 ->
                (a * 16 + b) / 16 = a /\ (a * 16 + b) mod 16 = b).
  { intros a b Ha Hb. split.
    - symmetry. apply (Z.div_unique _ _ _ b); lia.
    - symmetry. apply (Z.mod_unique _ _ a); lia. }
  split; [| split; [lia | split; [lia | split; [lia |]]]].
  - unfold channelsOf. cbn [dropFirst].
    rewrite (parseInt16_six c1 c2 c3 c4 c5 c6 d1 d2 d3 d4 d5 d6) by assumption.
    replace (((((d1 * 16 + d2) * 16 + d3) * 16 + d4) * 16 + d5) * 16 + d6)
      with (((d1 * 16 + d2) * 256 + (d3 * 16 + d4)) * 256 + (d5 * 16 + d6)) by lia.
    destruct (channels_of_number (d1 * 16 + d2) (d3 * 16 + d4) (d5 * 16 + d6))
      as (-> & -> & ->); [lia | lia | lia | reflexivity].
  - rewrite colourText_digits by lia.
    destruct (Q d1 d2 R1 R2) as [-> ->]. destruct (Q d3 d4 R3 R4) as [-> ->].
    destruct (Q d5 d6 R5 R6) as [-> ->].
    rewrite C1, C2, C3, C4, C5, C6. reflexivity.
Qed.

Lemma channelsOf_dim (hex : string) (slope : Q) :
  channelsOf (dim hex slope) =
    (scale slope (channel (parseInt16 (dropFirst hex)) 16),
     scale slope (channel (parseInt16 (dropFirst hex)) 8),
     scale slope (channel (parseInt16 (dropFirst hex)) 0)).
Proof. unfold dim. cbv zeta. apply channelsOf_colourText; apply scale_range. Qed.

Lemma channelsOf_highlight (hex : string) (amount : Q) :
  (0 <= amount)%Q ->
  channelsOf (highlight hex amount) =
    (blend amount (channel (parseInt16 (dropFirst hex)) 16),
     blend amount (channel (parseInt16 (dropFirst hex)) 8),
     blend amount (channel (parseInt16 (dropFirst hex)) 0)).
Proof.
  intros Ha. unfold highlight. cbv zeta.
  apply channelsOf_colourText; apply blend_range; try exact Ha; apply channel_range.
Qed.

(** X25: whatever text and slope it is given, [dim] returns a colour in
    the form [#rrggbb] with lower-case digits, and so does [highlight]
    for every amount that is not negative. *)
Theorem colours_well_formed (hex : string) (slope amount : Q) :
  (0 <= amount)%Q ->
  wellFormedColour (dim hex slope) = true /\
  wellFormedColour (highlight hex amount) = true.
Proof.
  intros Ha. split.
  - unfold dim. cbv zeta. apply colourText_wellFormed; apply scale_range.
  - unfold highlight. cbv zeta.
    apply colourText_wellFormed; apply blend_range; try exact Ha; apply channel_range.
Qed.

Lemma colours_well_formed_witness :
  wellFormedColour (dim "#f5c842" (7 # 10)) = true /\
  wellFormedColour (highlight "#f5c842" (1 # 4)) = true.
Proof. apply (colours_well_formed "#f5c842" (7 # 10) (1 # 4)). discriminate. Defined.

(** X26: reading the channels of [dim hex slope] back gives each channel
    of [hex] multiplied by the slope as binary64 numbers are, rounded to
    the nearest integer and clamped to 0..255; with a slope of at most 1 no
    channel grows. *)
Theorem dim_scales_channels (hex : string) (slope : Q) (r g b : Z) :
  channelsOf hex = (r, g, b) ->
  channelsOf (dim hex slope) = (scale slope r, scale slope g, scale slope b) /\
  ((slope <= 1)%Q ->
   scale slope r <= r /\ scale slope g <= g /\ scale slope b <= b).
Proof.
  intros Hch. unfold channelsOf in Hch.
  injection Hch as Hr Hg Hb.
  pose proof (channel_range (parseInt16 (dropFirst hex)) 16) as Rr.
  pose proof (channel_range (parseInt16 (dropFirst hex)) 8) as Rg.
  pose proof (channel_range (parseInt16 (dropFirst hex)) 0) as Rb.
  rewrite Hr in Rr. rewrite Hg in Rg. rewrite Hb in Rb.
  split.
  - rewrite channelsOf_dim, Hr, Hg, Hb. reflexivity.
  - intros Hs. repeat split; apply scale_le; assumption.
Qed.

Lemma dim_scales_channels_witness :
  channelsOf "#2d2d2d" = (45, 45, 45) /\
  channelsOf (dim "#2d2d2d" (7 # 10)) = (31, 31, 31) /\
  dim "#2d2d2d" (7 # 10) = "#1f1f1f".
Proof.
  assert (H : channelsOf "#2d2d2d" = (45, 45, 45)) by (vm_compute; reflexivity).
  destruct (dim_scales_channels "#2d2d2d" (7 # 10) 45 45 45 H) as [E _].
  split; [exact H |]. split.
  - rewrite E. vm_compute. reflexivity.
  - vm_compute. reflexivity.
Defined.

(** X27: for an amount that is not negative, reading the channels of
    [highlight hex amount] back gives each channel of [hex] moved towards
    255 by that share of the distance, rounded and capped at 255; no
    channel shrinks. *)
Theorem highlight_blends_channels (hex : string) (amount : Q) (r g b : Z) :
  channelsOf hex = (r, g, b) -> (0 <= amount)%Q ->
  channelsOf (highlight hex amount) = (blend amount r, blend amount g, blend amount b) /\
  r <= blend amount r <= 255 /\ g <= blend amount g <= 255 /\ b <= blend amount b <= 255.
Proof.
  intros Hch Ha. unfold channelsOf in Hch.
  injection Hch as Hr Hg Hb.
  pose proof (channel_range (parseInt16 (dropFirst hex)) 16) as Rr.
  pose proof (channel_range (parseInt16 (dropFirst hex)) 8) as Rg.
  pose proof (channel_range (parseInt16 (dropFirst hex)) 0) as Rb.
  rewrite Hr in Rr. rewrite Hg in Rg. rewrite Hb in Rb.
  pose proof (blend_range amount r Ha Rr). pose proof (blend_range amount g Ha Rg).
  pose proof (blend_range amount b Ha Rb).
  pose proof (blend_ge amount r Rr Ha). pose proof (blend_ge amount g Rg Ha).
  pose proof (blend_ge amount b Rb Ha).
  split; [| lia].
  rewrite channelsOf_highlight, Hr, Hg, Hb by exact Ha. reflexivity.
Qed.

Lemma highlight_blends_channels_witness :
  channelsOf (highlight "#f5c842" (1 # 4)) = (248, 214, 113).
Proof.
  destruct (highlight_blends_channels "#f5c842" (1 # 4) 245 200 66) as [E _].
  - vm_compute. reflexivity.
  - discriminate.
  - rewrite E. vm_compute. reflexivity.
Defined.

(** X28: on a colour written as [#rrggbb] with lower-case digits, [dim]
    with slope 1 and [highlight] with amount 0 return the colour itself. *)
Theorem colour_fixed_points (hex : string) :
  wellFormedColour hex = true ->
  dim hex 1 = hex /\ highlight hex 0 = hex.
Proof.
  intros Hw.
  destruct (colourText_channelsOf hex Hw) as (r & g & b & Hch & Rr & Rg & Rb & Htext).
  unfold channelsOf in Hch. injection Hch as Hr Hg Hb.
  split.
  - unfold dim. cbv zeta. rewrite Hr, Hg, Hb, !scale_one by assumption. exact Htext.
  - unfold highlight. cbv zeta. rewrite Hr, Hg, Hb, !blend_zero by assumption. exact Htext.
Qed.

Lemma colour_fixed_points_witness :
  dim "#f5c842" 1 = "#f5c842" /\ highlight "#f5c842" 0 = "#f5c842".
Proof. apply (colour_fixed_points "#f5c842"). vm_compute. reflexivity. Defined.

(** X29: with a slope of 0 or less [dim] returns black, and with an
    amount of 1 or more [highlight] returns white, whatever the text
    given as the colour. *)
Theorem colours_saturate (hex : string) (slope amount : Q) :
  (slope <= 0)%Q -> (1 <= amount)%Q ->
  dim hex slope = "#000000" /\ highlight hex amount = "#ffffff".
Proof.
  intros Hs Ha.
  pose proof (channel_range (parseInt16 (dropFirst hex)) 16) as Rr.
  pose proof (channel_range (parseInt16 (dropFirst hex)) 8) as Rg.
  pose proof (channel_range (parseInt16 (dropFirst hex)) 0) as Rb.
  split.
  - unfold dim. cbv zeta. rewrite !scale_nonpos by assumption. reflexivity.
  - unfold highlight. cbv zeta. rewrite !blend_full by assumption. reflexivity.
Qed.

Lemma colours_saturate_witness :
  dim "#f5c842" 0 = "#000000" /\ highlight "#f5c842" 1 = "#ffffff".
Proof. apply (colours_saturate "#f5c842" 0 1); discriminate. Defined.
Lemma dim_noBrighter (c : string) (s1 s2 : Q) :
  (s1 <= s2)%Q -> noBrighter (dim c s1) (dim c s2).
Proof.
  intros Hs. unfold noBrighter. rewrite !channelsOf_dim.
  repeat split; apply scale_mono; try exact Hs; apply channel_range.
Qed.

Lemma highlight_noBrighter (c : string) (a1 a2 : Q) :
  (0 <= a1)%Q -> (a1 <= a2)%Q -> noBrighter (highlight c a1) (highlight c a2).
Proof.
  intros H0 Ha. unfold noBrighter.
  rewrite !channelsOf_highlight by lra.
  repeat split; apply blend_mono; try exact Ha; apply channel_range.
Qed.

(** X30: whatever the colour of a bar, the colours of its shapes are
    well-formed colours and are ordered channel by channel: the stroke of
    the shadow face is no brighter than its fill, which is no brighter
    than the stroke of the lit face, then the fill of the lit face, the
    bar's own colour, the top face and the top edges. *)
Theorem bar_shading (c : string) :
  let f := facesOf c in
  Forall (fun s => wellFormedColour s = true)
         [cTop f; cLeft f; cRight f; cTopEdge f; rightStroke f; leftStroke f] /\
  noBrighter (rightStroke f) (cRight f) /\
  noBrighter (cRight f) (leftStroke f) /\
  noBrighter (leftStroke f) (cLeft f) /\
  noBrighter (cLeft f) c /\
  noBrighter c (cTop f) /\
  noBrighter (cTop f) (cTopEdge f).
Proof.
  cbv zeta. unfold facesOf. cbn [cTop cLeft cRight cTopEdge rightStroke leftStroke].
  assert (W : forall s a : Q, (0 <= a)%Q ->
                wellFormedColour (dim c s) = true /\
                wellFormedColour (highlight c a) = true).
  { intros s a Ha. split.
    - unfold dim. cbv zeta. apply colourText_wellFormed; apply scale_range.
    - unfold highlight. cbv zeta.
      apply colourText_wellFormed; apply blend_range; try exact Ha; apply channel_range. }
  split.
  { repeat apply Forall_cons_2; try apply Forall_nil_2;
      try (apply (W 0%Q); discriminate); apply (W _ 0%Q); discriminate. }
  split; [apply dim_noBrighter; discriminate |].
  split; [apply dim_noBrighter; discriminate |].
  split; [apply dim_noBrighter; discriminate |].
  pose proof (channel_range (parseInt16 (dropFirst c)) 16) as Rr.
  pose proof (channel_range (parseInt16 (dropFirst c)) 8) as Rg.
  pose proof (channel_range (parseInt16 (dropFirst c)) 0) as Rb.
  split.
  { unfold noBrighter. rewrite channelsOf_dim. unfold channelsOf.
    repeat split; apply scale_le; try assumption; discriminate. }
  split.
  { unfold noBrighter. rewrite channelsOf_highlight by discriminate. unfold channelsOf.
    repeat split; apply blend_ge; try assumption; discriminate. }
  apply highlight_noBrighter; discriminate.
Qed.
